(** * ImageCacheService: a shallow embedding and its verified properties

    The image cache of EpisodeAlerts (app/services/ImageCacheService.ts) is a
    singleton object with two mutable fields, [isEnabled] and [cacheSize],
    that talks to two platform collaborators: expo-file-system (the blob
    store) and AsyncStorage (the settings store).

    The embedding keeps the shape of the TypeScript:
    - every [async] method is a computation in a state-and-exception monad
      [M]; [await] is sequencing (one logical thread; the only code run
      interleaved is that of the two methods the constructor starts
      without awaiting them);
    - a rejected promise is the outcome [Throw]; mutations made before the
      rejection stay in the state, as in JavaScript;
    - [try { .. } catch { console.error(..) }] is [try_catch];
    - the collaborators are modelled by a small file system (the cache
      directory and its blobs) and a key-value list, and every collaborator
      call is written to a trace.  An environment decides which calls fail,
      what [Math.random()] and [Date.now()] return and how many bytes a
      download brings. *)

From Stdlib Require Import ZArith QArith Qround List String Ascii Bool Lia Lqa Permutation Sorted DecimalString.
Import ListNotations.
Local Open Scope string_scope.
Local Open Scope list_scope.
Local Open Scope Z_scope.

Set Implicit Arguments.

(** ** Strings *)

(** [url.split('/')]: the pieces between slashes, never an empty list. *)
Fixpoint split_slash (s : string) : list string :=
  match s with
  | EmptyString => [EmptyString]
  | String c rest =>
      if Ascii.eqb c "/"%char then EmptyString :: split_slash rest
      else match split_slash rest with
           | piece :: pieces => String c piece :: pieces
           | [] => [String c EmptyString]
           end
  end.

(** The character class [a-zA-Z0-9.] of the regular expression. *)
Definition is_safe_char (c : ascii) : bool :=
  let n := nat_of_ascii c in
  ((97 <=? n) && (n <=? 122) || (65 <=? n) && (n <=? 90)
   || (48 <=? n) && (n <=? 57) || (n =? 46))%nat.

(** [s.replace(/[^a-zA-Z0-9.]/g, '_')] *)
Fixpoint replace_unsafe (s : string) : string :=
  match s with
  | EmptyString => EmptyString
  | String c rest =>
      String (if is_safe_char c then c else "_"%char) (replace_unsafe rest)
  end.

(** [getFilenameFromUrl]: the last piece of the URL, made file-system safe. *)
Definition getFilenameFromUrl (url : string) : string :=
  let parts := split_slash url in
  let lastPart := last parts EmptyString in
  replace_unsafe lastPart.

(** [s.startsWith(p)] returning what follows the prefix. *)
Fixpoint strip_prefix (p s : string) : option string :=
  match p, s with
  | EmptyString, _ => Some s
  | String a p', String b s' =>
      if Ascii.eqb a b then strip_prefix p' s' else None
  | String _ _, EmptyString => None
  end.

(** ** Association lists (directory entries and settings) *)

Section Assoc.
Variable V : Type.

Fixpoint lookup (k : string) (l : list (string * V)) : option V :=
  match l with
  | [] => None
  | (k', v) :: rest => if String.eqb k k' then Some v else lookup k rest
  end.

(** Overwrite in place when the key is present, append otherwise. *)
Fixpoint upsert (k : string) (v : V) (l : list (string * V))
  : list (string * V) :=
  match l with
  | [] => [(k, v)]
  | (k', v') :: rest =>
      if String.eqb k k' then (k, v) :: rest else (k', v') :: upsert k v rest
  end.

Fixpoint remove_key (k : string) (l : list (string * V))
  : list (string * V) :=
  match l with
  | [] => []
  | (k', v') :: rest =>
      if String.eqb k k' then rest else (k', v') :: remove_key k rest
  end.
End Assoc.

(** ** The collaborators *)

(** The cache directory: [None] when it does not exist, otherwise its blobs
    (name and byte size) in listing order. *)
Definition Disk := option (list (string * Z)).

Definition total (files : list (string * Z)) : Z :=
  fold_right (fun f acc => snd f + acc) 0 files.

(** Calls the service issues to expo-file-system and AsyncStorage. *)
Inductive Call :=
| GetInfo (path : string) (withSize : bool)
| MakeDirectory (path : string)
| Download (url path : string)
| ReadDirectory (path : string)
| Delete (path : string) (idempotent : bool)
| GetItem (key : string)
| SetItem (key value : string).

(** What [FileSystem.getInfoAsync] resolves to. *)
Record FileInfo := mkFileInfo {
  fi_exists : bool;
  fi_uri : string;
  fi_size : option Z;
  fi_isDirectory : bool
}.

(** [type CacheFileInfo] of the source. *)
Record CacheFileInfo := mkCacheFileInfo {
  uri : string;
  size : Z;
  modificationTime : Q
}.

(** Everything outside the service that its behaviour depends on. *)
Record Env := mkEnv {
  faults : nat -> bool;   (* does the n-th collaborator call reject? *)
  random : nat -> Q;      (* the n-th value of Math.random() *)
  clock : nat -> Z;       (* the n-th value of Date.now() *)
  remote : string -> Z    (* byte length of the body served at a url *)
}.

(** The service object together with the world around it. *)
Record State := mkState {
  isEnabled : bool;                    (* this.isEnabled *)
  cacheSize : Z;                       (* this.cacheSize *)
  disk : Disk;                         (* the cache directory *)
  storage : list (string * string);    (* AsyncStorage *)
  trace : list (Call * bool);          (* collaborator calls, with success *)
  console : list string;               (* console.error lines *)
  draws : nat                          (* clock/random values consumed *)
}.

Definition set_isEnabled (b : bool) (st : State) : State :=
  mkState b (cacheSize st) (disk st) (storage st) (trace st) (console st) (draws st).
Definition set_cacheSize (z : Z) (st : State) : State :=
  mkState (isEnabled st) z (disk st) (storage st) (trace st) (console st) (draws st).
Definition set_disk (d : Disk) (st : State) : State :=
  mkState (isEnabled st) (cacheSize st) d (storage st) (trace st) (console st) (draws st).
Definition set_storage (s : list (string * string)) (st : State) : State :=
  mkState (isEnabled st) (cacheSize st) (disk st) s (trace st) (console st) (draws st).
Definition log_call (c : Call) (ok : bool) (st : State) : State :=
  mkState (isEnabled st) (cacheSize st) (disk st) (storage st)
          (trace st ++ [(c, ok)]) (console st) (draws st).
Definition log_error (msg : string) (st : State) : State :=
  mkState (isEnabled st) (cacheSize st) (disk st) (storage st) (trace st)
          (console st ++ [msg]) (draws st).
Definition next_draw (st : State) : State :=
  mkState (isEnabled st) (cacheSize st) (disk st) (storage st) (trace st)
          (console st) (S (draws st)).

(** ** The monad of async methods *)

Inductive Res (A : Type) :=
| Ok (a : A)
| Throw.
Arguments Ok {A} a.
Arguments Throw {A}.

Definition M (A : Type) := State -> Res A * State.

Definition ret {A} (a : A) : M A := fun st => (Ok a, st).

Definition bind {A B} (m : M A) (k : A -> M B) : M B :=
  fun st =>
    match m st with
    | (Ok a, st') => k a st'
    | (Throw, st') => (Throw, st')
    end.

Definition try_catch {A} (body handler : M A) : M A :=
  fun st =>
    match body st with
    | (Ok a, st') => (Ok a, st')
    | (Throw, st') => handler st'
    end.

Definition get_state : M State := fun st => (Ok st, st).
Definition modify (f : State -> State) : M unit := fun st => (Ok tt, f st).
Definition console_error (msg : string) : M unit := modify (log_error msg).

Declare Scope monad_scope.
Delimit Scope monad_scope with monad.
Notation "x <- m ;; k" := (bind m (fun x => k))
  (at level 61, m at next level, right associativity) : monad_scope.
Notation "m ;; k" := (bind m (fun _ => k))
  (at level 61, right associativity) : monad_scope.
Local Open Scope monad_scope.

(** ** [Array.prototype.sort] with the comparator of [trimCache] *)

(** [fileInfos.sort((a, b) => a.modificationTime - b.modificationTime)]:
    ascending by time; the sort of the JavaScript engines is stable, which an
    insertion from the right reproduces. *)
Fixpoint insert_by_time (x : CacheFileInfo) (l : list CacheFileInfo)
  : list CacheFileInfo :=
  match l with
  | [] => [x]
  | y :: rest =>
      if Qle_bool (modificationTime x) (modificationTime y)
      then x :: y :: rest
      else y :: insert_by_time x rest
  end.

Definition sort_by_time (l : list CacheFileInfo) : list CacheFileInfo :=
  fold_right insert_by_time [] l.

(** ** The service *)

Definition IMAGE_CACHE_ENABLED_KEY : string := "@EpisodeAlerts:imageCacheEnabled".

(** [100 * 1024 * 1024], the ceiling the application ships with. *)
Definition MAX_CACHE_SIZE : Z := 100 * 1024 * 1024.

(** [enabled.toString()] *)
Definition bool_toString (b : bool) : string := if b then "true" else "false".

Section Service.

(** [FileSystem.cacheDirectory] is supplied by the platform; the ceiling is
    kept a variable so that the scenarios of the specification, which use
    other ceilings, are instances of the same code. *)
Variable cacheDirectory : string.
Variable maxCacheSize : Z.
Variable env : Env.

Definition IMAGE_CACHE_DIR : string := (cacheDirectory ++ "images/")%string.

(** *** expo-file-system and AsyncStorage

    The two libraries are not part of the repository.  Their model is the
    least one the service needs, for paths under [IMAGE_CACHE_DIR] only:
    - [getInfoAsync] resolves with [exists = false] for a missing path, and
      otherwise with the uri it was asked about and the size; the size of
      the directory is the sum of the sizes of its blobs;
    - [downloadAsync] writes (or overwrites) the blob and resolves with the
      uri it was given; it rejects when the directory is missing;
    - [readDirectoryAsync] rejects when the directory is missing;
    - [deleteAsync] rejects on a missing target unless [idempotent];
    - any call rejects when the environment says so, and a call that
      rejects leaves the store as it was. *)

Inductive Target :=
| TDir
| TFile (name : string)
| TOutside.

Definition locate (path : string) : Target :=
  match strip_prefix IMAGE_CACHE_DIR path with
  | Some EmptyString => TDir
  | Some name => TFile name
  | None => TOutside
  end.

Definition absent (path : string) : FileInfo :=
  mkFileInfo false path None false.

Definition stat (d : Disk) (path : string) : FileInfo :=
  match locate path, d with
  | TDir, Some files => mkFileInfo true path (Some (total files)) true
  | TFile name, Some files =>
      match lookup name files with
      | Some bytes => mkFileInfo true path (Some bytes) false
      | None => absent path
      end
  | _, _ => absent path
  end.

(** One collaborator call: it is traced, rejects when the environment says
    so, and otherwise does what [sem] says ([None]: the call itself is in
    error, such as listing a directory that does not exist). *)
Definition fs_call {A} (c : Call) (sem : Disk -> option (A * Disk)) : M A :=
  fun st =>
    if faults env (List.length (trace st)) then (Throw, log_call c false st)
    else match sem (disk st) with
         | Some (a, d) => (Ok a, set_disk d (log_call c true st))
         | None => (Throw, log_call c false st)
         end.

Definition kv_call {A} (c : Call)
    (sem : list (string * string) -> A * list (string * string)) : M A :=
  fun st =>
    if faults env (List.length (trace st)) then (Throw, log_call c false st)
    else let (a, s) := sem (storage st) in
         (Ok a, set_storage s (log_call c true st)).

Definition getInfoAsync (path : string) (withSize : bool) : M FileInfo :=
  fs_call (GetInfo path withSize) (fun d => Some (stat d path, d)).

(** [makeDirectoryAsync(path, { intermediates: true })] *)
Definition makeDirectoryAsync (path : string) : M unit :=
  fs_call (MakeDirectory path) (fun d =>
    match locate path, d with
    | TDir, None => Some (tt, Some [])
    | TDir, Some files => Some (tt, Some files)
    | _, _ => None
    end).

(** [downloadAsync(url, path)]: resolves to the uri written. *)
Definition downloadAsync (url path : string) : M string :=
  fs_call (Download url path) (fun d =>
    match locate path, d with
    | TFile name, Some files =>
        Some (path, Some (upsert name (remote env url) files))
    | _, _ => None
    end).

Definition readDirectoryAsync (path : string) : M (list string) :=
  fs_call (ReadDirectory path) (fun d =>
    match locate path, d with
    | TDir, Some files => Some (map fst files, d)
    | _, _ => None
    end).

(** [deleteAsync(path, { idempotent })]: without [idempotent] a missing
    target is an error. *)
Definition deleteAsync (path : string) (idempotent : bool) : M unit :=
  fs_call (Delete path idempotent) (fun d =>
    match locate path, d with
    | TDir, Some _ => Some (tt, None)
    | TFile name, Some files =>
        match lookup name files with
        | Some _ => Some (tt, Some (remove_key name files))
        | None => if idempotent then Some (tt, d) else None
        end
    | _, _ => if idempotent then Some (tt, d) else None
    end).

Definition getItem (key : string) : M (option string) :=
  kv_call (GetItem key) (fun s => (lookup key s, s)).

Definition setItem (key value : string) : M unit :=
  kv_call (SetItem key value) (fun s => (tt, upsert key value s)).

(** [Date.now() - (Math.random() * 86400000)] *)
Definition simulatedModTime : M Q :=
  fun st =>
    (Ok (inject_Z (clock env (draws st)) - random env (draws st) * 86400000)%Q,
     next_draw st).

(** *** Methods of [ImageCacheService] *)

Definition setupCacheDirectory : M unit :=
  try_catch
    (dirInfo <- getInfoAsync IMAGE_CACHE_DIR false ;;
     if negb (fi_exists dirInfo)
     then makeDirectoryAsync IMAGE_CACHE_DIR
     else ret tt)
    (console_error "Error setting up cache directory:").

(** [fileInfo.size || 0] *)
Definition size_or_zero (info : FileInfo) : Z :=
  match fi_size info with
  | Some bytes => bytes
  | None => 0
  end.

Definition calculateCacheSize : M Z :=
  try_catch
    (dirInfo <- getInfoAsync IMAGE_CACHE_DIR true ;;
     (if fi_exists dirInfo && fi_isDirectory dirInfo
      then modify (set_cacheSize (size_or_zero dirInfo))
      else modify (set_cacheSize 0)) ;;
     st <- get_state ;;
     ret (cacheSize st))
    (console_error "Error calculating cache size:" ;; ret 0).

Definition loadSettings : M unit :=
  try_catch
    (cacheEnabled <- getItem IMAGE_CACHE_ENABLED_KEY ;;
     modify (set_isEnabled
               (negb (match cacheEnabled with
                      | Some v => String.eqb v "false"
                      | None => false
                      end))) ;;
     _ <- calculateCacheSize ;;
     ret tt)
    (console_error "Error loading cache settings:").

Definition clearCache : M unit :=
  try_catch
    (dirInfo <- getInfoAsync IMAGE_CACHE_DIR false ;;
     (if fi_exists dirInfo
      then deleteAsync IMAGE_CACHE_DIR true ;;
           makeDirectoryAsync IMAGE_CACHE_DIR
      else ret tt) ;;
     modify (set_cacheSize 0))
    (console_error "Error clearing cache:").

Definition setEnabled (enabled : bool) : M unit :=
  modify (set_isEnabled enabled) ;;
  setItem IMAGE_CACHE_ENABLED_KEY (bool_toString enabled) ;;
  if negb enabled then clearCache else ret tt.

Definition isImageCacheEnabled (st : State) : bool := isEnabled st.

(** [MAX_CACHE_SIZE * 0.7], as a rational.  For the ceilings used below,
    1000 and 104857600, the product of the IEEE doubles is exactly 700 and
    73400320, the value of the rational. *)
Definition targetSize : Q := (inject_Z maxCacheSize * (7 # 10))%Q.

(** The first loop of [trimCache]: one stat per listed name, and an entry
    with a simulated time for each name that exists. *)
Fixpoint collectFileInfos (files : list string) : M (list CacheFileInfo) :=
  match files with
  | [] => ret []
  | filename :: rest =>
      let filePath := (IMAGE_CACHE_DIR ++ filename)%string in
      fileInfo <- getInfoAsync filePath true ;;
      here <- (if fi_exists fileInfo
               then modTime <- simulatedModTime ;;
                    ret [mkCacheFileInfo (fi_uri fileInfo)
                                         (size_or_zero fileInfo) modTime]
               else ret []) ;;
      more <- collectFileInfos rest ;;
      ret (here ++ more)
  end.

(** The second loop of [trimCache]: delete in the given order until the
    running total is at or below the target. *)
Fixpoint deleteUntilTarget (fileInfos : list CacheFileInfo) (currentSize : Z)
  : M Z :=
  match fileInfos with
  | [] => ret currentSize
  | fileInfo :: rest =>
      if Qle_bool (inject_Z currentSize) targetSize
      then ret currentSize
      else deleteAsync (uri fileInfo) false ;;
           deleteUntilTarget rest (currentSize - size fileInfo)
  end.

Definition trimCache : M unit :=
  try_catch
    (files <- readDirectoryAsync IMAGE_CACHE_DIR ;;
     match files with
     | [] => ret tt
     | _ :: _ =>
         fileInfos <- collectFileInfos files ;;
         st <- get_state ;;
         _ <- deleteUntilTarget (sort_by_time fileInfos) (cacheSize st) ;;
         _ <- calculateCacheSize ;;
         ret tt
     end)
    (console_error "Error trimming cache:").

Definition updateCacheSize (newFileSize : Z) : M unit :=
  try_catch
    (modify (fun st => set_cacheSize (cacheSize st + newFileSize) st) ;;
     st <- get_state ;;
     if maxCacheSize <? cacheSize st then trimCache else ret tt)
    (console_error "Error updating cache size:").

(** [fileInfo.exists && fileInfo.size] as a condition. *)
Definition has_size (info : FileInfo) : bool :=
  fi_exists info &&
  match fi_size info with
  | Some bytes => negb (bytes =? 0)
  | None => false
  end.

Definition getCachedImageUri (url : string) : M string :=
  st <- get_state ;;
  if negb (isEnabled st) || String.eqb url EmptyString then ret url
  else
    try_catch
      (let filename := getFilenameFromUrl url in
       let filePath := (IMAGE_CACHE_DIR ++ filename)%string in
       fileInfo <- getInfoAsync filePath false ;;
       if fi_exists fileInfo then ret (fi_uri fileInfo)
       else
         downloadResult <- downloadAsync url filePath ;;
         fileInfo <- getInfoAsync filePath true ;;
         (if has_size fileInfo
          then updateCacheSize (size_or_zero fileInfo)
          else ret tt) ;;
         ret downloadResult)
      (console_error "Error caching image:" ;; ret url).

(** [Math.round((this.cacheSize / 1024 / 1024) * 100) / 100] over the
    rationals; [Math.round x] is the floor of [x + 1/2].  The source
    computes in IEEE doubles: the two divisions by 1024 are exact, the
    product with 100 and the last division are rounded.  The rational is
    the value of the source up to that rounding only; it is 0 exactly
    when the value of the source is 0, and nothing else is stated about
    it below. *)
Definition getCacheSizeInMB (st : State) : Q :=
  (inject_Z (Qfloor ((inject_Z (cacheSize st) / 1024 / 1024) * 100 + (1 # 2)))
   / 100)%Q.

(** *** The constructor

    [this.setupCacheDirectory(); this.loadSettings();] starts the two
    methods and awaits neither.  Each runs up to its first [await]; the
    segments that follow (the code between two awaits) run later, one at a
    time, in the order in which the platform settles the pending calls.
    As everywhere in this model a call takes effect when it is issued; its
    outcome reaches the method when the method is resumed.

    A [Task] is what is left of a method: nothing, or a segment to resume
    that ends at the next [await] or at the end of the method. *)
#[local] Unset Elimination Schemes.
Inductive Task :=
| Finished
| Suspended (resume : State -> Task * State).
#[local] Set Elimination Schemes.

(** The segments of [setupCacheDirectory], the last one first: after the
    directory has been made, and after it has been checked. *)
Definition setup_made (made : Res unit) : State -> Task * State :=
  fun st =>
    match made with
    | Ok _ => (Finished, st)
    | Throw => (Finished, log_error "Error setting up cache directory:" st)
    end.

Definition setup_checked (dirInfo : Res FileInfo) : State -> Task * State :=
  fun st =>
    match dirInfo with
    | Ok dirInfo =>
        if negb (fi_exists dirInfo)
        then let (made, st) := makeDirectoryAsync IMAGE_CACHE_DIR st in
             (Suspended (setup_made made), st)
        else (Finished, st)
    | Throw => (Finished, log_error "Error setting up cache directory:" st)
    end.

Definition setupCacheDirectory_task : State -> Task * State :=
  fun st =>
    let (dirInfo, st) := getInfoAsync IMAGE_CACHE_DIR false st in
    (Suspended (setup_checked dirInfo), st).

(** The segments of [loadSettings], the last one first: after the stat
    inside [calculateCacheSize], and after the flag has been read. *)
Definition load_sized (dirInfo : Res FileInfo) : State -> Task * State :=
  fun st =>
    match dirInfo with
    | Ok dirInfo =>
        (Finished,
         if fi_exists dirInfo && fi_isDirectory dirInfo
         then set_cacheSize (size_or_zero dirInfo) st
         else set_cacheSize 0 st)
    | Throw => (Finished, log_error "Error calculating cache size:" st)
    end.

Definition load_read (cacheEnabled : Res (option string))
  : State -> Task * State :=
  fun st =>
    match cacheEnabled with
    | Ok cacheEnabled =>
        let st := set_isEnabled
                    (negb (match cacheEnabled with
                           | Some v => String.eqb v "false"
                           | None => false
                           end)) st in
        let (dirInfo, st) := getInfoAsync IMAGE_CACHE_DIR true st in
        (Suspended (load_sized dirInfo), st)
    | Throw => (Finished, log_error "Error loading cache settings:" st)
    end.

Definition loadSettings_task : State -> Task * State :=
  fun st =>
    let (cacheEnabled, st) := getItem IMAGE_CACHE_ENABLED_KEY st in
    (Suspended (load_read cacheEnabled), st).

(** A method that runs to its end with nothing in between. *)
Fixpoint run_alone (t : Task) (st : State) : State :=
  match t with
  | Finished => st
  | Suspended resume => let (t', st') := resume st in run_alone t' st'
  end.

(** Two methods in flight.  The schedule says whose pending call settles
    next ([true]: the first method); a method that has finished leaves
    the other to run to its end, and so does the end of the schedule. *)
Fixpoint run_both (schedule : list bool) (a b : Task) (st : State) : State :=
  match schedule with
  | [] => run_alone b (run_alone a st)
  | true :: later =>
      match a with
      | Finished => run_alone b st
      | Suspended resume =>
          let (a', st') := resume st in run_both later a' b st'
      end
  | false :: later =>
      match b with
      | Finished => run_alone a st
      | Suspended resume =>
          let (b', st') := resume st in run_both later a b' st'
      end
  end.

(** The state once both methods started by the constructor have
    finished. *)
Definition initialize (schedule : list bool) (st : State) : State :=
  let (setup, st) := setupCacheDirectory_task st in
  let (load, st) := loadSettings_task st in
  run_both schedule setup load st.

End Service.

(** ** Vocabulary of the properties *)

(** No collaborator call rejects. *)
Definition no_faults (env : Env) : Prop := forall n, faults env n = false.

(** What a caller or a later call can observe of a state; the trace and
    the console are bookkeeping of the model. *)
Definition observable (st : State)
  : bool * Z * Disk * list (string * string) :=
  (isEnabled st, cacheSize st, disk st, storage st).

(** The blob store holds no entry (an absent directory holds none). *)
Definition store_empty (d : Disk) : Prop :=
  match d with
  | Some files => files = []
  | None => True
  end.

(** A computation that never rejects, whatever the state. *)
Definition never_throws {A} (m : M A) : Prop :=
  forall st, exists a st', m st = (Ok a, st').

(** The calls a computation added to the trace. *)
Definition new_calls (before after : State) : list (Call * bool) :=
  skipn (List.length (trace before)) (trace after).

Definition is_download (c : Call * bool) : bool :=
  match c with
  | (Download _ _, _) => true
  | _ => false
  end.

Definition is_delete (c : Call * bool) : bool :=
  match c with
  | (Delete _ _, _) => true
  | _ => false
  end.

(** Names of a directory listing are distinct and not empty. *)
Definition well_formed (files : list (string * Z)) : Prop :=
  NoDup (map fst files) /\ ~ In EmptyString (map fst files).

(** [fail_stop m]: [m] only adds calls to the trace, never touches
    [cacheSize] or the console, and a rejected call is the last thing it
    does: the rejection is its outcome. *)
Definition fail_stop {A} (m : M A) : Prop :=
  forall st, exists ext,
    trace (snd (m st)) = trace st ++ ext
    /\ cacheSize (snd (m st)) = cacheSize st
    /\ console (snd (m st)) = console st
    /\ forall k c, nth_error ext k = Some (c, false) ->
                   S k = List.length ext /\ fst (m st) = Throw.

(** [aborts_on_failed_delete m]: [m] only adds calls to the trace, and a
    rejected delete is the last call it issues; [m] then rejects and has
    changed neither [cacheSize] nor the console. *)
Definition aborts_on_failed_delete {A} (m : M A) : Prop :=
  forall st, exists ext,
    trace (snd (m st)) = trace st ++ ext
    /\ forall k p i, nth_error ext k = Some (Delete p i, false) ->
                     S k = List.length ext
                     /\ fst (m st) = Throw
                     /\ cacheSize (snd (m st)) = cacheSize st
                     /\ console (snd (m st)) = console st.

(** [keeps_counter_on_failure m]: [m] only adds calls to the trace, and
    when one of them rejected [m] has left [cacheSize] as it was. *)
Definition keeps_counter_on_failure {A} (m : M A) : Prop :=
  forall st, exists ext,
    trace (snd (m st)) = trace st ++ ext
    /\ forall k c, nth_error ext k = Some (c, false) ->
                   cacheSize (snd (m st)) = cacheSize st.

(** Uri and size of an entry are what the loops of [trimCache] read. *)
Definition seen (i : CacheFileInfo) : string * Z := (uri i, size i).

(** The same two values for a blob [f] of a cache directory under [dir]. *)
Definition as_seen (dir : string) (f : string * Z) : string * Z :=
  ((IMAGE_CACHE_DIR dir ++ fst f)%string, snd f).

(** The successful stat and the successful delete of a blob. *)
Definition stat_call (dir : string) (f : string * Z) : Call * bool :=
  (GetInfo (IMAGE_CACHE_DIR dir ++ fst f)%string true, true).
Definition delete_call (dir : string) (f : string * Z) : Call * bool :=
  (Delete (IMAGE_CACHE_DIR dir ++ fst f)%string false, true).

(** The entries the first loop of [trimCache] pushes for the listing
    [files] when every stat succeeds: one per blob, in the order of the
    listing, with its uri, its size and the simulated time made of the
    next value of [Date.now()] and [Math.random()]. *)
Fixpoint file_entries (dir : string) (env : Env) (draw : nat)
    (files : list (string * Z)) : list CacheFileInfo :=
  match files with
  | [] => []
  | f :: rest =>
      mkCacheFileInfo (IMAGE_CACHE_DIR dir ++ fst f)%string (snd f)
        (inject_Z (clock env draw) - random env draw * 86400000)%Q
      :: file_entries dir env (S draw) rest
  end.

(** [a] is not later than [b] by the simulated times. *)
Definition not_later (a b : CacheFileInfo) : Prop :=
  (modificationTime a <= modificationTime b)%Q.

(** [currentSize <= targetSize], the test that ends the deletion loop. *)
Definition at_or_below_target (maxSize current : Z) : Prop :=
  (inject_Z current <= targetSize maxSize)%Q.

(** ** Scenarios

    Concrete platforms, environments and states on which the methods are
    evaluated further down. *)

Definition platformCache : string := "file:///cache/".

Definition MiB : Z := 1024 * 1024.

(** Every call succeeds; downloads bring [bytes] bytes; the k-th blob
    stat-ed by a trim draws [randoms k]. *)
Definition calm (randoms : nat -> Q) (bytes : Z) : Env :=
  mkEnv (fun _ => false) randoms (fun _ => 1700000000000) (fun _ => bytes).

(** As [calm], but the call number [n] (counted from 0 over the whole
    trace) rejects. *)
Definition failing_at (n : nat) (randoms : nat -> Q) (bytes : Z) : Env :=
  mkEnv (fun k => Nat.eqb k n) randoms (fun _ => 1700000000000)
        (fun _ => bytes).

Definition no_randoms : nat -> Q := fun _ => 0%Q.

(** Values of [Math.random()], all in [0, 1): the first blob stat-ed by a
    trim gets the smallest value and so the latest simulated time. *)
Definition first_listed_looks_newest : nat -> Q :=
  fun k => (1 - (1 # Pos.of_succ_nat (S k)))%Q.

(** The first blob stat-ed gets the largest value and so the earliest
    simulated time. *)
Definition first_listed_looks_oldest : nat -> Q :=
  fun k => (1 # Pos.of_succ_nat (S k))%Q.

Definition poster_url : string := "https://image.tmdb.org/t/p/w500/poster.jpg".

Definition url_a : string := "https://image.tmdb.org/t/p/w500/a.jpg".
Definition url_b : string := "https://image.tmdb.org/t/p/w500/b.jpg".
Definition url_c : string := "https://image.tmdb.org/t/p/w500/c.jpg".

(** Three bodies of 60, 60 and 50 MiB; of all calls only the sixth rejects,
    which is the stat that follows the download of [url_b] when the three
    urls are resolved in turn on an empty cache. *)
Definition one_failed_stat : Env :=
  mkEnv (fun k => Nat.eqb k 5) first_listed_looks_oldest
        (fun _ => 1700000000000)
        (fun url => if String.eqb url url_c then 50 * MiB else 60 * MiB).

(** A service whose cache directory was never created. *)
Definition st_no_directory : State :=
  mkState true 0 None [] [] [] 0.

(** An enabled service with an empty cache directory. *)
Definition st_empty : State :=
  mkState true 0 (Some []) [] [] [] 0.

(** A disabled service that still has one blob. *)
Definition st_disabled : State :=
  mkState false (5 * MiB) (Some [("poster.jpg", 5 * MiB)])
          [(IMAGE_CACHE_ENABLED_KEY, "false")] [] [] 0.

(** The scenario of the specification: ceiling 1000, three blobs of 400
    bytes listed as A, B, C, and a counter of 1200. *)
Definition st_scenario : State :=
  mkState true 1200 (Some [("A", 400); ("B", 400); ("C", 400)]) [] [] [] 0.

(** Three blobs of 40 MiB under the shipped ceiling of 100 MiB. *)
Definition st_three : State :=
  mkState true (120 * MiB)
          (Some [("a.jpg", 40 * MiB); ("b.jpg", 40 * MiB); ("c.jpg", 40 * MiB)])
          [] [] [] 0.

(** The counter is exactly at the shipped ceiling, with one blob. *)
Definition st_full : State :=
  mkState true MAX_CACHE_SIZE (Some [("old.jpg", MAX_CACHE_SIZE)]) [] [] [] 0.

(** Three blobs (60, 60 and 50 MiB) of which the counter knows only 60 MiB:
    the state after a download whose stat rejected, just before the 50 MiB
    of c.jpg are recorded. *)
Definition st_undercounted : State :=
  mkState true (60 * MiB)
          (Some [("a.jpg", 60 * MiB); ("b.jpg", 60 * MiB); ("c.jpg", 50 * MiB)])
          [] [] [] 0.

(** Three blobs (60, 30 and 20 MiB); the counter (90 MiB) has not yet
    recorded the last 20 MiB. *)
Definition st_before_record : State :=
  mkState true (90 * MiB)
          (Some [("a.jpg", 60 * MiB); ("b.jpg", 30 * MiB); ("c.jpg", 20 * MiB)])
          [] [] [] 0.

(** ** More of the code: keys and image urls *)

(** Every character of [s] satisfies [p]. *)
Fixpoint string_forall (p : ascii -> bool) (s : string) : bool :=
  match s with
  | EmptyString => true
  | String c rest => p c && string_forall p rest
  end.

(** What [getFilenameFromUrl] can produce: a character of the class
    [a-zA-Z0-9.] or the placeholder. *)
Definition is_key_char (c : ascii) : bool :=
  is_safe_char c || Ascii.eqb c "_"%char.

Definition is_not_slash (c : ascii) : bool := negb (Ascii.eqb c "/"%char).

(** [TMDB_CONFIG.IMAGE_BASE_URL] of constants/Config.ts. *)
Definition IMAGE_BASE_URL : string := "https://image.tmdb.org/t/p".

(** [TMDBService.getImageUrl]: the template
    [`${TMDB_CONFIG.IMAGE_BASE_URL}/${size}${path}`]. *)
Definition getImageUrl (path size : string) : string :=
  (IMAGE_BASE_URL ++ "/" ++ size ++ path)%string.

(** ** The bounded-storage invariant

    [consistent maxSize st]: the directory exists, its listing is well
    formed, the counter equals the total size of the blobs on disk, and
    that total is at most the ceiling. *)
Definition consistent (maxSize : Z) (st : State) : Prop :=
  exists files,
    disk st = Some files
    /\ well_formed files
    /\ cacheSize st = total files
    /\ cacheSize st <= maxSize.

(** The public methods that change the service, as a caller may issue
    them one after the other. *)
Inductive Operation :=
| CallGetCachedImageUri (url : string)
| CallSetEnabled (enabled : bool)
| CallClearCache
| CallCalculateCacheSize.

Definition run_operation (dir : string) (maxSize : Z) (env : Env)
    (st : State) (op : Operation) : State :=
  match op with
  | CallGetCachedImageUri url => snd (getCachedImageUri dir maxSize env url st)
  | CallSetEnabled enabled => snd (setEnabled dir env enabled st)
  | CallClearCache => snd (clearCache dir env st)
  | CallCalculateCacheSize => snd (calculateCacheSize dir env st)
  end.

Definition run_operations (dir : string) (maxSize : Z) (env : Env)
    (ops : list Operation) (st : State) : State :=
  fold_left (run_operation dir maxSize env) ops st.

(** ** The image component (components/CachedImage.tsx)

    [loadImage] is the effect of the component; it consults the service
    for the flag only and works on the same cache directory by itself. *)

(** [s.lastIndexOf('/')], scanning from index [i] with [found] the last
    index seen so far; -1 when there is none. *)
Fixpoint lastIndexOf_slash_from (s : string) (i found : Z) : Z :=
  match s with
  | EmptyString => found
  | String c rest =>
      lastIndexOf_slash_from rest (i + 1)
                             (if Ascii.eqb c "/"%char then i else found)
  end.

Definition lastIndexOf_slash (s : string) : Z :=
  lastIndexOf_slash_from s 0 (-1).

(** [s.substring(start)], for [start] not negative. *)
Definition substring_from (start : Z) (s : string) : string :=
  String.substring (Z.to_nat start) (String.length s - Z.to_nat start) s.

(** [uri.substring(uri.lastIndexOf('/') + 1)] *)
Definition filename_of_uri (uri : string) : string :=
  substring_from (lastIndexOf_slash uri + 1) uri.

(** The three pieces of React state of the component. *)
Record ImageView := mkImageView {
  cachedUri : option string;
  isLoading : bool;
  hasError : bool
}.

Definition setCachedUri (u : string) (v : ImageView) : ImageView :=
  mkImageView (Some u) (isLoading v) (hasError v).
Definition setIsLoading (b : bool) (v : ImageView) : ImageView :=
  mkImageView (cachedUri v) b (hasError v).
Definition setHasError (b : bool) (v : ImageView) : ImageView :=
  mkImageView (cachedUri v) (isLoading v) b.

(** What [FileSystem.downloadAsync] resolves to, as far as the component
    reads it. *)
Record DownloadResult := mkDownloadResult {
  dr_status : Z;
  dr_uri : string
}.

Section Component.
Variable cacheDirectory : string.
Variable env : Env.
(** The HTTP status the server answers for a url.  The body is written to
    the file whatever the status. *)
Variable httpStatus : string -> Z.

Definition downloadAsyncResult (url path : string) : M DownloadResult :=
  written <- downloadAsync cacheDirectory env url path ;;
  ret (mkDownloadResult (httpStatus url) written).

(** [loadImage], run on the view [v] for the prop [uri].  The state
    setters of the [try] block come before its first [await] or after its
    last one, so the view the [catch] block starts from is the one with
    the two resets applied. *)
Definition loadImage (uri : string) (v : ImageView) : M ImageView :=
  let reset := setHasError false (setIsLoading true v) in
  v' <- try_catch
          (if String.eqb uri EmptyString
           then ret (setIsLoading false (setHasError true reset))
           else
             st <- get_state ;;
             if negb (isImageCacheEnabled st)
             then ret (setIsLoading false (setCachedUri uri reset))
             else
               let filename := filename_of_uri uri in
               let cacheDir := IMAGE_CACHE_DIR cacheDirectory in
               let cacheFilePath := (cacheDir ++ filename)%string in
               dirInfo <- getInfoAsync cacheDirectory env cacheDir false ;;
               (if negb (fi_exists dirInfo)
                then makeDirectoryAsync cacheDirectory env cacheDir
                else ret tt) ;;
               fileInfo <- getInfoAsync cacheDirectory env cacheFilePath false ;;
               if fi_exists fileInfo
               then ret (setCachedUri (fi_uri fileInfo) reset)
               else
                 downloadResult <- downloadAsyncResult uri cacheFilePath ;;
                 if dr_status downloadResult =? 200
                 then ret (setCachedUri (dr_uri downloadResult) reset)
                 else ret (setCachedUri uri reset))
          (console_error "Error caching image:" ;;
           ret (setHasError true (setCachedUri uri reset))) ;;
  ret (setIsLoading false v').

End Component.

(** [keeps_service m]: [m] leaves the fields of the service object, the
    settings and the console alone; it may only use the file system. *)
Definition keeps_service {A} (m : M A) : Prop :=
  forall st,
    isEnabled (snd (m st)) = isEnabled st
    /\ cacheSize (snd (m st)) = cacheSize st
    /\ storage (snd (m st)) = storage st.

(** The state after the first two steps of [loadImage] when they succeed:
    the directory has been checked, and created if it was absent. *)
Definition with_directory (dir : string) (st : State) : State :=
  let checked := log_call (GetInfo (IMAGE_CACHE_DIR dir) false) true st in
  match disk st with
  | Some _ => checked
  | None =>
      set_disk (Some []) (log_call (MakeDirectory (IMAGE_CACHE_DIR dir)) true checked)
  end.

(** The view a run of the component produced ([v] if it rejected, which
    [loadImage] never does). *)
Definition fst_view (run : Res ImageView * State) (v : ImageView) : ImageView :=
  match fst run with
  | Ok v' => v'
  | Throw => v
  end.

(** ** The show card (components/ShowCard.tsx) *)

(** The [size] prop of the card. *)
Inductive CardSize :=
| small
| medium
| large.

(** [getPosterSize]: [TMDB_CONFIG.POSTER_SIZES] by card size. *)
Definition getPosterSize (size : CardSize) : string :=
  match size with
  | small => "w185"
  | large => "w500"
  | medium => "w342"
  end.

(** [getPosterUrl] of the card: empty for an empty path. *)
Definition getPosterUrl (size : CardSize) (path : string) : string :=
  if String.eqb path EmptyString then EmptyString
  else (IMAGE_BASE_URL ++ "/" ++ getPosterSize size ++ path)%string.

(** ** The countdown label (components/EpisodeCountdown.tsx) *)

(** A JavaScript number that holds an integer, or [NaN] ([None]); the
    time value of an invalid date is [NaN].  The integers met here are
    below 2^53, where the double arithmetic of the source is exact. *)
Definition JsNumber := option Z.

Definition js_sub (a b : JsNumber) : JsNumber :=
  match a, b with
  | Some x, Some y => Some (x - y)
  | _, _ => None
  end.

(** [a <= k] and [a > k]: false whenever [a] is [NaN]. *)
Definition js_le (a : JsNumber) (k : Z) : bool :=
  match a with
  | Some x => x <=? k
  | None => false
  end.

Definition js_gt (a : JsNumber) (k : Z) : bool :=
  match a with
  | Some x => k <? x
  | None => false
  end.

(** [Math.floor(a / k)] and [a % k]. *)
Definition js_floor_div (a : JsNumber) (k : Z) : JsNumber :=
  option_map (fun x => x / k) a.

Definition js_rem (a : JsNumber) (k : Z) : JsNumber :=
  option_map (fun x => Z.rem x k) a.

(** [`${a}`] *)
Definition js_toString (a : JsNumber) : string :=
  match a with
  | Some x => NilZero.string_of_int (Z.to_int x)
  | None => "NaN"
  end.

(** [calculateTimeLeft], as the label it hands to [setTimeLeft]; [now] is
    [new Date().getTime()] and [airDateTime] is
    [new Date(airDate).getTime()]. *)
Definition calculateTimeLeft (now : Z) (airDateTime : JsNumber) : string :=
  let difference := js_sub airDateTime (Some now) in
  if js_le difference 0 then "Aired"
  else
    let days := js_floor_div difference (1000 * 60 * 60 * 24) in
    let hours :=
      js_floor_div (js_rem difference (1000 * 60 * 60 * 24)) (1000 * 60 * 60) in
    let minutes :=
      js_floor_div (js_rem difference (1000 * 60 * 60)) (1000 * 60) in
    if js_gt days 0
    then (js_toString days ++ "d " ++ js_toString hours ++ "h")%string
    else if js_gt hours 0
         then (js_toString hours ++ "h " ++ js_toString minutes ++ "m")%string
         else (js_toString minutes ++ "m")%string.

(** ** The watchlist (app/services/WatchlistService.ts)

    The service keeps the list of shows as JSON text under one key of
    AsyncStorage.  [JSON.stringify] and [JSON.parse] are variables of the
    model; a parse has three outcomes.  [clearWatchlist] is left out: it
    calls [AsyncStorage.removeItem], which the trace has no call for. *)

Definition WATCHLIST_STORAGE_KEY : string := "@EpisodeAlerts:watchlist".

(** [throw] *)
Definition throw {A} : M A := fun st => (Throw, st).

(** What [JSON.parse] does with a text: an array of shows, some other
    value (null, a number, an object), or a [SyntaxError]. *)
Inductive Parsed (T : Type) :=
| ParsedArray (shows : list T)
| ParsedOther
| SyntaxError.
Arguments ParsedArray {T} shows.
Arguments ParsedOther {T}.
Arguments SyntaxError {T}.

(** What [getWatchlist] resolves to: typed as an array by the source, it
    is whatever was parsed. *)
Inductive Watchlist (T : Type) :=
| AnArray (shows : list T)
| NotAnArray.
Arguments AnArray {T} shows.
Arguments NotAnArray {T}.

Section WatchlistService.
Variable env : Env.
Variable TVShow : Type.
Variable show_id : TVShow -> Z.
Variable stringify : list TVShow -> string.
Variable parse : string -> Parsed TVShow.

(** [watchlistJson ? JSON.parse(watchlistJson) : []] inside the [try]. *)
Definition getWatchlist : M (Watchlist TVShow) :=
  try_catch
    (watchlistJson <- getItem env WATCHLIST_STORAGE_KEY ;;
     match watchlistJson with
     | None => ret (AnArray [])
     | Some json =>
         if String.eqb json EmptyString then ret (AnArray [])
         else match parse json with
              | ParsedArray shows => ret (AnArray shows)
              | ParsedOther => ret NotAnArray
              | SyntaxError => throw
              end
     end)
    (console_error "Error getting watchlist:" ;; ret (AnArray [])).

(** [list.some(item => item.id === showId)] *)
Definition has_id (showId : Z) (shows : list TVShow) : bool :=
  existsb (fun item => show_id item =? showId) shows.

(** Calling [some] or [filter] on a value that is not an array is a
    [TypeError]. *)
Definition addToWatchlist (show : TVShow) : M bool :=
  try_catch
    (currentWatchlist <- getWatchlist ;;
     match currentWatchlist with
     | NotAnArray => throw
     | AnArray current =>
         if has_id (show_id show) current then ret false
         else
           let updatedWatchlist := current ++ [show] in
           setItem env WATCHLIST_STORAGE_KEY (stringify updatedWatchlist) ;;
           ret true
     end)
    (console_error "Error adding to watchlist:" ;; ret false).

Definition removeFromWatchlist (showId : Z) : M bool :=
  try_catch
    (currentWatchlist <- getWatchlist ;;
     match currentWatchlist with
     | NotAnArray => throw
     | AnArray current =>
         let updatedWatchlist :=
           filter (fun show => negb (show_id show =? showId)) current in
         setItem env WATCHLIST_STORAGE_KEY (stringify updatedWatchlist) ;;
         ret true
     end)
    (console_error "Error removing from watchlist:" ;; ret false).

Definition isInWatchlist (showId : Z) : M bool :=
  try_catch
    (watchlist <- getWatchlist ;;
     match watchlist with
     | NotAnArray => throw
     | AnArray shows => ret (has_id showId shows)
     end)
    (console_error "Error checking watchlist:" ;; ret false).

(** The store holds the list [shows]: its JSON text under the key, or
    nothing at all for the empty list. *)
Definition holds (st : State) (shows : list TVShow) : Prop :=
  match lookup WATCHLIST_STORAGE_KEY (storage st) with
  | Some json => json = stringify shows
  | None => shows = []
  end.

(** The two ways the read of [getWatchlist] goes wrong: the storage
    rejects, or the stored text does not parse. *)
Definition read_goes_wrong (st : State) : Prop :=
  faults env (List.length (trace st)) = true
  \/ (faults env (List.length (trace st)) = false
      /\ exists json,
           lookup WATCHLIST_STORAGE_KEY (storage st) = Some json
           /\ json <> EmptyString
           /\ parse json = SyntaxError).

End WatchlistService.

(** A codec to run the watchlist on: shows are booleans (ids 1 and 2) and
    the text is a bracket followed by one letter per show; a text that
    starts with n stands for [null], any other text does not parse. *)
Definition toy_id (show : bool) : Z := if show then 1 else 2.

Fixpoint toy_letters (shows : list bool) : string :=
  match shows with
  | [] => EmptyString
  | show :: rest =>
      String (if show then "t"%char else "f"%char) (toy_letters rest)
  end.

Definition toy_stringify (shows : list bool) : string :=
  String "["%char (toy_letters shows).

Fixpoint toy_shows (letters : string) : list bool :=
  match letters with
  | EmptyString => []
  | String c rest => Ascii.eqb c "t"%char :: toy_shows rest
  end.

Definition toy_parse (json : string) : Parsed bool :=
  match json with
  | String c letters =>
      if Ascii.eqb c "["%char then ParsedArray (toy_shows letters)
      else if Ascii.eqb c "n"%char then ParsedOther
      else SyntaxError
  | EmptyString => SyntaxError
  end.

(** ** More scenarios *)

(** A url that ends in a slash, and one whose file name has a character
    the service replaces. *)
Definition slash_url_prefix : string := "https://image.tmdb.org/t/p/w500".
Definition dashed_url : string := "https://image.tmdb.org/t/p/w500/poster-1.jpg".

(** Servers that answer every download with one status. *)
Definition always_200 : string -> Z := fun _ => 200.
Definition always_404 : string -> Z := fun _ => 404.

(** The view of a component that has just been mounted. *)
Definition fresh_view : ImageView := mkImageView None true false.

(** A session of the settings screen and two images. *)
Definition session : list Operation :=
  [CallGetCachedImageUri url_a; CallGetCachedImageUri url_b;
   CallCalculateCacheSize; CallSetEnabled false; CallGetCachedImageUri url_a;
   CallSetEnabled true; CallGetCachedImageUri url_c; CallClearCache].

(** A counter of 5000 bytes. *)
Definition st_small_counter : State :=
  mkState true 5000 (Some [("poster.jpg", 5000)]) [] [] [] 0.

(** Stores of the watchlist under the toy codec: one show, and the text
    of [null]. *)
Definition st_watchlist : State :=
  mkState true 0 None [(WATCHLIST_STORAGE_KEY, toy_stringify [true])] [] [] 0.

Definition st_watchlist_null : State :=
  mkState true 0 None [(WATCHLIST_STORAGE_KEY, "null")] [] [] 0.

(** ** Basic facts about strings and association lists *)

Unset Implicit Arguments.

Lemma strip_prefix_app (p s : string) :
  strip_prefix p (p ++ s)%string = Some s.
Proof.
  induction p as [|a p IH]; simpl; [reflexivity|].
  now rewrite Ascii.eqb_refl.
Qed.

Lemma strip_prefix_self (p : string) : strip_prefix p p = Some EmptyString.
Proof.
  induction p as [|a p IH]; simpl; [reflexivity|].
  now rewrite Ascii.eqb_refl.
Qed.

Lemma upsert_upsert V (k : string) (v : V) l :
  upsert k v (upsert k v l) = upsert k v l.
Proof.
  induction l as [|[k' v'] l IH]; simpl.
  - now rewrite String.eqb_refl.
  - destruct (String.eqb k k') eqn:E; simpl; rewrite ?String.eqb_refl, ?E;
      [reflexivity | now rewrite IH].
Qed.

Lemma lookup_upsert V (k : string) (v : V) l :
  lookup k (upsert k v l) = Some v.
Proof.
  induction l as [|[k' v'] l IH]; simpl.
  - now rewrite String.eqb_refl.
  - destruct (String.eqb k k') eqn:E; simpl; rewrite ?String.eqb_refl, ?E;
      [reflexivity | exact IH].
Qed.

Lemma at_or_below_target_iff (maxSize current : Z) :
  at_or_below_target maxSize current <-> 10 * current <= 7 * maxSize.
Proof.
  unfold at_or_below_target, targetSize, Qle, inject_Z, Qmult.
  cbn [Qnum Qden Pos.mul]. lia.
Qed.

Lemma Qle_bool_target (current maxSize : Z) :
  Qle_bool (inject_Z current) (targetSize maxSize)
  = (10 * current <=? 7 * maxSize).
Proof.
  unfold targetSize, Qle_bool, inject_Z, Qmult.
  cbn [Qnum Qden Pos.mul].
  apply eq_true_iff_eq. rewrite !Z.leb_le. lia.
Qed.

(** ** Running the collaborators *)

Section Runs.
Variable cacheDirectory : string.
Variable maxCacheSize : Z.
Variable env : Env.

Local Abbreviation DIR := (IMAGE_CACHE_DIR cacheDirectory).

Lemma locate_dir : locate cacheDirectory DIR = TDir.
Proof. unfold locate. now rewrite strip_prefix_self. Qed.

Lemma stat_dir (d : Disk) :
  stat cacheDirectory d DIR =
  match d with
  | Some files => mkFileInfo true DIR (Some (total files)) true
  | None => absent DIR
  end.
Proof. unfold stat. rewrite locate_dir. now destruct d. Qed.

Lemma fs_call_fault A (c : Call) (sem : Disk -> option (A * Disk)) st :
  faults env (List.length (trace st)) = true ->
  fs_call env c sem st = (Throw, log_call c false st).
Proof. intros H. unfold fs_call. now rewrite H. Qed.

Lemma fs_call_ok A (c : Call) (sem : Disk -> option (A * Disk)) st a d :
  faults env (List.length (trace st)) = false ->
  sem (disk st) = Some (a, d) ->
  fs_call env c sem st = (Ok a, set_disk d (log_call c true st)).
Proof. intros H E. unfold fs_call. now rewrite H, E. Qed.

(** A handler that cannot reject makes the whole [try] safe. *)
Lemma try_catch_never_throws A (body handler : M A) :
  never_throws handler -> never_throws (try_catch body handler).
Proof.
  intros H st. unfold try_catch.
  destruct (body st) as [[a|] st']; [now exists a, st' | apply H].
Qed.

Lemma console_error_never_throws msg : never_throws (console_error msg).
Proof. intros st. now exists tt, (log_error msg st). Qed.

Lemma console_then_ret_never_throws A msg (a : A) :
  never_throws (console_error msg ;; ret a).
Proof. intros st. now exists a, (log_error msg st). Qed.

Lemma calculateCacheSize_never_throws :
  never_throws (calculateCacheSize cacheDirectory env).
Proof. apply try_catch_never_throws, console_then_ret_never_throws. Qed.

Lemma clearCache_never_throws : never_throws (clearCache cacheDirectory env).
Proof. apply try_catch_never_throws, console_error_never_throws. Qed.

Lemma trimCache_never_throws :
  never_throws (trimCache cacheDirectory maxCacheSize env).
Proof. apply try_catch_never_throws, console_error_never_throws. Qed.

Lemma updateCacheSize_never_throws n :
  never_throws (updateCacheSize cacheDirectory maxCacheSize env n).
Proof. apply try_catch_never_throws, console_error_never_throws. Qed.

Lemma loadSettings_never_throws :
  never_throws (loadSettings cacheDirectory env).
Proof. apply try_catch_never_throws, console_error_never_throws. Qed.

Lemma setupCacheDirectory_never_throws :
  never_throws (setupCacheDirectory cacheDirectory env).
Proof. apply try_catch_never_throws, console_error_never_throws. Qed.

Lemma getCachedImageUri_never_throws url :
  never_throws (getCachedImageUri cacheDirectory maxCacheSize env url).
Proof.
  intros st. unfold getCachedImageUri, bind at 1, get_state.
  destruct (negb (isEnabled st) || String.eqb url EmptyString).
  - now exists url, st.
  - apply try_catch_never_throws, console_then_ret_never_throws.
Qed.

End Runs.

(** ** Pass-through, size recomputation, clearing and the enabled flag *)

Section Claims.
Variable cacheDirectory : string.
Variable maxCacheSize : Z.
Variable env : Env.

Local Abbreviation DIR := (IMAGE_CACHE_DIR cacheDirectory).

(** C4. When caching is disabled or the url is empty,
    [getCachedImageUri url] returns [url] and the whole state (the
    counter, the store, and the trace of collaborator calls, hence no
    existence check, download or write) is exactly what it was. *)
Theorem resolve_pass_through (url : string) (st : State) :
  isEnabled st = false \/ url = EmptyString ->
  getCachedImageUri cacheDirectory maxCacheSize env url st = (Ok url, st).
Proof.
  intros H. unfold getCachedImageUri, bind, get_state.
  destruct H as [H | H].
  - now rewrite H.
  - subst url. now rewrite orb_true_r.
Qed.

(** C10. When the stat of the cache directory rejects,
    [calculateCacheSize] returns 0, yet [cacheSize] keeps its previous
    value, so [getCacheSizeInMB] afterwards still reports that value. *)
Theorem calculateCacheSize_stat_failure (st : State) :
  faults env (List.length (trace st)) = true ->
  exists st',
    calculateCacheSize cacheDirectory env st = (Ok 0, st')
    /\ cacheSize st' = cacheSize st
    /\ getCacheSizeInMB st' = getCacheSizeInMB st
    /\ observable st' = observable st
    /\ console st' = console st ++ ["Error calculating cache size:"].
Proof.
  intros H.
  unfold calculateCacheSize, try_catch, bind at 1, getInfoAsync.
  rewrite fs_call_fault by exact H.
  eexists. split; [reflexivity|]. now repeat split.
Qed.

(** What [clearCache] does when no call rejects. *)
Lemma clearCache_run (st : State) :
  no_faults env ->
  exists st',
    clearCache cacheDirectory env st = (Ok tt, st')
    /\ cacheSize st' = 0
    /\ disk st' = match disk st with Some _ => Some [] | None => None end
    /\ isEnabled st' = isEnabled st
    /\ storage st' = storage st.
Proof.
  intros NF.
  unfold clearCache, try_catch, bind at 1, getInfoAsync.
  erewrite fs_call_ok; [| apply NF | reflexivity].
  rewrite stat_dir. destruct (disk st) as [files|] eqn:D; cbn [fi_exists absent].
  - unfold bind, deleteAsync, makeDirectoryAsync.
    erewrite fs_call_ok;
      [| apply NF | cbn [disk set_disk log_call]; rewrite locate_dir, ?D; reflexivity].
    erewrite fs_call_ok;
      [| apply NF | cbn [disk set_disk log_call]; now rewrite locate_dir].
    eexists. split; [reflexivity|]. now repeat split.
  - unfold bind, ret, modify. eexists. split; [reflexivity|].
    now repeat split.
Qed.

(** C3 (amended). When no call rejects, [clearCache] sets [cacheSize] to
    0, so [getCacheSizeInMB] is 0; a directory that exists is left existing
    and empty, while an absent directory is left absent (the method
    recreates only what it has deleted); a second [clearCache] changes
    nothing observable. *)
Theorem clearCache_resets (st : State) :
  no_faults env ->
  let st1 := snd (clearCache cacheDirectory env st) in
  let st2 := snd (clearCache cacheDirectory env st1) in
  fst (clearCache cacheDirectory env st) = Ok tt
  /\ cacheSize st1 = 0
  /\ (getCacheSizeInMB st1 == 0)%Q
  /\ (disk st <> None -> disk st1 = Some [])
  /\ (disk st = None -> disk st1 = None)
  /\ store_empty (disk st1)
  /\ observable st2 = observable st1.
Proof.
  intros NF.
  destruct (clearCache_run st NF) as (st1 & E1 & C1 & D1 & I1 & S1).
  destruct (clearCache_run st1 NF) as (st2 & E2 & C2 & D2 & I2 & S2).
  rewrite E1; cbn [fst snd]. rewrite E2; cbn [fst snd].
  repeat split.
  - exact C1.
  - unfold getCacheSizeInMB. rewrite C1. reflexivity.
  - intros H. rewrite D1. now destruct (disk st).
  - intros H. now rewrite D1, H.
  - rewrite D1. now destruct (disk st).
  - unfold observable. rewrite C2, C1, I2, S2, D2, D1.
    now destruct (disk st).
Qed.

(** What [setEnabled] does when no call rejects. *)
Lemma setEnabled_run (enabled : bool) (st : State) :
  no_faults env ->
  exists st',
    setEnabled cacheDirectory env enabled st = (Ok tt, st')
    /\ isEnabled st' = enabled
    /\ storage st' =
       upsert IMAGE_CACHE_ENABLED_KEY (bool_toString enabled) (storage st)
    /\ cacheSize st' = (if enabled then cacheSize st else 0)
    /\ disk st' = (if enabled then disk st
                   else match disk st with
                        | Some _ => Some []
                        | None => None
                        end).
Proof.
  intros NF. unfold setEnabled, bind at 1, modify.
  unfold bind at 1, setItem, kv_call.
  rewrite NF. cbv iota beta.
  destruct enabled; cbn [negb].
  - eexists. split; [reflexivity|]. now repeat split.
  - match goal with |- context [clearCache _ _ ?s] =>
      destruct (clearCache_run s NF) as (st' & E & C & D & I & S)
    end.
    exists st'. rewrite E. now repeat split.
Qed.

(** C9 (amended). When no call rejects, [setEnabled false] stores "false"
    under the settings key and clears the cache: the store holds no entry
    and [cacheSize] is 0.  For either value, [isImageCacheEnabled]
    afterwards returns the value passed, and a second call with the same
    value changes nothing observable. *)
Theorem setEnabled_false_clears (st : State) :
  no_faults env ->
  let off := snd (setEnabled cacheDirectory env false st) in
  fst (setEnabled cacheDirectory env false st) = Ok tt
  /\ lookup IMAGE_CACHE_ENABLED_KEY (storage off) = Some "false"
  /\ store_empty (disk off)
  /\ cacheSize off = 0
  /\ forall enabled,
       let st1 := snd (setEnabled cacheDirectory env enabled st) in
       let st2 := snd (setEnabled cacheDirectory env enabled st1) in
       fst (setEnabled cacheDirectory env enabled st) = Ok tt
       /\ fst (setEnabled cacheDirectory env enabled st1) = Ok tt
       /\ isImageCacheEnabled st1 = enabled
       /\ isImageCacheEnabled st2 = enabled
       /\ observable st2 = observable st1.
Proof.
  intros NF.
  destruct (setEnabled_run false st NF) as (off & E & I & S & C & D).
  rewrite E; cbn [fst snd]. repeat split.
  - rewrite S. apply lookup_upsert.
  - rewrite D. now destruct (disk st).
  - exact C.
  - destruct (setEnabled_run enabled st NF) as (st1 & E1 & _). now rewrite E1.
  - destruct (setEnabled_run enabled st NF) as (st1 & E1 & _).
    rewrite E1; cbn [snd].
    destruct (setEnabled_run enabled st1 NF) as (st2 & E2 & _). now rewrite E2.
  - destruct (setEnabled_run enabled st NF) as (st1 & E1 & I1 & _).
    now rewrite E1.
  - destruct (setEnabled_run enabled st NF) as (st1 & E1 & I1 & _).
    rewrite E1; cbn [snd].
    destruct (setEnabled_run enabled st1 NF) as (st2 & E2 & I2 & _).
    now rewrite E2.
  - destruct (setEnabled_run enabled st NF) as (st1 & E1 & I1 & S1 & C1 & D1).
    rewrite E1; cbn [snd].
    destruct (setEnabled_run enabled st1 NF) as (st2 & E2 & I2 & S2 & C2 & D2).
    rewrite E2; cbn [snd]. unfold observable.
    rewrite I2, I1, S2, S1, upsert_upsert, C2, C1, D2, D1.
    destruct enabled; [reflexivity | now destruct (disk st)].
Qed.

(** C8 (amended). [getCachedImageUri], [clearCache] and
    [calculateCacheSize] (and the private [loadSettings] and
    [setupCacheDirectory]) never reject, whichever collaborator calls
    fail; [isImageCacheEnabled] and [getCacheSizeInMB] call no
    collaborator.  [setEnabled] rejects exactly when its settings write
    rejects, and then has already changed [isEnabled] and has not cleared
    the cache. *)
Theorem failures_recovered_except_settings_write (st : State) :
  (forall url,
      exists ref st',
        getCachedImageUri cacheDirectory maxCacheSize env url st = (Ok ref, st'))
  /\ (exists st', clearCache cacheDirectory env st = (Ok tt, st'))
  /\ (exists bytes st', calculateCacheSize cacheDirectory env st = (Ok bytes, st'))
  /\ (exists st', loadSettings cacheDirectory env st = (Ok tt, st'))
  /\ (exists st', setupCacheDirectory cacheDirectory env st = (Ok tt, st'))
  /\ forall enabled,
       (faults env (List.length (trace st)) = false ->
        exists st', setEnabled cacheDirectory env enabled st = (Ok tt, st'))
       /\ (faults env (List.length (trace st)) = true ->
           setEnabled cacheDirectory env enabled st =
           (Throw,
            log_call (SetItem IMAGE_CACHE_ENABLED_KEY (bool_toString enabled))
                     false (set_isEnabled enabled st))).
Proof.
  repeat split.
  - intros url. apply getCachedImageUri_never_throws.
  - destruct (clearCache_never_throws cacheDirectory env st) as ([] & st' & E).
    now exists st'.
  - apply calculateCacheSize_never_throws.
  - destruct (loadSettings_never_throws cacheDirectory env st) as ([] & st' & E).
    now exists st'.
  - destruct (setupCacheDirectory_never_throws cacheDirectory env st)
      as ([] & st' & E).
    now exists st'.
  - intros H. unfold setEnabled, bind at 1, modify.
    unfold bind at 1, setItem, kv_call.
    cbn [trace set_isEnabled]. rewrite H. cbv iota beta.
    destruct enabled; cbn [negb].
    + eexists; reflexivity.
    + match goal with |- context [clearCache _ _ ?s] =>
        destruct (clearCache_never_throws cacheDirectory env s) as ([] & st' & E)
      end.
      exists st'. exact E.
  - intros H. unfold setEnabled, bind at 1, modify.
    unfold bind at 1, setItem, kv_call.
    cbn [trace set_isEnabled]. now rewrite H.
Qed.

(** A settings read that rejects is absorbed by [loadSettings]: the flag
    keeps the value it had, which is [true] on a new object. *)
Lemma loadSettings_read_failure (st : State) :
  faults env (List.length (trace st)) = true ->
  loadSettings cacheDirectory env st
  = (Ok tt,
     log_error "Error loading cache settings:"
               (log_call (GetItem IMAGE_CACHE_ENABLED_KEY) false st)).
Proof.
  intros H. unfold loadSettings, try_catch, bind at 1, getItem, kv_call.
  now rewrite H.
Qed.

End Claims.

(** ** How failures travel through a computation *)

Lemma new_calls_app (st st' : State) ext :
  trace st' = trace st ++ ext -> new_calls st st' = ext.
Proof.
  intros H. unfold new_calls. rewrite H.
  rewrite skipn_app, skipn_all, Nat.sub_diag. reflexivity.
Qed.

Lemma nth_error_app_cases A (l1 l2 : list A) k x :
  nth_error (l1 ++ l2) k = Some x ->
  nth_error l1 k = Some x
  \/ ((List.length l1 <= k)%nat
      /\ nth_error l2 (k - List.length l1) = Some x).
Proof.
  intros H. destruct (Nat.lt_ge_cases k (List.length l1)) as [L | L].
  - left. now rewrite nth_error_app1 in H.
  - right. split; [exact L|]. now rewrite nth_error_app2 in H.
Qed.

Lemma fail_stop_ret A (a : A) : fail_stop (ret a).
Proof.
  intros st. exists []. cbn. rewrite app_nil_r. repeat split.
  all: destruct k; discriminate.
Qed.

Lemma fail_stop_get_state : fail_stop get_state.
Proof.
  intros st. exists []. cbn. rewrite app_nil_r. repeat split.
  all: destruct k; discriminate.
Qed.

Lemma fail_stop_bind A B (m : M A) (k : A -> M B) :
  fail_stop m -> (forall a, fail_stop (k a)) -> fail_stop (bind m k).
Proof.
  intros Hm Hk st. destruct (Hm st) as (e1 & T1 & C1 & L1 & F1).
  unfold bind. destruct (m st) as [[a|] st1]; cbn [fst snd] in *.
  - destruct (Hk a st1) as (e2 & T2 & C2 & L2 & F2).
    exists (e1 ++ e2). repeat split.
    + now rewrite T2, T1, app_assoc.
    + now rewrite C2.
    + now rewrite L2.
    + apply nth_error_app_cases in H. destruct H as [H | [L H]].
      * now destruct (F1 _ _ H).
      * destruct (F2 _ _ H) as [E _]. rewrite length_app. lia.
    + apply nth_error_app_cases in H. destruct H as [H | [L H]].
      * now destruct (F1 _ _ H).
      * now destruct (F2 _ _ H).
  - exists e1. repeat split; try assumption; now apply (F1 k0 c).
Qed.

Lemma fail_stop_fs_call (env : Env) A (c : Call)
    (sem : Disk -> option (A * Disk)) :
  fail_stop (fs_call env c sem).
Proof.
  intros st. unfold fs_call.
  destruct (faults env (List.length (trace st))).
  - exists [(c, false)]. repeat split.
    all: destruct k as [|[|k]]; cbn in H; now try discriminate.
  - destruct (sem (disk st)) as [[a d]|].
    + exists [(c, true)]. repeat split.
      all: destruct k as [|[|k]]; cbn in H; now try discriminate.
    + exists [(c, false)]. repeat split.
      all: destruct k as [|[|k]]; cbn in H; now try discriminate.
Qed.

Lemma fail_stop_simulatedModTime (env : Env) : fail_stop (simulatedModTime env).
Proof.
  intros st. exists []. cbn. rewrite app_nil_r. repeat split.
  all: destruct k; discriminate.
Qed.

Lemma fail_stop_collectFileInfos dir (env : Env) files :
  fail_stop (collectFileInfos dir env files).
Proof.
  induction files as [|f files IH]; cbn [collectFileInfos].
  - apply fail_stop_ret.
  - apply fail_stop_bind; [apply fail_stop_fs_call|]. intros info.
    apply fail_stop_bind.
    + destruct (fi_exists info); [|apply fail_stop_ret].
      apply fail_stop_bind; [apply fail_stop_simulatedModTime|].
      intros t. apply fail_stop_ret.
    + intros here. apply fail_stop_bind; [exact IH|].
      intros more. apply fail_stop_ret.
Qed.

Lemma fail_stop_deleteUntilTarget dir maxSize (env : Env) fileInfos :
  forall currentSize,
    fail_stop (deleteUntilTarget dir maxSize env fileInfos currentSize).
Proof.
  induction fileInfos as [|fileInfo rest IH]; intros currentSize;
    cbn [deleteUntilTarget].
  - apply fail_stop_ret.
  - destruct (Qle_bool (inject_Z currentSize) (targetSize maxSize)).
    + apply fail_stop_ret.
    + apply fail_stop_bind; [apply fail_stop_fs_call|]. intros _. apply IH.
Qed.

Lemma aborts_of_fail_stop A (m : M A) :
  fail_stop m -> aborts_on_failed_delete m.
Proof.
  intros H st. destruct (H st) as (ext & T & C & L & F).
  exists ext. split; [exact T|]. intros k p i E.
  destruct (F _ _ E). now repeat split.
Qed.

Lemma aborts_bind A B (m : M A) (k : A -> M B) :
  fail_stop m -> (forall a, aborts_on_failed_delete (k a)) ->
  aborts_on_failed_delete (bind m k).
Proof.
  intros Hm Hk st. destruct (Hm st) as (e1 & T1 & C1 & L1 & F1).
  unfold bind. destruct (m st) as [[a|] st1]; cbn [fst snd] in *.
  - destruct (Hk a st1) as (e2 & T2 & F2).
    exists (e1 ++ e2). split; [now rewrite T2, T1, app_assoc|].
    intros n p i H.
    apply nth_error_app_cases in H. destruct H as [H | [L H]].
    + now destruct (F1 _ _ H).
    + destruct (F2 _ _ _ H) as (E & R & C & O). repeat split.
      * rewrite length_app. lia.
      * exact R.
      * now rewrite C.
      * now rewrite O.
  - exists e1. split; [exact T1|]. intros n p i H.
    destruct (F1 _ _ H). now repeat split.
Qed.

(** [calculateCacheSize] issues exactly one call, the stat of the
    directory. *)
Lemma calculateCacheSize_trace dir (env : Env) st :
  exists ok,
    trace (snd (calculateCacheSize dir env st))
    = trace st ++ [(GetInfo (IMAGE_CACHE_DIR dir) true, ok)].
Proof.
  unfold calculateCacheSize, try_catch, bind at 1, getInfoAsync, fs_call.
  destruct (faults env (List.length (trace st))).
  - now exists false.
  - exists true. cbv beta iota.
    destruct (fi_exists _ && fi_isDirectory _); reflexivity.
Qed.

Lemma aborts_calculate_then dir (env : Env) A (a : A) :
  aborts_on_failed_delete (calculateCacheSize dir env ;; ret a).
Proof.
  intros st. destruct (calculateCacheSize_trace dir env st) as (ok & T).
  destruct (calculateCacheSize_never_throws dir env st) as (z & st' & E).
  unfold bind, ret. rewrite E in *. cbn [fst snd] in *.
  eexists. split; [exact T|].
  intros [|[|k]] p i H; cbn in H; discriminate.
Qed.

(** The [try] block of [trimCache]. *)
Lemma aborts_trim_block dir maxSize (env : Env) :
  aborts_on_failed_delete
    (files <- readDirectoryAsync dir env (IMAGE_CACHE_DIR dir) ;;
     match files with
     | [] => ret tt
     | _ :: _ =>
         fileInfos <- collectFileInfos dir env files ;;
         st <- get_state ;;
         _ <- deleteUntilTarget dir maxSize env (sort_by_time fileInfos)
                                (cacheSize st) ;;
         _ <- calculateCacheSize dir env ;;
         ret tt
     end).
Proof.
  apply aborts_bind; [apply fail_stop_fs_call|]. intros [|f files].
  - apply aborts_of_fail_stop, fail_stop_ret.
  - apply aborts_bind; [apply fail_stop_collectFileInfos|]. intros infos.
    apply aborts_bind; [apply fail_stop_get_state|]. intros s.
    apply aborts_bind; [apply fail_stop_deleteUntilTarget|]. intros _.
    apply aborts_calculate_then.
Qed.

Lemma keeps_counter_of_fail_stop A (m : M A) :
  fail_stop m -> keeps_counter_on_failure m.
Proof.
  intros H st. destruct (H st) as (ext & T & C & _). exists ext. now split.
Qed.

Lemma keeps_counter_bind A B (m : M A) (k : A -> M B) :
  fail_stop m -> (forall a, keeps_counter_on_failure (k a)) ->
  keeps_counter_on_failure (bind m k).
Proof.
  intros Hm Hk st. destruct (Hm st) as (e1 & T1 & C1 & L1 & F1).
  unfold bind. destruct (m st) as [[a|] st1]; cbn [fst snd] in *.
  - destruct (Hk a st1) as (e2 & T2 & F2).
    exists (e1 ++ e2). split; [now rewrite T2, T1, app_assoc|].
    intros n c H.
    apply nth_error_app_cases in H. destruct H as [H | [L H]].
    + now destruct (F1 _ _ H).
    + now rewrite (F2 _ _ H).
  - exists e1. split; [exact T1|]. intros n c H. exact C1.
Qed.

(** A rejected stat leaves the counter to [calculateCacheSize]'s caller
    as it was. *)
Lemma keeps_counter_calculate_then dir (env : Env) A (a : A) :
  keeps_counter_on_failure (calculateCacheSize dir env ;; ret a).
Proof.
  intros st.
  cbv [bind ret calculateCacheSize try_catch getInfoAsync fs_call
       modify get_state console_error].
  destruct (faults env (List.length (trace st))).
  - exists [(GetInfo (IMAGE_CACHE_DIR dir) true, false)].
    split; reflexivity.
  - cbv beta iota. exists [(GetInfo (IMAGE_CACHE_DIR dir) true, true)].
    split; [now destruct (fi_exists _ && fi_isDirectory _)|].
    intros [|[|k]] c H; cbn in H; discriminate.
Qed.

Lemma keeps_counter_trim_block dir maxSize (env : Env) :
  keeps_counter_on_failure
    (files <- readDirectoryAsync dir env (IMAGE_CACHE_DIR dir) ;;
     match files with
     | [] => ret tt
     | _ :: _ =>
         fileInfos <- collectFileInfos dir env files ;;
         st <- get_state ;;
         _ <- deleteUntilTarget dir maxSize env (sort_by_time fileInfos)
                                (cacheSize st) ;;
         _ <- calculateCacheSize dir env ;;
         ret tt
     end).
Proof.
  apply keeps_counter_bind; [apply fail_stop_fs_call|]. intros [|f files].
  - apply keeps_counter_of_fail_stop, fail_stop_ret.
  - apply keeps_counter_bind; [apply fail_stop_collectFileInfos|].
    intros infos.
    apply keeps_counter_bind; [apply fail_stop_get_state|]. intros s.
    apply keeps_counter_bind; [apply fail_stop_deleteUntilTarget|].
    intros _. apply keeps_counter_calculate_then.
Qed.

(** Whichever call of a trim rejects, the counter is what it was when
    the trim began. *)
Lemma trimCache_keeps_counter dir maxSize (env : Env) :
  keeps_counter_on_failure (trimCache dir maxSize env).
Proof.
  intros st. unfold trimCache, try_catch, console_error, modify.
  destruct (keeps_counter_trim_block dir maxSize env st) as (ext & T & F).
  match type of T with
  | trace (snd (?b st)) = _ => destruct (b st) as [[[]|] st1]
  end; cbn [fst snd] in *; exists ext; (split; [exact T | exact F]).
Qed.

Section Failures.
Variable cacheDirectory : string.
Variable maxCacheSize : Z.
Variable env : Env.

Local Abbreviation DIR := (IMAGE_CACHE_DIR cacheDirectory).

(** C6 (amended). [trimCache] never rejects.  When one of its deletes
    rejects, that delete is the last collaborator call of the trim: no
    later entry is looked at or deleted, and [cacheSize] is left as it was
    (the final recomputation is skipped too). *)
Theorem trimCache_stops_at_failed_delete (st : State) :
  let st' := snd (trimCache cacheDirectory maxCacheSize env st) in
  fst (trimCache cacheDirectory maxCacheSize env st) = Ok tt
  /\ forall k path idem,
       nth_error (new_calls st st') k = Some (Delete path idem, false) ->
       S k = List.length (new_calls st st')
       /\ cacheSize st' = cacheSize st
       /\ console st' = console st ++ ["Error trimming cache:"].
Proof.
  unfold trimCache, try_catch, console_error, modify.
  destruct (aborts_trim_block cacheDirectory maxCacheSize env st)
    as (ext & T & F).
  match type of T with
  | trace (snd (?b st)) = _ => destruct (b st) as [[[]|] st1] eqn:E
  end; cbn [fst snd] in *.
  - split; [reflexivity|]. intros k p i H.
    rewrite (new_calls_app _ _ _ T) in *.
    destruct (F _ _ _ H) as (_ & R & _). discriminate.
  - split; [reflexivity|]. intros k p i H.
    assert (T' : trace (log_error "Error trimming cache:" st1) = trace st ++ ext)
      by exact T.
    rewrite (new_calls_app _ _ _ T') in *.
    destruct (F _ _ _ H) as (L & _ & C & O).
    repeat split; [exact L | exact C |].
    cbn [console log_error]. now rewrite O.
Qed.

End Failures.

Section Fetch.
Variable cacheDirectory : string.
Variable maxCacheSize : Z.
Variable env : Env.

Local Abbreviation DIR := (IMAGE_CACHE_DIR cacheDirectory).

(** Whichever call made while a size is recorded rejects, the counter
    ends up increased by that size. *)
Lemma updateCacheSize_counter (n : Z) (st : State) :
  exists ext,
    trace (snd (updateCacheSize cacheDirectory maxCacheSize env n st))
    = trace st ++ ext
    /\ forall k c,
         nth_error ext k = Some (c, false) ->
         cacheSize (snd (updateCacheSize cacheDirectory maxCacheSize env n st))
         = cacheSize st + n.
Proof.
  unfold updateCacheSize, try_catch, bind, modify, get_state.
  cbv beta iota.
  destruct (maxCacheSize <? _).
  - match goal with |- context [trimCache _ _ _ ?s] =>
      destruct (trimCache_keeps_counter cacheDirectory maxCacheSize env s)
        as (ext & T & F);
      destruct (trimCache_never_throws cacheDirectory maxCacheSize env s)
        as ([] & st' & E)
    end.
    rewrite E in *. exists ext. split; [exact T|].
    intros k c H. exact (F k c H).
  - exists []. split; [cbn; now rewrite app_nil_r|].
    intros [|k] c H; discriminate.
Qed.

(** The five ways a call of [getCachedImageUri] on an enabled service
    and a non-empty url can go. *)
Lemma getCachedImageUri_cases (url : string) (st : State) :
  isEnabled st = true -> url <> EmptyString ->
  let path := (DIR ++ getFilenameFromUrl url)%string in
  let run := getCachedImageUri cacheDirectory maxCacheSize env url st in
  let caught := log_error "Error caching image:" in
  let st1 := log_call (GetInfo path false) true st in
  (* the existence check rejects *)
  run = (Ok url, caught (log_call (GetInfo path false) false st))
  (* hit *)
  \/ (fi_exists (stat cacheDirectory (disk st) path) = true
      /\ run = (Ok path, st1))
  (* the download rejects *)
  \/ run = (Ok url, caught (log_call (Download url path) false st1))
  (* the stat of the downloaded blob rejects *)
  \/ (exists d,
        run = (Ok url,
               caught (log_call (GetInfo path true) false
                         (set_disk d (log_call (Download url path) true st1)))))
  (* the three calls succeed; size recording follows *)
  \/ (exists d ext,
        fst run = Ok path
        /\ trace (snd run)
           = trace (log_call (GetInfo path true) true
                      (set_disk d (log_call (Download url path) true st1)))
             ++ ext
        /\ (forall k c,
              nth_error ext k = Some (c, false) ->
              cacheSize (snd run) = cacheSize st + remote env url)).
Proof.
  intros En Nonempty path run caught st1.
  assert (R : run = getCachedImageUri cacheDirectory maxCacheSize env url st)
    by reflexivity.
  clearbody run.
  unfold getCachedImageUri, bind at 1, get_state in R.
  rewrite En in R. cbn [negb orb] in R.
  destruct (String.eqb_spec url EmptyString) as [|_]; [contradiction|].
  fold path in R.
  unfold try_catch, bind at 1, getInfoAsync at 1, fs_call at 1 in R.
  destruct (faults env (List.length (trace st))); [now left|].
  right. cbv beta iota in R.
  assert (U : fi_uri (stat cacheDirectory (disk st) path) = path).
  { unfold stat. destruct (locate _ _), (disk st); try reflexivity.
    now destruct (lookup _ _). }
  replace (set_disk (disk st) (log_call (GetInfo path false) true st))
    with st1 in R by now destruct st.
  destruct (fi_exists (stat cacheDirectory (disk st) path)) eqn:X.
  { left. split; [reflexivity|]. unfold ret in R. now rewrite U in R. }
  right.
  unfold bind at 1, downloadAsync, fs_call at 1 in R.
  destruct (faults env (List.length (trace st1))); [now left|].
  destruct (locate cacheDirectory path) as [|name|] eqn:Where;
    [now left| |now left].
  destruct (disk st1) as [files|]; [|now left].
  right. cbv beta iota in R.
  set (d := Some (upsert name (remote env url) files)) in R.
  set (st2 := set_disk d (log_call (Download url path) true st1)) in *.
  unfold bind at 1, getInfoAsync, fs_call at 1 in R.
  destruct (faults env (List.length (trace st2))).
  { left. now exists d. }
  right. exists d. cbv beta iota in R.
  set (info := stat cacheDirectory (disk st2) path) in R.
  replace (set_disk (disk st2) (log_call (GetInfo path true) true st2))
    with (log_call (GetInfo path true) true st2) in R by reflexivity.
  set (st3 := log_call (GetInfo path true) true st2) in *.
  unfold bind, ret in R.
  destruct (has_size info).
  - assert (Size : size_or_zero info = remote env url).
    { subst info st2 d. cbn [disk set_disk log_call]. unfold stat.
      rewrite Where, lookup_upsert. reflexivity. }
    destruct (updateCacheSize_counter (size_or_zero info) st3)
      as (ext & T & F).
    destruct (updateCacheSize_never_throws cacheDirectory maxCacheSize env
                (size_or_zero info) st3) as ([] & st' & E).
    rewrite E in *. exists ext. subst run. cbn [fst snd] in *.
    split; [reflexivity|]. split; [exact T|].
    intros k c H. rewrite (F k c H), Size. reflexivity.
  - exists []. subst run. split; [reflexivity|]. cbn [snd].
    split; [now rewrite app_nil_r|]. intros [|k] c H; discriminate.
Qed.

(** C5 (amended). On an enabled service and a non-empty url
    [getCachedImageUri] never rejects.  When the existence check, the
    download or the stat of the downloaded blob (the first three
    collaborator calls of a miss) rejects, it returns the original url,
    logs the error and leaves [cacheSize] as it was.  Once those three
    calls have succeeded it returns the local reference, whatever goes
    wrong while the size is recorded: [updateCacheSize] and [trimCache]
    absorb their own failures, and when a call rejected there
    [cacheSize] has been increased by the size of the download. *)
Theorem fetch_failure_falls_back (url : string) (st : State) :
  isEnabled st = true -> url <> EmptyString ->
  let path := (DIR ++ getFilenameFromUrl url)%string in
  let run := getCachedImageUri cacheDirectory maxCacheSize env url st in
  let st' := snd run in
  (exists ref, fst run = Ok ref)
  /\ ((exists k c, (k < 3)%nat
                   /\ nth_error (new_calls st st') k = Some (c, false)) ->
      fst run = Ok url
      /\ cacheSize st' = cacheSize st
      /\ console st' = console st ++ ["Error caching image:"])
  /\ ((forall k, (k < 3)%nat ->
                 exists c, nth_error (new_calls st st') k = Some (c, true)) ->
      fst run = Ok path
      /\ ((exists k c, nth_error (new_calls st st') k = Some (c, false)) ->
          cacheSize st' = cacheSize st + remote env url)).
Proof.
  intros En Nonempty path run st'.
  destruct (getCachedImageUri_cases url st En Nonempty)
    as [R | [[X R] | [R | [[d R] | (d & ext & R & T & Inc)]]]];
    fold path in R; fold run in R; try fold path in T; try fold run in T.
  1-4: subst st'; rewrite R; cbn [fst snd];
    (erewrite new_calls_app
      by (cbn [trace log_call log_error set_disk]; rewrite <- ?app_assoc;
          reflexivity));
    cbn [app].
  - (* existence check rejected *)
    split; [now eexists|]. split; [now intros _|].
    intros H. destruct (H 0%nat) as [c Hc]; [lia | discriminate].
  - (* hit *)
    split; [now eexists|]. split.
    + intros (k & c & L & H). destruct k as [|[|k]]; discriminate.
    + intros H. destruct (H 1%nat) as [c Hc]; [lia | discriminate].
  - (* download rejected *)
    split; [now eexists|]. split; [now intros _|].
    intros H. destruct (H 1%nat) as [c Hc]; [lia | discriminate].
  - (* stat rejected *)
    split; [now eexists|]. split; [now intros _|].
    intros H. destruct (H 2%nat) as [c Hc]; [lia | discriminate].
  - (* three calls succeeded *)
    subst st'. cbn [trace log_call set_disk] in T.
    rewrite <- !app_assoc in T. cbn [app] in T.
    rewrite (new_calls_app _ _ _ T).
    split; [eexists; exact R|]. split.
    + intros (k & c & L & H).
      destruct k as [|[|[|k]]]; [discriminate .. | lia].
    + intros _. split; [exact R|]. intros (k & c & H).
      destruct k as [|[|[|k]]]; [discriminate .. |].
      exact (Inc k c H).
Qed.

End Fetch.

(** ** Hits and misses when every call succeeds *)

Section Hits.
Variable cacheDirectory : string.
Variable maxCacheSize : Z.
Variable env : Env.
Hypothesis calm_env : no_faults env.

Local Abbreviation DIR := (IMAGE_CACHE_DIR cacheDirectory).

Lemma locate_under (name : string) :
  locate cacheDirectory (DIR ++ name)%string =
  match name with
  | EmptyString => TDir
  | String _ _ => TFile name
  end.
Proof. unfold locate. rewrite strip_prefix_app. now destruct name. Qed.

(** A miss on an existing directory is a miss on a proper file name. *)
Lemma miss_is_a_file (files : list (string * Z)) (name : string) :
  fi_exists (stat cacheDirectory (Some files) (DIR ++ name)%string) = false ->
  locate cacheDirectory (DIR ++ name)%string = TFile name
  /\ lookup name files = None.
Proof.
  unfold stat. rewrite locate_under. destruct name; [discriminate|].
  destruct (lookup _ files); [discriminate | now split].
Qed.

Lemma getInfoAsync_run (path : string) (withSize : bool) (st : State) :
  getInfoAsync cacheDirectory env path withSize st
  = (Ok (stat cacheDirectory (disk st) path),
     log_call (GetInfo path withSize) true st).
Proof.
  unfold getInfoAsync, fs_call. rewrite calm_env. now destruct st.
Qed.

Lemma resolve_hit_run (url : string) (st : State) :
  let path := (DIR ++ getFilenameFromUrl url)%string in
  isEnabled st = true -> url <> EmptyString ->
  fi_exists (stat cacheDirectory (disk st) path) = true ->
  getCachedImageUri cacheDirectory maxCacheSize env url st
  = (Ok path, log_call (GetInfo path false) true st).
Proof.
  intros path En Nonempty X.
  unfold getCachedImageUri, bind at 1, get_state.
  rewrite En. cbn [negb orb].
  destruct (String.eqb_spec url EmptyString) as [|_]; [contradiction|].
  fold path. unfold try_catch, bind. rewrite getInfoAsync_run, X.
  unfold ret. f_equal. f_equal.
  unfold stat. destruct (locate _ _), (disk st); try reflexivity.
  now destruct (lookup _ _).
Qed.

Lemma resolve_miss_run (url : string) (st : State) files :
  let name := getFilenameFromUrl url in
  let path := (DIR ++ name)%string in
  let bytes := remote env url in
  isEnabled st = true -> url <> EmptyString ->
  disk st = Some files ->
  fi_exists (stat cacheDirectory (disk st) path) = false ->
  cacheSize st + bytes <= maxCacheSize ->
  let stored :=
    log_call (GetInfo path true) true
      (set_disk (Some (upsert name bytes files))
         (log_call (Download url path) true
            (log_call (GetInfo path false) true st))) in
  getCachedImageUri cacheDirectory maxCacheSize env url st
  = (Ok path,
     if bytes =? 0 then stored
     else set_cacheSize (cacheSize st + bytes) stored).
Proof.
  intros name path bytes En Nonempty D X Fit stored.
  unfold getCachedImageUri, bind at 1, get_state.
  rewrite En. cbn [negb orb].
  destruct (String.eqb_spec url EmptyString) as [|_]; [contradiction|].
  fold name. fold path. unfold try_catch, bind at 1.
  rewrite getInfoAsync_run, X.
  rewrite D in X. destruct (miss_is_a_file _ _ X) as [L Miss].
  fold path in L.
  unfold bind at 1, downloadAsync, fs_call.
  rewrite calm_env. cbn [disk log_call]. fold path. rewrite L, D.
  unfold bind at 1. rewrite getInfoAsync_run.
  cbn [disk log_call set_disk].
  unfold stat at 1 2. fold path. rewrite L. fold bytes.
  rewrite lookup_upsert. unfold has_size, size_or_zero.
  cbn [fi_exists fi_size andb]. fold stored.
  destruct (bytes =? 0) eqn:Z0; cbn [negb]; unfold bind, ret.
  - reflexivity.
  - unfold updateCacheSize, try_catch, bind, modify, get_state.
    cbn [cacheSize set_cacheSize].
    replace (cacheSize stored) with (cacheSize st) by reflexivity.
    destruct (Z.ltb_spec maxCacheSize (cacheSize st + bytes)); [lia|].
    reflexivity.
Qed.

(** C7 (amended). When no call rejects, the directory exists, the url is
    not cached yet and recording its bytes does not push [cacheSize]
    above the ceiling, two calls of [getCachedImageUri url] in sequence
    download once: the first call checks, downloads, stats and stores the
    blob; the second call only checks, finds it, returns the same
    reference and changes neither [cacheSize] nor the store. *)
Theorem second_resolve_is_hit (url : string) (st : State) files :
  let name := getFilenameFromUrl url in
  let path := (DIR ++ name)%string in
  isEnabled st = true -> url <> EmptyString ->
  disk st = Some files ->
  fi_exists (stat cacheDirectory (disk st) path) = false ->
  cacheSize st + remote env url <= maxCacheSize ->
  let first := getCachedImageUri cacheDirectory maxCacheSize env url st in
  let st1 := snd first in
  let second := getCachedImageUri cacheDirectory maxCacheSize env url st1 in
  let st2 := snd second in
  fst first = Ok path
  /\ new_calls st st1
     = [(GetInfo path false, true); (Download url path, true);
        (GetInfo path true, true)]
  /\ disk st1 = Some (upsert name (remote env url) files)
  /\ fst second = Ok path
  /\ new_calls st1 st2 = [(GetInfo path false, true)]
  /\ cacheSize st2 = cacheSize st1
  /\ disk st2 = disk st1
  /\ List.length (filter is_download (new_calls st st2)) = 1%nat.
Proof.
  intros name path En Nonempty D X Fit first st1 second st2.
  pose proof (resolve_miss_run url st files En Nonempty D X Fit) as R1.
  cbv zeta in R1. fold name in R1. fold path in R1. fold first in R1.
  set (stored := log_call (GetInfo path true) true _) in R1.
  assert (T1 : trace st1
               = trace st ++ [(GetInfo path false, true);
                              (Download url path, true);
                              (GetInfo path true, true)]).
  { subst st1. rewrite R1. cbn [snd].
    destruct (remote env url =? 0); cbn; now rewrite <- !app_assoc. }
  assert (D1 : disk st1 = Some (upsert name (remote env url) files)).
  { subst st1. rewrite R1. cbn [snd]. now destruct (remote env url =? 0). }
  assert (E1 : isEnabled st1 = true).
  { subst st1. rewrite R1. cbn [snd]. now destruct (remote env url =? 0). }
  assert (X1 : fi_exists (stat cacheDirectory (disk st1) path) = true).
  { rewrite D1. rewrite D in X. destruct (miss_is_a_file _ _ X) as [L _].
    unfold stat. fold path in L. rewrite L. now rewrite lookup_upsert. }
  pose proof (resolve_hit_run url st1 E1 Nonempty X1) as R2.
  cbv zeta in R2. fold name in R2. fold path in R2. fold second in R2.
  assert (T2 : trace st2 = trace st1 ++ [(GetInfo path false, true)])
    by (subst st2; now rewrite R2).
  repeat split.
  - now rewrite R1.
  - exact (new_calls_app _ _ _ T1).
  - exact D1.
  - now rewrite R2.
  - exact (new_calls_app _ _ _ T2).
  - subst st2. now rewrite R2.
  - subst st2. now rewrite R2.
  - rewrite T1, <- app_assoc in T2. rewrite (new_calls_app _ _ _ T2).
    reflexivity.
Qed.

End Hits.

(** ** Directory listings, totals and the sort *)

Lemma total_app (l1 l2 : list (string * Z)) :
  total (l1 ++ l2) = total l1 + total l2.
Proof.
  induction l1 as [|f l1 IH]; cbn; [reflexivity|].
  unfold total in IH. rewrite IH. unfold total. lia.
Qed.

Lemma total_cons (f : string * Z) (l : list (string * Z)) :
  total (f :: l) = snd f + total l.
Proof. reflexivity. Qed.

Lemma total_Permutation (l1 l2 : list (string * Z)) :
  Permutation l1 l2 -> total l1 = total l2.
Proof.
  induction 1; rewrite ?total_cons in *; lia.
Qed.

Lemma lookup_In (files : list (string * Z)) (k : string) (v : Z) :
  NoDup (map fst files) -> In (k, v) files -> lookup k files = Some v.
Proof.
  induction files as [|[k' v'] files IH]; cbn; [contradiction|].
  intros ND [E | I].
  - inversion E; subst. now rewrite String.eqb_refl.
  - inversion ND as [|? ? Out ND']; subst.
    destruct (String.eqb_spec k k') as [->|_].
    + exfalso. apply Out. now apply (in_map fst _ (k', v)).
    + now apply IH.
Qed.

Lemma remove_key_Permutation (files : list (string * Z)) (k : string) (v : Z) :
  lookup k files = Some v ->
  Permutation files ((k, v) :: remove_key k files).
Proof.
  induction files as [|[k' v'] files IH]; cbn; [discriminate|].
  destruct (String.eqb_spec k k') as [->|_].
  - intros E. inversion E; subst. reflexivity.
  - intros E. rewrite perm_swap. now constructor; apply IH.
Qed.

Lemma insert_by_time_Permutation (x : CacheFileInfo) (l : list CacheFileInfo) :
  Permutation (insert_by_time x l) (x :: l).
Proof.
  induction l as [|y l IH]; cbn; [reflexivity|].
  destruct (Qle_bool _ _); [reflexivity|].
  rewrite IH. apply perm_swap.
Qed.

Lemma sort_by_time_Permutation (l : list CacheFileInfo) :
  Permutation (sort_by_time l) l.
Proof.
  induction l as [|x l IH]; cbn; [reflexivity|].
  rewrite insert_by_time_Permutation. now constructor.
Qed.

Lemma insert_by_time_sorted (x : CacheFileInfo) (l : list CacheFileInfo) :
  StronglySorted not_later l -> StronglySorted not_later (insert_by_time x l).
Proof.
  induction l as [|y rest IH]; intros H; cbn [insert_by_time].
  - repeat constructor.
  - apply StronglySorted_inv in H as [Hrest Hy].
    destruct (Qle_bool (modificationTime x) (modificationTime y)) eqn:E.
    + apply Qle_bool_iff in E. constructor.
      * now constructor.
      * constructor; [exact E|].
        eapply Forall_impl; [|exact Hy]. intros z Hz.
        unfold not_later in *. now apply Qle_trans with (modificationTime y).
    + constructor; [now apply IH|].
      eapply Permutation_Forall;
        [symmetry; apply insert_by_time_Permutation|].
      constructor; [|exact Hy].
      unfold not_later. apply Qlt_le_weak, Qnot_le_lt.
      intros L. apply Qle_bool_iff in L. congruence.
Qed.

(** The sort puts the entries in ascending order of simulated time. *)
Lemma sort_by_time_sorted (l : list CacheFileInfo) :
  StronglySorted not_later (sort_by_time l).
Proof.
  induction l as [|x l IH]; cbn; [constructor|].
  now apply insert_by_time_sorted.
Qed.

Lemma match_nonempty A B (l : list A) (a b : B) :
  l <> [] -> match l with [] => a | _ :: _ => b end = b.
Proof. now destruct l. Qed.

Lemma filter_none A (p : A -> bool) (l : list A) :
  (forall x, In x l -> p x = false) -> filter p l = [].
Proof.
  induction l as [|x l IH]; cbn; [reflexivity|]. intros H.
  rewrite (H x) by now left. apply IH. intros y I. apply H. now right.
Qed.

Lemma filter_all A (p : A -> bool) (l : list A) :
  (forall x, In x l -> p x = true) -> filter p l = l.
Proof.
  induction l as [|x l IH]; cbn; [reflexivity|]. intros H.
  rewrite (H x) by now left. f_equal. apply IH. intros y I. apply H. now right.
Qed.

(** ** Trimming when every call succeeds *)

Section Trim.
Variable cacheDirectory : string.
Variable maxCacheSize : Z.
Variable env : Env.
Hypothesis calm_env : no_faults env.

Local Abbreviation DIR := (IMAGE_CACHE_DIR cacheDirectory).


Lemma collectFileInfos_run (files part : list (string * Z)) :
  (forall f, In f part ->
             fst f <> EmptyString /\ lookup (fst f) files = Some (snd f)) ->
  forall st, disk st = Some files ->
  exists infos st',
    collectFileInfos cacheDirectory env (map fst part) st = (Ok infos, st')
    /\ map seen infos = map (as_seen cacheDirectory) part
    /\ disk st' = Some files
    /\ cacheSize st' = cacheSize st
    /\ console st' = console st
    /\ trace st' = trace st ++ map (stat_call cacheDirectory) part.
Proof.
  induction part as [|[name bytes] part IH]; intros Hp st D.
  - exists [], st. cbn. rewrite app_nil_r. now repeat split.
  - destruct (Hp (name, bytes)) as [Hn Hl]; [now left|]. cbn [fst snd] in *.
    cbn [map fst collectFileInfos]. unfold bind at 1.
    rewrite (getInfoAsync_run cacheDirectory env calm_env).
    destruct name as [|c name]; [contradiction|].
    unfold stat. rewrite (locate_under cacheDirectory), D, Hl.
    cbn [fi_exists]. unfold bind, simulatedModTime, ret.
    match goal with
    | |- context [collectFileInfos _ _ _ ?s] =>
        destruct (IH (fun f I => Hp f (or_intror I)) s D)
          as (infos & st' & R & S & D' & C' & O' & T')
    end.
    rewrite R.
    eexists; eexists. split; [reflexivity|].
    repeat split; try assumption.
    + cbn [map app]. now rewrite S.
    + rewrite T'. cbn [trace next_draw log_call map].
      now rewrite <- app_assoc.
Qed.

(** The entries of that loop are [file_entries], numbered from the draws
    made so far. *)
Lemma collectFileInfos_entries (files part : list (string * Z)) :
  (forall f, In f part ->
             fst f <> EmptyString /\ lookup (fst f) files = Some (snd f)) ->
  forall st, disk st = Some files ->
  fst (collectFileInfos cacheDirectory env (map fst part) st)
  = Ok (file_entries cacheDirectory env (draws st) part).
Proof.
  induction part as [|[name bytes] part IH]; intros Hp st D; [reflexivity|].
  destruct (Hp (name, bytes)) as [Hn Hl]; [now left|]. cbn [fst snd] in *.
  cbn [map fst snd collectFileInfos file_entries]. unfold bind at 1.
  rewrite (getInfoAsync_run cacheDirectory env calm_env).
  destruct name as [|c name]; [contradiction|].
  unfold stat. rewrite (locate_under cacheDirectory), D, Hl.
  cbn [fi_exists]. unfold bind, simulatedModTime, ret.
  match goal with
  | |- context [collectFileInfos _ _ _ ?s] =>
      pose proof (IH (fun f I => Hp f (or_intror I)) s D) as R;
      destruct (collectFileInfos cacheDirectory env (map fst part) s)
        as [[more|] s']
  end; cbn [fst] in R; [|discriminate].
  injection R as ->. reflexivity.
Qed.

Lemma deleteUntilTarget_run (order : list (string * Z)) :
  forall (fileInfos : list CacheFileInfo) (currentSize : Z) (st : State)
         (files : list (string * Z)),
    map seen fileInfos = map (as_seen cacheDirectory) order ->
    disk st = Some files ->
    Permutation order files ->
    NoDup (map fst order) ->
    ~ In EmptyString (map fst order) ->
    exists deleted kept remaining st',
      order = deleted ++ kept
      /\ deleteUntilTarget cacheDirectory maxCacheSize env fileInfos
                           currentSize st
         = (Ok (currentSize - total deleted), st')
      /\ disk st' = Some remaining
      /\ Permutation kept remaining
      /\ cacheSize st' = cacheSize st
      /\ console st' = console st
      /\ trace st' = trace st ++ map (delete_call cacheDirectory) deleted
      /\ (kept = [] \/ 10 * (currentSize - total deleted) <= 7 * maxCacheSize)
      /\ (forall done x rest,
             deleted = done ++ x :: rest ->
             7 * maxCacheSize < 10 * (currentSize - total done)).
Proof.
  induction order as [|[name bytes] order IH];
    intros fileInfos currentSize st files S D P ND NE.
  - destruct fileInfos; [|discriminate].
    exists [], [], files, st. cbn. rewrite app_nil_r, Z.sub_0_r.
    repeat split; try assumption; try (now left).
    intros [|] ? ? ?; discriminate.
  - destruct fileInfos as [|info fileInfos]; [discriminate|].
    cbn [map] in S. unfold seen at 1, as_seen at 1 in S.
    cbn [fst snd] in S. injection S as Huri Hsize S'.
    cbn [deleteUntilTarget]. rewrite Qle_bool_target.
    destruct (Z.leb_spec (10 * currentSize) (7 * maxCacheSize)) as [Le | Gt].
    + exists [], ((name, bytes) :: order), files, st.
      cbn [app total fold_right map]. rewrite app_nil_r, Z.sub_0_r.
      repeat split; try assumption; try (now right).
      intros [|] ? ? ?; discriminate.
    + cbn [fst snd] in *.
      assert (Hl : lookup name files = Some bytes).
      { apply lookup_In.
        - eapply Permutation_NoDup; [apply Permutation_map, P | exact ND].
        - eapply Permutation_in; [exact P | now left]. }
      assert (Hn : name <> EmptyString) by (intros ->; apply NE; now left).
      destruct name as [|c name]; [contradiction|].
      unfold bind at 1, deleteAsync, fs_call. rewrite calm_env.
      rewrite Huri, (locate_under cacheDirectory). cbv beta iota.
      rewrite D, Hl. cbv beta iota.
      set (nm := String c name) in *.
      pose proof (remove_key_Permutation files nm bytes Hl) as PR.
      assert (P' : Permutation order (remove_key nm files)).
      { eapply Permutation_cons_inv. rewrite <- PR. exact P. }
      cbn [map fst] in ND. apply NoDup_cons_iff in ND as [Out ND'].
      match goal with
      | |- context [deleteUntilTarget _ _ _ _ _ ?s] =>
          destruct (IH fileInfos (currentSize - size info) s
                       (remove_key nm files) S' eq_refl P' ND'
                       (fun I => NE (or_intror I)))
            as (deleted & kept & remaining & st' & E & R & D' & K & C & O
                & T & Stop & Min)
      end.
      exists ((nm, bytes) :: deleted), kept, remaining, st'.
      rewrite R, Hsize. rewrite total_cons. cbn [snd].
      repeat split; try assumption.
      * cbn [app]. now rewrite E.
      * do 2 f_equal. lia.
      * rewrite T. cbn [trace set_disk log_call map].
        now rewrite <- app_assoc.
      * destruct Stop as [-> | Stop]; [now left | right]. lia.
      * intros [|y done] x rest Hd; cbn [app] in Hd;
          injection Hd as Hy Hrest.
        -- unfold total. cbn [fold_right]. lia.
        -- rewrite total_cons, <- Hy. cbn [snd].
           specialize (Min done x rest Hrest). lia.
Qed.

Lemma calculateCacheSize_run (st : State) (files : list (string * Z)) :
  disk st = Some files ->
  calculateCacheSize cacheDirectory env st
  = (Ok (total files),
     set_cacheSize (total files) (log_call (GetInfo DIR true) true st)).
Proof.
  intros D. unfold calculateCacheSize, try_catch, bind at 1.
  rewrite (getInfoAsync_run cacheDirectory env calm_env).
  rewrite (stat_dir cacheDirectory), D. reflexivity.
Qed.

(** What [trimCache] does to a directory that is not empty. *)
Lemma trimCache_run (st : State) (files : list (string * Z)) :
  disk st = Some files -> files <> [] -> well_formed files ->
  exists deleted kept remaining st',
    Permutation (deleted ++ kept) files
    /\ trimCache cacheDirectory maxCacheSize env st = (Ok tt, st')
    /\ disk st' = Some remaining
    /\ Permutation kept remaining
    /\ cacheSize st' = total remaining
    /\ (kept = [] \/ 10 * (cacheSize st - total deleted) <= 7 * maxCacheSize)
    /\ (forall done x rest,
           deleted = done ++ x :: rest ->
           7 * maxCacheSize < 10 * (cacheSize st - total done))
    /\ filter is_delete (new_calls st st')
       = map (delete_call cacheDirectory) deleted
    /\ map seen (sort_by_time
                   (file_entries cacheDirectory env (draws st) files))
       = map (as_seen cacheDirectory) (deleted ++ kept).
Proof.
  intros D Nonempty [ND NE].
  unfold trimCache, try_catch, bind at 1, readDirectoryAsync, fs_call.
  rewrite calm_env, (locate_dir cacheDirectory), D. cbv beta iota.
  set (s1 := set_disk (Some files) (log_call (ReadDirectory DIR) true st)).
  rewrite match_nonempty by (now destruct files).
  assert (Hp : forall f, In f files ->
             fst f <> EmptyString /\ lookup (fst f) files = Some (snd f)).
  { intros [k v] I. cbn [fst snd]. split.
    - intros ->. apply NE. now apply (in_map fst _ (EmptyString, v)).
    - now apply lookup_In. }
  destruct (collectFileInfos_run files files Hp s1 eq_refl)
    as (infos & s2 & R2 & S2 & D2 & C2 & O2 & T2).
  pose proof (collectFileInfos_entries files files Hp s1 eq_refl) as EN.
  rewrite R2 in EN. cbn [fst] in EN. injection EN as EN.
  change (draws s1) with (draws st) in EN.
  unfold bind at 1. rewrite R2. unfold bind at 1, get_state.
  pose proof (sort_by_time_Permutation infos) as PS.
  apply (Permutation_map seen) in PS. rewrite S2 in PS.
  apply Permutation_map_inv in PS. destruct PS as (order & S3 & PO).
  assert (ND3 : NoDup (map fst order)).
  { eapply Permutation_NoDup; [apply Permutation_map, PO | exact ND]. }
  assert (NE3 : ~ In EmptyString (map fst order)).
  { intros I. apply NE. eapply Permutation_in; [|exact I].
    apply Permutation_map. now symmetry. }
  destruct (deleteUntilTarget_run order (sort_by_time infos) (cacheSize s2)
              s2 files S3 D2 (Permutation_sym PO) ND3 NE3)
    as (deleted & kept & remaining & s3 & E3 & R3 & D3 & K3 & C3 & O3 & T3
        & Stop & Min).
  unfold bind at 1. rewrite R3. unfold bind, ret.
  rewrite (calculateCacheSize_run s3 remaining D3).
  exists deleted, kept, remaining.
  eexists. split; [|split; [reflexivity|]].
  { rewrite <- E3. now symmetry. }
  assert (CS : cacheSize s2 = cacheSize st) by (now rewrite C2).
  rewrite CS in *.
  repeat split; try assumption.
  2:{ now rewrite <- EN, <- E3. }
  erewrite new_calls_app.
  2:{ cbn [trace set_cacheSize log_call]. rewrite T3, T2. subst s1.
      cbn [trace set_disk log_call]. rewrite <- !app_assoc. reflexivity. }
  rewrite !filter_app. cbn [filter is_delete app].
  rewrite filter_none, filter_all, app_nil_r; [reflexivity | |].
  - intros x I. apply in_map_iff in I. now destruct I as (f & <- & _).
  - intros x I. apply in_map_iff in I. now destruct I as (f & <- & _).
Qed.

(** C1 (amended). When no call rejects, the store is not empty, and
    [cacheSize], once the write is recorded, is above the ceiling and not
    below the total size of the blobs on disk, [updateCacheSize] (the
    recording followed by the trim) leaves [cacheSize] at or below the
    target.  The deletion pass removes a prefix of the sorted entries (the
    entries of the listing put in ascending order of their simulated
    times by [sort_by_time]) and each entry it removed was removed while
    the running total was still above the target: it stops as soon as the
    target is met. *)
Theorem updateCacheSize_trims_to_target
    (newFileSize : Z) (st : State) (files : list (string * Z)) :
  disk st = Some files -> files <> [] -> well_formed files ->
  0 <= maxCacheSize ->
  maxCacheSize < cacheSize st + newFileSize ->
  total files <= cacheSize st + newFileSize ->
  let run := updateCacheSize cacheDirectory maxCacheSize env newFileSize st in
  let st' := snd run in
  let sorted :=
    sort_by_time (file_entries cacheDirectory env (draws st) files) in
  fst run = Ok tt
  /\ at_or_below_target maxCacheSize (cacheSize st')
  /\ StronglySorted not_later sorted
  /\ exists deleted kept remaining,
       map seen sorted = map (as_seen cacheDirectory) (deleted ++ kept)
       /\ Permutation (deleted ++ kept) files
       /\ filter is_delete (new_calls st st')
          = map (delete_call cacheDirectory) deleted
       /\ disk st' = Some remaining
       /\ Permutation kept remaining
       /\ cacheSize st' = total kept
       /\ (forall done x rest,
              deleted = done ++ x :: rest ->
              ~ at_or_below_target maxCacheSize
                  (cacheSize st + newFileSize - total done))
       /\ (kept = []
           \/ at_or_below_target maxCacheSize
                (cacheSize st + newFileSize - total deleted)).
Proof.
  intros D Nonempty WF Pos Over Drift run st' sorted.
  set (recorded := set_cacheSize (cacheSize st + newFileSize) st).
  destruct (trimCache_run recorded files D Nonempty WF)
    as (deleted & kept & remaining & st1 & P & R & D1 & K & C & Stop & Min & F
        & Order).
  change (draws recorded) with (draws st) in Order. fold sorted in Order.
  assert (E : run = (Ok tt, st1)).
  { subst run. unfold updateCacheSize, try_catch, bind, modify, get_state.
    fold recorded. cbn [cacheSize recorded set_cacheSize].
    destruct (Z.ltb_spec maxCacheSize (cacheSize st + newFileSize)); [|lia].
    fold recorded. now rewrite R. }
  subst st'. rewrite E. cbn [fst snd].
  cbn [cacheSize recorded set_cacheSize] in Stop, Min.
  assert (TK : total remaining = total kept)
    by (symmetry; now apply total_Permutation).
  assert (TF : total files = total deleted + total kept)
    by (rewrite <- (total_Permutation _ _ P); apply total_app).
  split; [reflexivity|]. split; [|split].
  - apply at_or_below_target_iff. rewrite C, TK.
    destruct Stop as [-> | Stop]; [change (total []) with 0; lia | lia].
  - apply sort_by_time_sorted.
  - exists deleted, kept, remaining.
    split; [exact Order|].
    split; [exact P|]. split; [exact F|]. split; [exact D1|].
    split; [exact K|]. split; [|split].
    + now rewrite C.
    + intros done x rest Hd B. apply at_or_below_target_iff in B.
      specialize (Min done x rest Hd). lia.
    + destruct Stop as [-> | Stop]; [now left | right].
      now apply at_or_below_target_iff.
Qed.

End Trim.

(** ** The scenarios, evaluated *)

Lemma calm_has_no_faults (randoms : nat -> Q) (bytes : Z) :
  no_faults (calm randoms bytes).
Proof. intros n. reflexivity. Qed.

(** C1, as stated, fails on [st_undercounted]: recording 50 MiB lifts the
    counter to 110 MiB, above the 100 MiB ceiling; no call rejects; the
    trim deletes a.jpg alone (running total 50 MiB) and the recomputed
    [cacheSize] is the 110 MiB still on disk, above the 70 MiB target. *)
Lemma undercounted_trim_misses_target :
  let env := calm first_listed_looks_oldest 0 in
  let run :=
    updateCacheSize platformCache MAX_CACHE_SIZE env (50 * MiB) st_undercounted in
  MAX_CACHE_SIZE < cacheSize st_undercounted + 50 * MiB
  /\ fst run = Ok tt
  /\ new_calls st_undercounted (snd run)
     = [(ReadDirectory "file:///cache/images/", true);
        (GetInfo "file:///cache/images/a.jpg" true, true);
        (GetInfo "file:///cache/images/b.jpg" true, true);
        (GetInfo "file:///cache/images/c.jpg" true, true);
        (Delete "file:///cache/images/a.jpg" false, true);
        (GetInfo "file:///cache/images/" true, true)]
  /\ cacheSize (snd run) = 110 * MiB
  /\ ~ at_or_below_target MAX_CACHE_SIZE (cacheSize (snd run)).
Proof.
  cbv zeta. repeat split; try (vm_compute; reflexivity).
  rewrite at_or_below_target_iff. vm_compute. intros H. now apply H.
Qed.

(** The state of the previous lemma arises in use: resolving three urls on
    an empty cache, with the stat after the second download rejecting,
    leaves b.jpg on disk but uncounted; the third call, in which every
    call succeeds, records its write, trims, and ends with a [cacheSize]
    of 110 MiB. *)
Lemma undercount_arises_from_a_failed_stat :
  let resolve :=
    getCachedImageUri platformCache MAX_CACHE_SIZE one_failed_stat in
  let s1 := snd (resolve url_a st_empty) in
  let second := resolve url_b s1 in
  let s3 := snd (resolve url_c (snd second)) in
  fst second = Ok url_b
  /\ cacheSize (snd second) = 60 * MiB
  /\ disk (snd second) = Some [("a.jpg", 60 * MiB); ("b.jpg", 60 * MiB)]
  /\ new_calls (snd second) s3
     = [(GetInfo "file:///cache/images/c.jpg" false, true);
        (Download url_c "file:///cache/images/c.jpg", true);
        (GetInfo "file:///cache/images/c.jpg" true, true);
        (ReadDirectory "file:///cache/images/", true);
        (GetInfo "file:///cache/images/a.jpg" true, true);
        (GetInfo "file:///cache/images/b.jpg" true, true);
        (GetInfo "file:///cache/images/c.jpg" true, true);
        (Delete "file:///cache/images/a.jpg" false, true);
        (GetInfo "file:///cache/images/" true, true)]
  /\ cacheSize s3 = 110 * MiB
  /\ ~ at_or_below_target MAX_CACHE_SIZE (cacheSize s3).
Proof.
  cbv zeta. repeat split; try (vm_compute; reflexivity).
  rewrite at_or_below_target_iff. vm_compute. intros H. now apply H.
Qed.

(** The theorem on [st_before_record]: the counter, with the last 20 MiB
    recorded, equals the 110 MiB on disk, and the trim brings it to the target. *)
Lemma updateCacheSize_trims_to_target_witness :
  let env := calm first_listed_looks_oldest 0 in
  at_or_below_target MAX_CACHE_SIZE
    (cacheSize (snd (updateCacheSize platformCache MAX_CACHE_SIZE env
                                     (20 * MiB) st_before_record))).
Proof.
  cbv zeta.
  refine (proj1 (proj2 (updateCacheSize_trims_to_target
            platformCache MAX_CACHE_SIZE (calm first_listed_looks_oldest 0)
            (calm_has_no_faults _ _) (20 * MiB) st_before_record
            [("a.jpg", 60 * MiB); ("b.jpg", 30 * MiB); ("c.jpg", 20 * MiB)]
            eq_refl _ _ _ _ _))).
  - discriminate.
  - split.
    + cbn [map fst]. repeat constructor; cbn; intuition discriminate.
    + cbn [map fst]. cbn. intuition discriminate.
  - vm_compute. discriminate.
  - vm_compute. reflexivity.
  - vm_compute. discriminate.
Defined.

(** C2 on the code: with ceiling 1000, blobs A, B, C of 400 bytes and a
    counter of 1200, [trimCache] orders the blobs by times it draws at
    random.  When the draws make A look newest, it deletes C and then B,
    and A remains: C, the newest blob of the scenario, does not survive. *)
Theorem scenario_trim_deletes_newest :
  let env := calm first_listed_looks_newest 0 in
  let st' := snd (trimCache platformCache 1000 env st_scenario) in
  filter is_delete (new_calls st_scenario st')
  = [(Delete "file:///cache/images/C" false, true);
     (Delete "file:///cache/images/B" false, true)]
  /\ disk st' = Some [("A", 400)]
  /\ cacheSize st' = 400.
Proof. cbv zeta. repeat split; vm_compute; reflexivity. Qed.

(** When the draws happen to agree with the ages, the trim of the scenario
    does what the specification describes: A, then B, and C remains. *)
Lemma scenario_trim_with_lucky_draws :
  let env := calm first_listed_looks_oldest 0 in
  let st' := snd (trimCache platformCache 1000 env st_scenario) in
  filter is_delete (new_calls st_scenario st')
  = [(Delete "file:///cache/images/A" false, true);
     (Delete "file:///cache/images/B" false, true)]
  /\ disk st' = Some [("C", 400)]
  /\ cacheSize st' = 400.
Proof. cbv zeta. repeat split; vm_compute; reflexivity. Qed.

(** C3, as stated, fails on [st_no_directory]: [clearCache] finds no
    directory, deletes and creates nothing, and the directory is still
    absent afterwards. *)
Lemma clearCache_leaves_directory_absent :
  let run := clearCache platformCache (calm no_randoms 0) st_no_directory in
  fst run = Ok tt
  /\ disk (snd run) = None
  /\ disk (snd run) <> Some [].
Proof. cbv zeta. repeat split; try (vm_compute; reflexivity). discriminate. Qed.

(** The theorem on [st_three]. *)
Lemma clearCache_resets_witness :
  let st1 := snd (clearCache platformCache (calm no_randoms 0) st_three) in
  cacheSize st1 = 0 /\ disk st1 = Some [].
Proof.
  cbv zeta.
  destruct (clearCache_resets platformCache (calm no_randoms 0) st_three
              (calm_has_no_faults _ _)) as (_ & C & _ & D & _).
  split; [exact C | apply D; discriminate].
Defined.

(** The theorem on a disabled service and on the empty url. *)
Lemma resolve_pass_through_witness :
  getCachedImageUri platformCache MAX_CACHE_SIZE (calm no_randoms MiB)
                    poster_url st_disabled
  = (Ok poster_url, st_disabled)
  /\ getCachedImageUri platformCache MAX_CACHE_SIZE (calm no_randoms MiB)
                       EmptyString st_empty
     = (Ok EmptyString, st_empty).
Proof.
  split.
  - apply resolve_pass_through. left. reflexivity.
  - apply resolve_pass_through. right. reflexivity.
Defined.

(** C5, as stated, fails on [st_full] when the listing of the directory
    inside the trim (the fourth call) rejects: the failure happens while
    the size is recorded, yet the local reference is returned, not the
    url, and [cacheSize] has grown by the megabyte downloaded. *)
Lemma size_recording_failure_is_absorbed :
  let env := failing_at 3 no_randoms MiB in
  let run := getCachedImageUri platformCache MAX_CACHE_SIZE env poster_url st_full in
  isEnabled st_full = true
  /\ nth_error (new_calls st_full (snd run)) 3
     = Some (ReadDirectory "file:///cache/images/", false)
  /\ fst run = Ok "file:///cache/images/poster.jpg"
  /\ fst run <> Ok poster_url
  /\ cacheSize (snd run) = cacheSize st_full + MiB
  /\ cacheSize (snd run) <> cacheSize st_full.
Proof.
  cbv zeta. repeat split; try (vm_compute; reflexivity); vm_compute; discriminate.
Qed.

(** The theorem on [st_empty] with the download rejecting. *)
Lemma fetch_failure_falls_back_witness :
  let env := failing_at 1 no_randoms MiB in
  let run := getCachedImageUri platformCache MAX_CACHE_SIZE env poster_url st_empty in
  fst run = Ok poster_url /\ cacheSize (snd run) = cacheSize st_empty.
Proof.
  cbv zeta.
  destruct (fetch_failure_falls_back platformCache MAX_CACHE_SIZE
              (failing_at 1 no_randoms MiB) poster_url st_empty eq_refl)
    as (_ & F & _).
  - discriminate.
  - destruct F as (R & C & _).
    + exists 1%nat. eexists. split; [lia|]. vm_compute. reflexivity.
    + split; [exact R | exact C].
Defined.

(** C6, as stated, fails on [st_three] when the first delete (the fifth
    call) rejects: the trim stops there.  b.jpg and c.jpg are neither
    looked at nor deleted although the running total, still 120 MiB, is
    above the target; all three blobs remain. *)
Lemma failed_delete_ends_the_trim :
  let env := failing_at 4 first_listed_looks_oldest 0 in
  let run := trimCache platformCache MAX_CACHE_SIZE env st_three in
  fst run = Ok tt
  /\ new_calls st_three (snd run)
     = [(ReadDirectory "file:///cache/images/", true);
        (GetInfo "file:///cache/images/a.jpg" true, true);
        (GetInfo "file:///cache/images/b.jpg" true, true);
        (GetInfo "file:///cache/images/c.jpg" true, true);
        (Delete "file:///cache/images/a.jpg" false, false)]
  /\ disk (snd run) = disk st_three
  /\ cacheSize (snd run) = 120 * MiB
  /\ ~ at_or_below_target MAX_CACHE_SIZE (cacheSize (snd run)).
Proof.
  cbv zeta. repeat split; try (vm_compute; reflexivity).
  rewrite at_or_below_target_iff. vm_compute. intros H. now apply H.
Qed.

(** The theorem on [st_three] with the first delete rejecting. *)
Lemma trimCache_stops_at_failed_delete_witness :
  let env := failing_at 4 first_listed_looks_oldest 0 in
  let st' := snd (trimCache platformCache MAX_CACHE_SIZE env st_three) in
  cacheSize st' = cacheSize st_three.
Proof.
  cbv zeta.
  destruct (trimCache_stops_at_failed_delete platformCache MAX_CACHE_SIZE
              (failing_at 4 first_listed_looks_oldest 0) st_three)
    as (_ & F).
  destruct (F 4%nat "file:///cache/images/a.jpg" false) as (_ & C & _).
  - vm_compute. reflexivity.
  - exact C.
Defined.

(** C7, as stated, fails on [st_empty] for a body of 101 MiB: no call
    rejects and the url is not cached, but recording the download lifts the
    counter above the ceiling, and the trim that follows deletes the only
    blob there is, the one just stored.  The second call misses and
    downloads again: two downloads, not one. *)
Lemma trim_evicts_the_new_blob :
  let env := calm no_randoms (101 * MiB) in
  let first := getCachedImageUri platformCache MAX_CACHE_SIZE env poster_url st_empty in
  let second :=
    getCachedImageUri platformCache MAX_CACHE_SIZE env poster_url (snd first) in
  fi_exists (stat platformCache (disk st_empty)
                  "file:///cache/images/poster.jpg") = false
  /\ new_calls st_empty (snd first)
     = [(GetInfo "file:///cache/images/poster.jpg" false, true);
        (Download poster_url "file:///cache/images/poster.jpg", true);
        (GetInfo "file:///cache/images/poster.jpg" true, true);
        (ReadDirectory "file:///cache/images/", true);
        (GetInfo "file:///cache/images/poster.jpg" true, true);
        (Delete "file:///cache/images/poster.jpg" false, true);
        (GetInfo "file:///cache/images/" true, true)]
  /\ fst first = Ok "file:///cache/images/poster.jpg"
  /\ disk (snd first) = Some []
  /\ new_calls (snd first) (snd second)
     = [(GetInfo "file:///cache/images/poster.jpg" false, true);
        (Download poster_url "file:///cache/images/poster.jpg", true);
        (GetInfo "file:///cache/images/poster.jpg" true, true);
        (ReadDirectory "file:///cache/images/", true);
        (GetInfo "file:///cache/images/poster.jpg" true, true);
        (Delete "file:///cache/images/poster.jpg" false, true);
        (GetInfo "file:///cache/images/" true, true)]
  /\ List.length (filter is_download (new_calls st_empty (snd second))) = 2%nat.
Proof.
  cbv zeta. repeat split; vm_compute; reflexivity.
Qed.

(** The theorem on [st_empty] for a body of one megabyte. *)
Lemma second_resolve_is_hit_witness :
  let env := calm no_randoms MiB in
  let first := getCachedImageUri platformCache MAX_CACHE_SIZE env poster_url st_empty in
  let second :=
    getCachedImageUri platformCache MAX_CACHE_SIZE env poster_url (snd first) in
  fst second = fst first
  /\ List.length (filter is_download (new_calls st_empty (snd second))) = 1%nat.
Proof.
  cbv zeta.
  destruct (second_resolve_is_hit platformCache MAX_CACHE_SIZE
              (calm no_randoms MiB) (calm_has_no_faults _ _)
              poster_url st_empty [] eq_refl)
    as (R1 & _ & _ & R2 & _ & _ & _ & N).
  - discriminate.
  - reflexivity.
  - vm_compute. reflexivity.
  - vm_compute. discriminate.
  - split; [now rewrite R1, R2 | exact N].
Defined.

(** C8, as stated, fails for [setEnabled]: when the settings write
    rejects, the rejection reaches the caller. *)
Lemma setEnabled_propagates_settings_failure :
  fst (setEnabled platformCache (failing_at 0 no_randoms 0) true st_empty)
  = Throw.
Proof. vm_compute. reflexivity. Qed.

(** The theorem on [st_three] with the settings write rejecting. *)
Lemma failures_recovered_witness :
  setEnabled platformCache (failing_at 0 no_randoms 0) false st_three
  = (Throw,
     log_call (SetItem IMAGE_CACHE_ENABLED_KEY "false") false
              (set_isEnabled false st_three)).
Proof.
  destruct (failures_recovered_except_settings_write platformCache
              MAX_CACHE_SIZE (failing_at 0 no_randoms 0) st_three)
    as (_ & _ & _ & _ & _ & S).
  destruct (S false) as [_ T]. apply T. reflexivity.
Defined.

(** C9, as stated, fails on [st_three] when the delete inside the clear
    (the third call) rejects: [setEnabled false] completes and the flag
    is stored, yet the three blobs and the counter of 120 MiB remain. *)
Lemma failed_clear_leaves_blobs :
  let env := failing_at 2 no_randoms 0 in
  let run := setEnabled platformCache env false st_three in
  fst run = Ok tt
  /\ new_calls st_three (snd run)
     = [(SetItem IMAGE_CACHE_ENABLED_KEY "false", true);
        (GetInfo "file:///cache/images/" false, true);
        (Delete "file:///cache/images/" true, false)]
  /\ lookup IMAGE_CACHE_ENABLED_KEY (storage (snd run)) = Some "false"
  /\ isImageCacheEnabled (snd run) = false
  /\ disk (snd run) = disk st_three
  /\ ~ store_empty (disk (snd run))
  /\ cacheSize (snd run) = 120 * MiB
  /\ cacheSize (snd run) <> 0.
Proof.
  cbv zeta. repeat split; try (vm_compute; reflexivity); vm_compute; discriminate.
Qed.

(** The theorem on [st_three]. *)
Lemma setEnabled_false_clears_witness :
  let off := snd (setEnabled platformCache (calm no_randoms 0) false st_three) in
  store_empty (disk off) /\ cacheSize off = 0 /\ isImageCacheEnabled off = false.
Proof.
  cbv zeta.
  destruct (setEnabled_false_clears platformCache (calm no_randoms 0) st_three
              (calm_has_no_faults _ _)) as (_ & _ & E & C & R).
  destruct (R false) as (_ & _ & I & _).
  split; [exact E | split; [exact C | exact I]].
Defined.

(** The theorem on [st_three] with the stat rejecting. *)
Lemma calculateCacheSize_stat_failure_witness :
  let env := failing_at 0 no_randoms 0 in
  let run := calculateCacheSize platformCache env st_three in
  fst run = Ok 0 /\ cacheSize (snd run) = 120 * MiB.
Proof.
  cbv zeta.
  destruct (calculateCacheSize_stat_failure platformCache
              (failing_at 0 no_randoms 0) st_three eq_refl)
    as (st' & R & C & _).
  rewrite R. split; [reflexivity | exact C].
Defined.

(** ** Keys derived from urls *)

Lemma string_app_assoc (a b c : string) :
  ((a ++ b) ++ c)%string = (a ++ (b ++ c))%string.
Proof. induction a as [|x a IH]; cbn; [reflexivity | now rewrite IH]. Qed.

Lemma string_app_nil_r (a : string) : (a ++ EmptyString)%string = a.
Proof. induction a as [|x a IH]; cbn; [reflexivity | now rewrite IH]. Qed.

Lemma string_forall_impl (p q : ascii -> bool) (s : string) :
  (forall c, p c = true -> q c = true) ->
  string_forall p s = true -> string_forall q s = true.
Proof.
  intros H. induction s as [|c s IH]; cbn; [reflexivity|].
  rewrite !andb_true_iff. intros [Hc Hs]. split; [now apply H | now apply IH].
Qed.

Lemma split_slash_nonempty (s : string) : split_slash s <> [].
Proof.
  destruct s as [|c s]; cbn; [discriminate|].
  destruct (Ascii.eqb c "/"); [discriminate|].
  destruct (split_slash s); discriminate.
Qed.

(** Below a slash there are at least two pieces. *)
Lemma split_slash_two_pieces (a b : string) :
  exists p q r, split_slash (a ++ String "/" b)%string = p :: q :: r.
Proof.
  induction a as [|c a IH]; cbn.
  - destruct (split_slash b) as [|q r] eqn:E; [now apply split_slash_nonempty in E|].
    now exists EmptyString, q, r.
  - destruct IH as (p & q & r & E). rewrite E.
    destruct (Ascii.eqb c "/"); eauto.
Qed.

Lemma last_split_slash_app (a b : string) :
  last (split_slash (a ++ String "/" b)%string) EmptyString
  = last (split_slash b) EmptyString.
Proof.
  induction a as [|c a IH]; cbn [append split_slash].
  - rewrite Ascii.eqb_refl.
    destruct (split_slash b) eqn:E; [now apply split_slash_nonempty in E|].
    reflexivity.
  - destruct (split_slash_two_pieces a b) as (p & q & r & E).
    rewrite E in *. destruct (Ascii.eqb c "/"); exact IH.
Qed.

Lemma split_slash_no_slash (s : string) :
  string_forall is_not_slash s = true -> split_slash s = [s].
Proof.
  induction s as [|c s IH]; cbn; [reflexivity|].
  unfold is_not_slash at 1. rewrite andb_true_iff, negb_true_iff.
  intros [Hc Hs]. now rewrite Hc, IH.
Qed.

Lemma is_key_char_not_slash (c : ascii) :
  is_key_char c = true -> is_not_slash c = true.
Proof.
  unfold is_not_slash. destruct (Ascii.eqb_spec c "/") as [->|]; [|reflexivity].
  discriminate.
Qed.

Lemma is_safe_char_is_key_char (c : ascii) :
  is_safe_char c = true -> is_key_char c = true.
Proof. unfold is_key_char. now intros ->. Qed.

Lemma replace_unsafe_key_chars (s : string) :
  string_forall is_key_char (replace_unsafe s) = true.
Proof.
  induction s as [|c s IH]; cbn; [reflexivity|].
  rewrite IH, andb_true_r. destruct (is_safe_char c) eqn:E.
  - now apply is_safe_char_is_key_char.
  - reflexivity.
Qed.

Lemma replace_unsafe_safe (s : string) :
  string_forall is_safe_char s = true -> replace_unsafe s = s.
Proof.
  induction s as [|c s IH]; cbn; [reflexivity|].
  rewrite andb_true_iff. intros [Hc Hs]. now rewrite Hc, IH.
Qed.

Lemma replace_unsafe_idempotent (s : string) :
  replace_unsafe (replace_unsafe s) = replace_unsafe s.
Proof.
  induction s as [|c s IH]; cbn; [reflexivity|].
  rewrite IH. destruct (is_safe_char c) eqn:E; [now rewrite E | reflexivity].
Qed.

(** Only what follows the last slash of a url reaches its key. *)
Lemma getFilenameFromUrl_after_slash (a b : string) :
  getFilenameFromUrl (a ++ String "/" b)%string = getFilenameFromUrl b.
Proof. unfold getFilenameFromUrl. now rewrite last_split_slash_app. Qed.

Lemma getFilenameFromUrl_no_slash (url : string) :
  string_forall is_not_slash (getFilenameFromUrl url) = true.
Proof.
  apply (string_forall_impl _ _ _ is_key_char_not_slash).
  apply replace_unsafe_key_chars.
Qed.

(** X1. The key of every url is made of characters of [a-zA-Z0-9._] only;
    in particular it contains no slash. *)
Theorem getFilenameFromUrl_is_filesystem_safe (url : string) :
  string_forall is_key_char (getFilenameFromUrl url) = true
  /\ string_forall is_not_slash (getFilenameFromUrl url) = true.
Proof.
  split; [apply replace_unsafe_key_chars | apply getFilenameFromUrl_no_slash].
Qed.

(** X2. Deriving a key is idempotent: the key of a key is that key. *)
Theorem getFilenameFromUrl_idempotent (url : string) :
  getFilenameFromUrl (getFilenameFromUrl url) = getFilenameFromUrl url.
Proof.
  pose proof (getFilenameFromUrl_no_slash url) as N.
  unfold getFilenameFromUrl at 1. rewrite (split_slash_no_slash _ N).
  cbn [last]. apply replace_unsafe_idempotent.
Qed.

Lemma getImageUrl_key (name size : string) :
  getFilenameFromUrl (getImageUrl (String "/" name) size)
  = getFilenameFromUrl name.
Proof.
  unfold getImageUrl.
  replace (IMAGE_BASE_URL ++ "/" ++ size ++ String "/" name)%string
    with ((IMAGE_BASE_URL ++ "/" ++ size) ++ String "/" name)%string
    by now rewrite !string_app_assoc.
  apply getFilenameFromUrl_after_slash.
Qed.

(** X3. The image urls of one TMDB path in two sizes have the same key:
    the size is a segment before the last slash and never reaches the
    key. *)
Theorem image_sizes_share_a_key (name size1 size2 : string) :
  getFilenameFromUrl (getImageUrl (String "/" name) size1)
  = getFilenameFromUrl (getImageUrl (String "/" name) size2).
Proof. now rewrite !getImageUrl_key. Qed.

(** ** The counter and the disk stay together *)

Lemma upsert_absent V (k : string) (v : V) (l : list (string * V)) :
  lookup k l = None -> upsert k v l = l ++ [(k, v)].
Proof.
  induction l as [|[k' v'] l IH]; cbn; [reflexivity|].
  destruct (String.eqb k k'); [discriminate|]. intros H. now rewrite IH.
Qed.

Lemma lookup_None_not_In V (k : string) (l : list (string * V)) :
  lookup k l = None -> ~ In k (map fst l).
Proof.
  induction l as [|[k' v'] l IH]; cbn; [tauto|].
  destruct (String.eqb_spec k k') as [->|N]; [discriminate|].
  intros H [E | I]; [now apply N | now apply IH].
Qed.

Lemma well_formed_nil : well_formed [].
Proof. split; [constructor | intros []]. Qed.

Lemma well_formed_add (files : list (string * Z)) (name : string) (bytes : Z) :
  well_formed files -> name <> EmptyString -> lookup name files = None ->
  well_formed (files ++ [(name, bytes)]).
Proof.
  intros [ND NE] Hn Hl. apply lookup_None_not_In in Hl.
  unfold well_formed. rewrite map_app. cbn [map fst]. split.
  - apply NoDup_app; [exact ND | repeat constructor; intros [] |].
    intros x I [<- | []]. now apply Hl.
  - rewrite in_app_iff. intros [I | [E | []]]; [now apply NE | now apply Hn].
Qed.

Lemma well_formed_kept (files deleted kept remaining : list (string * Z)) :
  well_formed files ->
  Permutation (deleted ++ kept) files -> Permutation kept remaining ->
  well_formed remaining.
Proof.
  intros [ND NE] P K.
  assert (Q : Permutation (map fst deleted ++ map fst remaining) (map fst files)).
  { rewrite <- (Permutation_map fst K), <- map_app. now apply Permutation_map. }
  split.
  - apply (Permutation_NoDup (Permutation_sym Q)) in ND.
    now apply NoDup_app_remove_l in ND.
  - intros I. apply NE. apply (Permutation_in _ Q).
    apply in_or_app. now right.
Qed.

Section Invariant.
Variable cacheDirectory : string.
Variable maxCacheSize : Z.
Variable env : Env.
Hypothesis calm_env : no_faults env.
Hypothesis ceiling_not_negative : 0 <= maxCacheSize.

Local Abbreviation DIR := (IMAGE_CACHE_DIR cacheDirectory).

Lemma updateCacheSize_unfold (n : Z) (st : State) :
  updateCacheSize cacheDirectory maxCacheSize env n st
  = (Ok tt,
     if maxCacheSize <? cacheSize st + n
     then snd (trimCache cacheDirectory maxCacheSize env
                         (set_cacheSize (cacheSize st + n) st))
     else set_cacheSize (cacheSize st + n) st).
Proof.
  unfold updateCacheSize, try_catch, bind, modify, get_state.
  cbn [cacheSize set_cacheSize].
  destruct (maxCacheSize <? cacheSize st + n); [|reflexivity].
  destruct (trimCache_never_throws cacheDirectory maxCacheSize env
              (set_cacheSize (cacheSize st + n) st)) as ([] & st' & E).
  now rewrite E.
Qed.

(** A miss, whatever the size of the body. *)
Lemma resolve_miss_unfold (url : string) (st : State) files :
  let name := getFilenameFromUrl url in
  let path := (DIR ++ name)%string in
  let bytes := remote env url in
  isEnabled st = true -> url <> EmptyString ->
  disk st = Some files ->
  fi_exists (stat cacheDirectory (disk st) path) = false ->
  let stored :=
    log_call (GetInfo path true) true
      (set_disk (Some (upsert name bytes files))
         (log_call (Download url path) true
            (log_call (GetInfo path false) true st))) in
  getCachedImageUri cacheDirectory maxCacheSize env url st
  = (Ok path,
     if bytes =? 0 then stored
     else snd (updateCacheSize cacheDirectory maxCacheSize env bytes stored)).
Proof.
  intros name path bytes En Nonempty D X stored.
  unfold getCachedImageUri, bind at 1, get_state.
  rewrite En. cbn [negb orb].
  destruct (String.eqb_spec url EmptyString) as [|_]; [contradiction|].
  fold name. fold path. unfold try_catch, bind at 1.
  rewrite (getInfoAsync_run cacheDirectory env calm_env), X.
  rewrite D in X.
  destruct (miss_is_a_file cacheDirectory _ _ X) as [L Miss].
  fold path in L.
  unfold bind at 1, downloadAsync, fs_call.
  rewrite calm_env. cbn [disk log_call]. fold path. rewrite L, D.
  unfold bind at 1. rewrite (getInfoAsync_run cacheDirectory env calm_env).
  cbn [disk log_call set_disk].
  unfold stat at 1 2. fold path. rewrite L. fold bytes.
  rewrite lookup_upsert. unfold has_size, size_or_zero.
  cbn [fi_exists fi_size andb]. fold stored.
  destruct (bytes =? 0) eqn:Z0; cbn [negb]; unfold bind, ret.
  - reflexivity.
  - now rewrite updateCacheSize_unfold.
Qed.

Lemma consistent_after_trim (st : State) (files : list (string * Z)) :
  disk st = Some files -> files <> [] -> well_formed files ->
  cacheSize st = total files ->
  consistent maxCacheSize (snd (trimCache cacheDirectory maxCacheSize env st)).
Proof.
  intros D Nonempty WF Exact.
  destruct (trimCache_run cacheDirectory maxCacheSize env calm_env st files
              D Nonempty WF)
    as (deleted & kept & remaining & st' & P & R & D' & K & C & Stop & _).
  rewrite R. cbn [snd]. exists remaining.
  split; [exact D'|]. split; [now apply (well_formed_kept files deleted kept)|].
  split; [exact C|].
  assert (TF : total files = total deleted + total kept)
    by (rewrite <- (total_Permutation _ _ P); apply total_app).
  rewrite C, <- (total_Permutation _ _ K).
  destruct Stop as [-> | Stop]; [change (total []) with 0; lia | lia].
Qed.

Lemma getCachedImageUri_keeps_consistent (url : string) (st : State) :
  consistent maxCacheSize st ->
  consistent maxCacheSize
    (snd (getCachedImageUri cacheDirectory maxCacheSize env url st)).
Proof.
  intros (files & D & WF & Exact & Below).
  destruct (isEnabled st) eqn:En.
  2:{ unfold getCachedImageUri, bind, get_state. rewrite En. cbn.
      now exists files. }
  destruct (String.eqb_spec url EmptyString) as [->|Nonempty].
  { unfold getCachedImageUri, bind, get_state. rewrite En. cbn.
    now exists files. }
  set (name := getFilenameFromUrl url).
  set (path := (DIR ++ name)%string).
  destruct (fi_exists (stat cacheDirectory (disk st) path)) eqn:X.
  { rewrite (resolve_hit_run cacheDirectory maxCacheSize env calm_env url st
               En Nonempty X).
    now exists files. }
  rewrite (resolve_miss_unfold url st files En Nonempty D X).
  fold name. fold path. cbn [snd].
  pose proof X as X'. rewrite D in X'.
  destruct (miss_is_a_file cacheDirectory _ _ X') as [L Miss]. fold name in Miss.
  assert (Hn : name <> EmptyString).
  { intros E. fold name in L. rewrite E in L.
    rewrite (locate_under cacheDirectory) in L. discriminate. }
  set (bytes := remote env url).
  rewrite (upsert_absent _ _ _ _ Miss).
  assert (WF' : well_formed (files ++ [(name, bytes)]))
    by now apply well_formed_add.
  assert (T' : total (files ++ [(name, bytes)]) = total files + bytes).
  { rewrite total_app, total_cons. cbn. lia. }
  destruct (Z.eqb_spec bytes 0) as [Z0 | NZ].
  { exists (files ++ [(name, bytes)]). cbn [disk cacheSize log_call set_disk].
    repeat split; try apply WF'; try assumption; lia. }
  rewrite updateCacheSize_unfold. cbn [cacheSize log_call set_disk].
  destruct (Z.ltb_spec maxCacheSize (cacheSize st + bytes)) as [Over | Fit].
  - apply (consistent_after_trim _ (files ++ [(name, bytes)])).
    + reflexivity.
    + now destruct files.
    + exact WF'.
    + cbn [cacheSize set_cacheSize]. lia.
  - exists (files ++ [(name, bytes)]).
    cbn [snd disk cacheSize log_call set_disk set_cacheSize].
    repeat split; try apply WF'; lia.
Qed.

Lemma run_operation_keeps_consistent (op : Operation) (st : State) :
  consistent maxCacheSize st ->
  consistent maxCacheSize (run_operation cacheDirectory maxCacheSize env st op).
Proof.
  intros C. destruct op as [url | enabled | |]; cbn [run_operation].
  - now apply getCachedImageUri_keeps_consistent.
  - destruct C as (files & D & WF & Exact & Below).
    destruct (setEnabled_run cacheDirectory env enabled st calm_env)
      as (st' & R & _ & _ & C' & D').
    rewrite R. cbn [snd]. rewrite D in D'.
    destruct enabled.
    + exists files. rewrite C', D'.
      split; [reflexivity|]. split; [exact WF|]. now split.
    + exists []. rewrite C', D'.
      split; [reflexivity|]. split; [exact well_formed_nil|].
      split; [reflexivity | exact ceiling_not_negative].
  - destruct C as (files & D & WF & Exact & Below).
    destruct (clearCache_run cacheDirectory env st calm_env)
      as (st' & R & C' & D' & _).
    rewrite R. cbn [snd]. rewrite D in D'.
    exists []. rewrite C', D'.
    split; [reflexivity|]. split; [exact well_formed_nil|].
    split; [reflexivity | exact ceiling_not_negative].
  - destruct C as (files & D & WF & Exact & Below).
    rewrite (calculateCacheSize_run cacheDirectory env calm_env st files D).
    cbn [snd]. exists files.
    cbn [disk cacheSize set_cacheSize log_call].
    split; [exact D|]. split; [exact WF|]. split; [reflexivity | lia].
Qed.

(** X4. Bounded storage.  When no call rejects and the ceiling is not
    negative, every sequence of public calls ([getCachedImageUri],
    [setEnabled], [clearCache], [calculateCacheSize]) started in a
    consistent state ends in a consistent state: the directory exists, the
    counter equals the total size of the blobs on disk, and that total is
    at most the ceiling. *)
Theorem operations_keep_storage_bounded (ops : list Operation) (st : State) :
  consistent maxCacheSize st ->
  consistent maxCacheSize
    (run_operations cacheDirectory maxCacheSize env ops st).
Proof.
  unfold run_operations. revert st.
  induction ops as [|op ops IH]; intros st C; cbn [fold_left]; [exact C|].
  apply IH. now apply run_operation_keeps_consistent.
Qed.

End Invariant.

(** ** Start-up, settings and recomputation *)

Section Settings.
Variable cacheDirectory : string.
Variable maxCacheSize : Z.
Variable env : Env.

Local Abbreviation DIR := (IMAGE_CACHE_DIR cacheDirectory).

Lemma getInfoAsync_ok (path : string) (withSize : bool) (st : State) :
  faults env (List.length (trace st)) = false ->
  getInfoAsync cacheDirectory env path withSize st
  = (Ok (stat cacheDirectory (disk st) path),
     log_call (GetInfo path withSize) true st).
Proof.
  intros H. unfold getInfoAsync, fs_call. rewrite H. now destruct st.
Qed.

(** [loadSettings] when its calls succeed: the flag is read from the
    settings and the counter from the disk. *)
Lemma loadSettings_run (st : State) :
  no_faults env ->
  exists st',
    loadSettings cacheDirectory env st = (Ok tt, st')
    /\ isEnabled st' =
       negb (match lookup IMAGE_CACHE_ENABLED_KEY (storage st) with
             | Some v => String.eqb v "false"
             | None => false
             end)
    /\ storage st' = storage st
    /\ disk st' = disk st
    /\ cacheSize st' = match disk st with
                       | Some files => total files
                       | None => 0
                       end.
Proof.
  intros NF.
  unfold loadSettings, try_catch, bind at 1, getItem, kv_call.
  rewrite NF. cbv beta iota zeta. unfold bind at 1, modify.
  unfold bind at 1, calculateCacheSize, try_catch, bind at 1.
  rewrite (getInfoAsync_run cacheDirectory env NF).
  rewrite (stat_dir cacheDirectory).
  cbn [disk set_isEnabled set_storage log_call].
  destruct (disk st) as [files|] eqn:D;
    cbn [fi_exists fi_isDirectory absent andb];
    unfold bind, modify, get_state, ret;
    (eexists; split; [reflexivity|]);
    cbn [isEnabled storage disk cacheSize set_cacheSize set_isEnabled
         set_storage log_call size_or_zero fi_size];
    now rewrite ?D.
Qed.

(** Once a method has finished, or has only a segment left that does
    nothing, the other one runs to its end. *)
Lemma run_both_left_finished (schedule : list bool) :
  forall b s, run_both schedule Finished b s = run_alone b s.
Proof.
  induction schedule as [|[] schedule IH]; intros b s;
    cbn [run_both run_alone]; try reflexivity.
  destruct b as [|resume]; [reflexivity|]. cbn [run_alone].
  destruct (resume s) as [b' s']. apply IH.
Qed.

Lemma run_both_right_finished (schedule : list bool) :
  forall a s, run_both schedule a Finished s = run_alone a s.
Proof.
  induction schedule as [|[] schedule IH]; intros a s;
    cbn [run_both run_alone]; try reflexivity.
  destruct a as [|resume]; [reflexivity|]. cbn [run_alone].
  destruct (resume s) as [a' s']. apply IH.
Qed.

Lemma run_both_left_idle (schedule : list bool)
    (idle : State -> Task * State) :
  (forall s, idle s = (Finished, s)) ->
  forall b s, run_both schedule (Suspended idle) b s = run_alone b s.
Proof.
  intros H.
  induction schedule as [|[] schedule IH]; intros b s;
    cbn [run_both run_alone].
  - now rewrite H.
  - rewrite H. apply run_both_left_finished.
  - destruct b as [|resume]; [now rewrite H|]. cbn [run_alone].
    destruct (resume s) as [b' s']. apply IH.
Qed.

(** The tasks are the methods: run with nothing in between, a task ends
    in the state in which its method ends, whatever the collaborators
    do. *)
Lemma setupCacheDirectory_task_alone (st : State) :
  run_alone (fst (setupCacheDirectory_task cacheDirectory env st))
            (snd (setupCacheDirectory_task cacheDirectory env st))
  = snd (setupCacheDirectory cacheDirectory env st).
Proof.
  unfold setupCacheDirectory_task, setupCacheDirectory, try_catch, bind.
  destruct (getInfoAsync cacheDirectory env DIR false st) as [[info|] s1];
    cbn [fst snd run_alone setup_checked]; [|reflexivity].
  destruct (negb (fi_exists info)); [|reflexivity].
  now destruct (makeDirectoryAsync cacheDirectory env DIR s1) as [[[]|] s2].
Qed.

Lemma loadSettings_task_alone (st : State) :
  run_alone (fst (loadSettings_task cacheDirectory env st))
            (snd (loadSettings_task cacheDirectory env st))
  = snd (loadSettings cacheDirectory env st).
Proof.
  unfold loadSettings_task, loadSettings, try_catch, bind at 1.
  destruct (getItem env IMAGE_CACHE_ENABLED_KEY st) as [[v|] s1];
    cbn [fst snd run_alone load_read]; [|reflexivity].
  unfold bind at 1, modify. unfold bind at 1.
  unfold calculateCacheSize, try_catch, bind at 1.
  match goal with
  | |- context [getInfoAsync cacheDirectory env DIR true ?s] =>
      destruct (getInfoAsync cacheDirectory env DIR true s) as [[info|] s2]
  end; cbn [fst snd run_alone load_sized]; [|reflexivity].
  unfold bind, modify, get_state, ret.
  now destruct (fi_exists info && fi_isDirectory info).
Qed.

(** The four segments that follow the constructor when no call
    rejects. *)
Lemma setup_checked_absent (s : State) :
  no_faults env -> disk s = None ->
  setup_checked cacheDirectory env (Ok (stat cacheDirectory None DIR)) s
  = (Suspended (setup_made (Ok tt)),
     set_disk (Some []) (log_call (MakeDirectory DIR) true s)).
Proof.
  intros NF D. unfold setup_checked. rewrite (stat_dir cacheDirectory).
  cbn [fi_exists absent negb]. unfold makeDirectoryAsync.
  erewrite fs_call_ok;
    [reflexivity | apply NF | rewrite (locate_dir cacheDirectory), D;
                              reflexivity].
Qed.

Lemma setup_checked_present (files : list (string * Z)) (s : State) :
  setup_checked cacheDirectory env (Ok (stat cacheDirectory (Some files) DIR)) s
  = (Finished, s).
Proof. unfold setup_checked. now rewrite (stat_dir cacheDirectory). Qed.

Lemma load_read_ok (v : option string) (s : State) :
  no_faults env ->
  load_read cacheDirectory env (Ok v) s
  = (Suspended (load_sized (Ok (stat cacheDirectory (disk s) DIR))),
     log_call (GetInfo DIR true) true
       (set_isEnabled (negb (match v with
                             | Some v => String.eqb v "false"
                             | None => false
                             end)) s)).
Proof.
  intros NF. unfold load_read. now rewrite (getInfoAsync_ok _ _ _ (NF _)).
Qed.

Lemma load_sized_ok (d : Disk) (s : State) :
  load_sized (Ok (stat cacheDirectory d DIR)) s
  = (Finished,
     set_cacheSize (match d with Some files => total files | None => 0 end) s).
Proof.
  unfold load_sized. rewrite (stat_dir cacheDirectory). now destruct d.
Qed.

Local Ltac settle Leaf :=
  eapply Leaf;
  cbn [run_alone trace disk cacheSize isEnabled storage set_cacheSize
       set_isEnabled set_disk log_call];
  rewrite <- ?app_assoc; try reflexivity; try assumption.

(** X5. Start-up, whatever the order in which the pending calls of the
    two methods settle.  The constructor issues the stat of the directory
    and then the read of the flag before anything else happens.  When no
    call rejects, once both methods have finished the directory is in
    place (an absent one created empty, the blobs of an existing one
    untouched), the counter equals the total size on disk and the flag
    is as stored: enabled unless the stored value is the text false.  If
    the listing is well formed and within the ceiling, the state is
    consistent. *)
Theorem initialize_makes_consistent (schedule : list bool) (st : State) :
  no_faults env ->
  let files := match disk st with Some files => files | None => [] end in
  let st' := initialize cacheDirectory env schedule st in
  firstn 2 (new_calls st st')
  = [(GetInfo DIR false, true); (GetItem IMAGE_CACHE_ENABLED_KEY, true)]
  /\ disk st' = Some files
  /\ cacheSize st' = total files
  /\ isEnabled st' =
     negb (match lookup IMAGE_CACHE_ENABLED_KEY (storage st) with
           | Some v => String.eqb v "false"
           | None => false
           end)
  /\ storage st' = storage st
  /\ (well_formed files -> total files <= maxCacheSize ->
      consistent maxCacheSize st').
Proof.
  intros NF files st'.
  assert (Main :
    firstn 2 (new_calls st st')
    = [(GetInfo DIR false, true); (GetItem IMAGE_CACHE_ENABLED_KEY, true)]
    /\ disk st' = Some files
    /\ cacheSize st' = total files
    /\ isEnabled st' =
       negb (match lookup IMAGE_CACHE_ENABLED_KEY (storage st) with
             | Some v => String.eqb v "false"
             | None => false
             end)
    /\ storage st' = storage st).
  { subst st'. unfold initialize, setupCacheDirectory_task, loadSettings_task.
    rewrite (getInfoAsync_ok _ _ _ (NF _)).
    unfold getItem, kv_call. rewrite NF. cbv beta iota zeta.
    cbn [storage log_call].
    set (flag := negb (match lookup IMAGE_CACHE_ENABLED_KEY (storage st) with
                       | Some v => String.eqb v "false"
                       | None => false
                       end)).
    set (s0 := set_storage _ _).
    assert (T0 : trace s0
                 = trace st ++ [(GetInfo DIR false, true);
                                (GetItem IMAGE_CACHE_ENABLED_KEY, true)])
      by (subst s0; cbn [trace set_storage log_call];
          now rewrite <- app_assoc).
    assert (S0 : storage s0 = storage st) by reflexivity.
    assert (D0 : disk s0 = disk st) by reflexivity.
    clearbody s0.
    assert (Leaf : forall final rest,
               trace final = trace s0 ++ rest ->
               disk final = Some files ->
               cacheSize final = total files ->
               isEnabled final = flag ->
               storage final = storage s0 ->
               firstn 2 (new_calls st final)
               = [(GetInfo DIR false, true);
                  (GetItem IMAGE_CACHE_ENABLED_KEY, true)]
               /\ disk final = Some files
               /\ cacheSize final = total files
               /\ isEnabled final = flag
               /\ storage final = storage st).
    { intros final rest T D C I S. repeat split; try assumption.
      - erewrite new_calls_app
          by (rewrite T, T0, <- app_assoc; reflexivity).
        reflexivity.
      - now rewrite S. }
    assert (Step : forall s,
               load_read cacheDirectory env
                 (Ok (lookup IMAGE_CACHE_ENABLED_KEY (storage st))) s
               = (Suspended (load_sized (Ok (stat cacheDirectory (disk s) DIR))),
                  log_call (GetInfo DIR true) true (set_isEnabled flag s)))
      by (intros s; apply load_read_ok, NF).
    destruct (disk st) as [fs|] eqn:D; subst files.
    - (* the directory exists: setupCacheDirectory has nothing left to do *)
      rewrite run_both_left_idle by apply setup_checked_present.
      cbn [run_alone]. rewrite Step, D0. cbn [run_alone].
      rewrite load_sized_ok.
      settle Leaf.
    - (* the directory is absent *)
      assert (Made : forall s, disk s = None ->
                 setup_checked cacheDirectory env
                   (Ok (stat cacheDirectory None DIR)) s
                 = (Suspended (setup_made (Ok tt)),
                    set_disk (Some [])
                      (log_call (MakeDirectory DIR) true s)))
        by (intros s Ds; now apply setup_checked_absent).
      assert (Idle : forall s, setup_made (Ok tt) s = (Finished, s))
        by reflexivity.
      destruct schedule as [|[] schedule]; cbn [run_both run_alone].
      + rewrite (Made _ D0). cbn [run_alone]. rewrite Idle.
        cbn [run_alone]. rewrite Step.
        cbn [run_alone]. rewrite load_sized_ok.
        settle Leaf.
      + rewrite (Made _ D0).
        rewrite (run_both_left_idle _ _ Idle).
        cbn [run_alone]. rewrite Step. cbn [run_alone].
        rewrite load_sized_ok.
        settle Leaf.
      + rewrite Step, D0.
        assert (D1 : disk (log_call (GetInfo DIR true) true
                             (set_isEnabled flag s0)) = None) by exact D0.
        destruct schedule as [|[] schedule]; cbn [run_both run_alone].
        * rewrite (Made _ D1). cbn [run_alone]. rewrite Idle.
          cbn [run_alone]. rewrite load_sized_ok.
          settle Leaf.
        * rewrite (Made _ D1).
          rewrite (run_both_left_idle _ _ Idle).
          cbn [run_alone]. rewrite load_sized_ok.
          settle Leaf.
        * rewrite load_sized_ok. rewrite run_both_right_finished.
          cbn [run_alone].
          rewrite (Made _ (D1 : disk (set_cacheSize 0 _) = None)).
          cbn [run_alone]. rewrite Idle. cbn [run_alone].
          change 0 with (total []).
          settle Leaf. }
  destruct Main as (T & D & C & I & S).
  repeat split; try assumption.
  intros WF Below. exists files.
  split; [exact D|]. split; [exact WF|]. split; [exact C | lia].
Qed.

(** X6. The flag survives a restart.  When no call rejects, after
    [setEnabled enabled] a new service object (enabled by default) that
    loads its settings from the same store ends with [isEnabled] equal to
    [enabled]. *)
Theorem enabled_flag_round_trip (enabled : bool) (st restarted : State) :
  no_faults env ->
  storage restarted = storage (snd (setEnabled cacheDirectory env enabled st)) ->
  isImageCacheEnabled (snd (loadSettings cacheDirectory env restarted))
  = enabled.
Proof.
  intros NF S.
  destruct (setEnabled_run cacheDirectory env enabled st NF)
    as (st1 & R1 & _ & S1 & _).
  rewrite R1 in S. cbn [snd] in S.
  destruct (loadSettings_run restarted NF) as (st2 & R2 & I2 & _).
  rewrite R2. cbn [snd]. unfold isImageCacheEnabled.
  rewrite I2, S, S1, lookup_upsert. now destruct enabled.
Qed.

(** X7. When the settings read rejects, [loadSettings] does not reject:
    it logs the error and leaves the flag as it was ([true] on a new
    object).  It also skips the size recomputation that follows the read,
    so the counter keeps its value whatever is on disk. *)
Theorem loadSettings_survives_read_failure (st : State) :
  faults env (List.length (trace st)) = true ->
  let run := loadSettings cacheDirectory env st in
  fst run = Ok tt
  /\ observable (snd run) = observable st
  /\ new_calls st (snd run) = [(GetItem IMAGE_CACHE_ENABLED_KEY, false)]
  /\ console (snd run) = console st ++ ["Error loading cache settings:"].
Proof.
  intros H run. subst run.
  rewrite (loadSettings_read_failure cacheDirectory env st H).
  cbn [fst snd]. repeat split.
  apply new_calls_app. reflexivity.
Qed.

(** X8. When the stat of the directory succeeds, [calculateCacheSize]
    returns the total size of the blobs on disk (0 when the directory is
    absent) and stores that same value in the counter; the disk is not
    touched. *)
Theorem calculateCacheSize_resyncs (st : State) :
  faults env (List.length (trace st)) = false ->
  let onDisk := match disk st with Some files => total files | None => 0 end in
  let run := calculateCacheSize cacheDirectory env st in
  fst run = Ok onDisk
  /\ cacheSize (snd run) = onDisk
  /\ disk (snd run) = disk st
  /\ isEnabled (snd run) = isEnabled st.
Proof.
  intros H onDisk run.
  assert (R : run = (Ok onDisk,
                     set_cacheSize onDisk (log_call (GetInfo DIR true) true st))).
  { subst run onDisk.
    unfold calculateCacheSize, try_catch, bind at 1.
    rewrite (getInfoAsync_ok _ _ _ H), (stat_dir cacheDirectory).
    destruct (disk st) as [files|] eqn:D; reflexivity. }
  rewrite R. now repeat split.
Qed.

(** X9. [clearCache] is not atomic.  When the directory exists and the
    delete succeeds but the re-creation rejects, [clearCache] does not
    reject, the directory is gone, and the counter is not reset: it still
    counts the blobs that were deleted. *)
Theorem clearCache_failed_recreation (st : State) (files : list (string * Z)) :
  disk st = Some files ->
  faults env (List.length (trace st)) = false ->
  faults env (S (List.length (trace st))) = false ->
  faults env (S (S (List.length (trace st)))) = true ->
  let run := clearCache cacheDirectory env st in
  fst run = Ok tt
  /\ disk (snd run) = None
  /\ cacheSize (snd run) = cacheSize st
  /\ new_calls st (snd run)
     = [(GetInfo DIR false, true); (Delete DIR true, true);
        (MakeDirectory DIR, false)]
  /\ console (snd run) = console st ++ ["Error clearing cache:"].
Proof.
  intros D F0 F1 F2 run.
  assert (R : run
              = (Ok tt,
                 log_error "Error clearing cache:"
                   (log_call (MakeDirectory DIR) false
                      (set_disk None
                         (log_call (Delete DIR true) true
                            (log_call (GetInfo DIR false) true st)))))).
  { subst run.
    unfold clearCache, try_catch, bind at 1.
    rewrite (getInfoAsync_ok _ _ _ F0), (stat_dir cacheDirectory), D.
    cbn [fi_exists].
    unfold bind, deleteAsync, makeDirectoryAsync.
    erewrite fs_call_ok;
      [| cbn [trace set_disk log_call]; rewrite length_app, Nat.add_1_r; exact F1
       | cbn [disk set_disk log_call]; rewrite (locate_dir cacheDirectory), D;
         reflexivity].
    rewrite fs_call_fault
      by (cbn [trace set_disk log_call]; rewrite !length_app, !Nat.add_1_r;
          exact F2).
    reflexivity. }
  rewrite R. cbn [fst snd]. repeat split.
  apply new_calls_app. cbn [trace log_error log_call set_disk].
  now rewrite <- !app_assoc.
Qed.

(** X10. A disabled service is inert.  When no call rejects, after
    [setEnabled false] the store holds no entry, and every
    [getCachedImageUri] returns its url and leaves the whole state, trace
    included, as it is: nothing is checked, downloaded or written. *)
Theorem disabled_service_is_inert (st : State) (url : string) :
  no_faults env ->
  let off := snd (setEnabled cacheDirectory env false st) in
  store_empty (disk off)
  /\ cacheSize off = 0
  /\ getCachedImageUri cacheDirectory maxCacheSize env url off = (Ok url, off).
Proof.
  intros NF off.
  destruct (setEnabled_run cacheDirectory env false st NF)
    as (st' & R & I & _ & C & D).
  subst off. rewrite R. cbn [snd].
  split; [rewrite D; now destruct (disk st)|]. split; [exact C|].
  unfold getCachedImageUri, bind, get_state. now rewrite I.
Qed.

End Settings.

(** ** The displayed size *)

(** X11. For a counter that is not negative, [getCacheSizeInMB] is 0
    exactly when the counter is at most 5242 bytes: a cache of up to 5242
    bytes is displayed as empty, and a larger one never is. *)
Theorem getCacheSizeInMB_zero_iff_small (st : State) :
  0 <= cacheSize st ->
  ((getCacheSizeInMB st == 0)%Q <-> cacheSize st <= 5242).
Proof.
  intros Pos. unfold getCacheSizeInMB.
  set (y := (inject_Z (cacheSize st) / 1024 / 1024 * 100 + (1 # 2))%Q).
  pose proof (Qfloor_le y) as Lo. pose proof (Qlt_floor y) as Hi.
  rewrite inject_Z_plus in Hi. change (inject_Z 1) with 1%Q in Hi.
  assert (Y : (y == inject_Z (cacheSize st) * (100 # 1048576) + (1 # 2))%Q)
    by (subst y; field).
  assert (Pos' : (0 <= inject_Z (cacheSize st))%Q)
    by (rewrite <- (Zle_Qle 0); exact Pos).
  set (f := Qfloor y) in *. clearbody f. clearbody y.
  split.
  - intros Zero.
    assert (F0 : (inject_Z f == 0)%Q).
    { setoid_replace (inject_Z f) with (inject_Z f / 100 * 100)%Q by field.
      rewrite Zero. reflexivity. }
    assert (Small : (inject_Z (cacheSize st) < 5243)%Q) by lra.
    rewrite <- (Zlt_Qlt _ 5243) in Small. lia.
  - intros Small.
    assert (Small' : (inject_Z (cacheSize st) <= 5242)%Q)
      by (rewrite <- (Zle_Qle _ 5242); exact Small).
    assert (F0 : f = 0).
    { assert (f < 1) by (rewrite Zlt_Qlt; change (inject_Z 1) with 1%Q; lra).
      assert (-1 < f)
        by (rewrite Zlt_Qlt; change (inject_Z (-1)) with (-1 # 1)%Q; lra).
      lia. }
    rewrite F0. reflexivity.
Qed.

(** ** Keys at work *)

Section Keys.
Variable cacheDirectory : string.
Variable maxCacheSize : Z.
Variable env : Env.

Local Abbreviation DIR := (IMAGE_CACHE_DIR cacheDirectory).

(** X12. A url that ends in a slash has the empty key, so its path is the
    cache directory itself.  On an enabled service whose directory exists,
    when the existence check succeeds, [getCachedImageUri] takes the
    directory for the cached image: it returns the directory's uri, after
    that one check and without any download. *)
Theorem trailing_slash_resolves_to_directory
    (prefix : string) (st : State) (files : list (string * Z)) :
  isEnabled st = true ->
  disk st = Some files ->
  faults env (List.length (trace st)) = false ->
  let url := (prefix ++ "/")%string in
  let run := getCachedImageUri cacheDirectory maxCacheSize env url st in
  getFilenameFromUrl url = EmptyString
  /\ fst run = Ok DIR
  /\ new_calls st (snd run) = [(GetInfo DIR false, true)]
  /\ observable (snd run) = observable st.
Proof.
  intros En D F url run.
  assert (K : getFilenameFromUrl url = EmptyString).
  { subst url. now rewrite getFilenameFromUrl_after_slash. }
  assert (N : url <> EmptyString) by (subst url; now destruct prefix).
  assert (R : run = (Ok DIR, log_call (GetInfo DIR false) true st)).
  { subst run. unfold getCachedImageUri, bind at 1, get_state.
    rewrite En. cbn [negb orb].
    destruct (String.eqb_spec url EmptyString) as [|_]; [contradiction|].
    rewrite K, string_app_nil_r. unfold try_catch, bind.
    rewrite (getInfoAsync_ok cacheDirectory env _ _ _ F).
    now rewrite (stat_dir cacheDirectory), D. }
  rewrite R. cbn [fst snd]. repeat split; try assumption.
  now apply new_calls_app.
Qed.

(** X13. One blob serves every size.  When no call rejects, the directory
    exists, no blob has the key of the TMDB path yet and recording the
    body does not lift the counter above the ceiling, resolving the image
    of the path in one size stores a blob, and resolving the same path in
    any other size afterwards is a hit on that blob: same local reference,
    one existence check, no download; what is on disk is the body of the
    first size. *)
Theorem other_size_hits_first_blob
    (name size1 size2 : string) (st : State) (files : list (string * Z)) :
  no_faults env ->
  let url1 := getImageUrl (String "/" name) size1 in
  let url2 := getImageUrl (String "/" name) size2 in
  let key := getFilenameFromUrl url1 in
  let path := (DIR ++ key)%string in
  isEnabled st = true ->
  disk st = Some files ->
  fi_exists (stat cacheDirectory (disk st) path) = false ->
  cacheSize st + remote env url1 <= maxCacheSize ->
  let first := getCachedImageUri cacheDirectory maxCacheSize env url1 st in
  let second :=
    getCachedImageUri cacheDirectory maxCacheSize env url2 (snd first) in
  fst first = Ok path
  /\ fst second = Ok path
  /\ new_calls (snd first) (snd second) = [(GetInfo path false, true)]
  /\ disk (snd second) = Some (upsert key (remote env url1) files)
  /\ lookup key (upsert key (remote env url1) files) = Some (remote env url1).
Proof.
  intros NF url1 url2 key path En D X Fit first second.
  assert (N1 : url1 <> EmptyString) by discriminate.
  assert (N2 : url2 <> EmptyString) by discriminate.
  assert (K : getFilenameFromUrl url2 = key)
    by (subst key url1 url2; now rewrite !getImageUrl_key).
  pose proof (resolve_miss_run cacheDirectory maxCacheSize env NF url1 st files
                En N1 D X Fit) as R1.
  cbv zeta in R1. fold key in R1. fold path in R1. fold first in R1.
  set (stored := log_call (GetInfo path true) true _) in R1.
  assert (D1 : disk (snd first) = Some (upsert key (remote env url1) files)).
  { rewrite R1. cbn [snd]. now destruct (remote env url1 =? 0). }
  assert (E1 : isEnabled (snd first) = true).
  { rewrite R1. cbn [snd]. now destruct (remote env url1 =? 0). }
  assert (X1 : fi_exists (stat cacheDirectory (disk (snd first))
                               (DIR ++ getFilenameFromUrl url2)%string) = true).
  { rewrite K, D1. rewrite D in X.
    destruct (miss_is_a_file cacheDirectory _ _ X) as [L _].
    unfold stat. fold path in L. fold path. rewrite L.
    now rewrite lookup_upsert. }
  pose proof (resolve_hit_run cacheDirectory maxCacheSize env NF url2
                (snd first) E1 N2 X1) as R2.
  cbv zeta in R2. rewrite K in R2. fold path in R2. fold second in R2.
  repeat split.
  - now rewrite R1.
  - now rewrite R2.
  - apply new_calls_app. now rewrite R2.
  - rewrite R2. exact D1.
  - apply lookup_upsert.
Qed.

End Keys.

(** ** The file name the component derives *)

Lemma lastIndexOf_slash_from_shift (s : string) (i found : Z) :
  lastIndexOf_slash_from s i found
  = if lastIndexOf_slash s <? 0 then found else i + lastIndexOf_slash s.
Proof.
  unfold lastIndexOf_slash. revert i found.
  induction s as [|c s IH]; intros i found; cbn [lastIndexOf_slash_from].
  - reflexivity.
  - rewrite (IH (i + 1)), (IH (0 + 1)).
    destruct (lastIndexOf_slash_from s 0 (-1) <? 0) eqn:E.
    + destruct (Ascii.eqb c "/"); cbn; [f_equal; lia | reflexivity].
    + destruct (Z.ltb_spec (0 + 1 + lastIndexOf_slash_from s 0 (-1)) 0);
        [apply Z.ltb_ge in E; lia | lia].
Qed.

Lemma lastIndexOf_slash_cons (c : ascii) (s : string) :
  lastIndexOf_slash (String c s)
  = if lastIndexOf_slash s <? 0
    then (if Ascii.eqb c "/" then 0 else -1)
    else 1 + lastIndexOf_slash s.
Proof.
  unfold lastIndexOf_slash at 1. cbn [lastIndexOf_slash_from].
  now rewrite lastIndexOf_slash_from_shift.
Qed.

Lemma lastIndexOf_slash_lower (s : string) : -1 <= lastIndexOf_slash s.
Proof.
  induction s as [|c s IH]; [cbn; lia|].
  rewrite lastIndexOf_slash_cons.
  destruct (Z.ltb_spec (lastIndexOf_slash s) 0); [|lia].
  destruct (Ascii.eqb c "/"); lia.
Qed.

(** No slash: the whole string is the one piece. *)
Lemma split_slash_without_index (s : string) :
  lastIndexOf_slash s < 0 -> split_slash s = [s].
Proof.
  induction s as [|c s IH]; [reflexivity|].
  rewrite lastIndexOf_slash_cons. cbn [split_slash].
  destruct (Z.ltb_spec (lastIndexOf_slash s) 0) as [Neg | Pos].
  - destruct (Ascii.eqb c "/"); [lia|]. intros _. now rewrite IH.
  - pose proof (lastIndexOf_slash_lower s). lia.
Qed.

(** A slash: at least two pieces. *)
Lemma split_slash_with_index (s : string) :
  0 <= lastIndexOf_slash s -> exists p q r, split_slash s = p :: q :: r.
Proof.
  induction s as [|c s IH]; [cbn; lia|].
  rewrite lastIndexOf_slash_cons. cbn [split_slash].
  destruct (Z.ltb_spec (lastIndexOf_slash s) 0) as [Neg | Pos].
  - destruct (Ascii.eqb c "/"); [|lia]. intros _.
    rewrite (split_slash_without_index s Neg). eauto.
  - intros _. destruct (IH Pos) as (p & q & r & E). rewrite E.
    destruct (Ascii.eqb c "/"); eauto.
Qed.

Lemma substring_whole (s : string) :
  String.substring 0 (String.length s) s = s.
Proof. induction s as [|c s IH]; cbn; [reflexivity | now rewrite IH]. Qed.

Lemma substring_from_zero (s : string) : substring_from 0 s = s.
Proof.
  unfold substring_from. cbn [Z.to_nat]. rewrite Nat.sub_0_r.
  apply substring_whole.
Qed.

Lemma substring_from_succ (n : Z) (c : ascii) (s : string) :
  0 <= n -> substring_from (n + 1) (String c s) = substring_from n s.
Proof.
  intros H. unfold substring_from.
  replace (Z.to_nat (n + 1)) with (S (Z.to_nat n)) by lia.
  reflexivity.
Qed.

Lemma filename_of_uri_last_piece (uri : string) :
  filename_of_uri uri = last (split_slash uri) EmptyString.
Proof.
  unfold filename_of_uri. induction uri as [|c s IH]; [reflexivity|].
  rewrite lastIndexOf_slash_cons. cbn [split_slash].
  pose proof (lastIndexOf_slash_lower s) as Lo.
  destruct (Z.ltb_spec (lastIndexOf_slash s) 0) as [Neg | Pos].
  - rewrite (split_slash_without_index s Neg).
    destruct (Ascii.eqb c "/"); cbn [last].
    + rewrite substring_from_succ by lia. apply substring_from_zero.
    + apply substring_from_zero.
  - replace (1 + lastIndexOf_slash s + 1) with (lastIndexOf_slash s + 1 + 1)
      by lia.
    rewrite substring_from_succ by lia. rewrite IH.
    destruct (split_slash_with_index s Pos) as (p & q & r & S).
    rewrite S. now destruct (Ascii.eqb c "/").
Qed.

Lemma key_is_sanitised_filename (uri : string) :
  getFilenameFromUrl uri = replace_unsafe (filename_of_uri uri).
Proof. unfold getFilenameFromUrl. now rewrite filename_of_uri_last_piece. Qed.

Lemma key_of_safe_filename (uri : string) :
  string_forall is_safe_char (filename_of_uri uri) = true ->
  getFilenameFromUrl uri = filename_of_uri uri.
Proof.
  intros Safe. rewrite key_is_sanitised_filename.
  now apply replace_unsafe_safe.
Qed.

(** X14. The component and the service cut a url at the same place:
    [uri.substring(uri.lastIndexOf('/') + 1)] is the last piece of
    [uri.split('/')].  The service then replaces the unsafe characters
    and the component does not, so the key of the service is the
    sanitised file name of the component, and the two agree when the file
    name has no unsafe character. *)
Theorem component_and_service_names (uri : string) :
  filename_of_uri uri = last (split_slash uri) EmptyString
  /\ getFilenameFromUrl uri = replace_unsafe (filename_of_uri uri)
  /\ (string_forall is_safe_char (filename_of_uri uri) = true ->
      getFilenameFromUrl uri = filename_of_uri uri).
Proof.
  split; [apply filename_of_uri_last_piece|].
  split; [apply key_is_sanitised_filename | apply key_of_safe_filename].
Qed.

(** ** The image component at work *)

Lemma keeps_service_ret A (a : A) : keeps_service (ret a).
Proof. intros st. now repeat split. Qed.

Lemma keeps_service_get_state : keeps_service get_state.
Proof. intros st. now repeat split. Qed.

Lemma keeps_service_console (msg : string) : keeps_service (console_error msg).
Proof. intros st. now repeat split. Qed.

Lemma keeps_service_fs_call (env : Env) A (c : Call)
    (sem : Disk -> option (A * Disk)) :
  keeps_service (fs_call env c sem).
Proof.
  intros st. unfold fs_call.
  destruct (faults env (List.length (trace st))); [now repeat split|].
  destruct (sem (disk st)) as [[a d]|]; now repeat split.
Qed.

Lemma keeps_service_bind A B (m : M A) (k : A -> M B) :
  keeps_service m -> (forall a, keeps_service (k a)) ->
  keeps_service (bind m k).
Proof.
  intros Hm Hk st. destruct (Hm st) as (I & C & S).
  unfold bind. destruct (m st) as [[a|] st1]; cbn [snd] in *.
  - destruct (Hk a st1) as (I' & C' & S'). repeat split; congruence.
  - now repeat split.
Qed.

Lemma keeps_service_try_catch A (body handler : M A) :
  keeps_service body -> keeps_service handler ->
  keeps_service (try_catch body handler).
Proof.
  intros Hb Hh st. destruct (Hb st) as (I & C & S).
  unfold try_catch. destruct (body st) as [[a|] st1]; cbn [snd] in *.
  - now repeat split.
  - destruct (Hh st1) as (I' & C' & S'). repeat split; congruence.
Qed.

Section ComponentRuns.
Variable cacheDirectory : string.
Variable env : Env.
Variable httpStatus : string -> Z.

Local Abbreviation DIR := (IMAGE_CACHE_DIR cacheDirectory).
Local Abbreviation load := (loadImage cacheDirectory env httpStatus).

Lemma loadImage_keeps_service (uri : string) (v : ImageView) :
  keeps_service (load uri v).
Proof.
  unfold loadImage.
  apply keeps_service_bind; [|intros v'; apply keeps_service_ret].
  apply keeps_service_try_catch.
  - destruct (String.eqb uri EmptyString); [apply keeps_service_ret|].
    apply keeps_service_bind; [apply keeps_service_get_state|]. intros st.
    destruct (negb (isImageCacheEnabled st)); [apply keeps_service_ret|].
    apply keeps_service_bind; [apply keeps_service_fs_call|]. intros dirInfo.
    apply keeps_service_bind.
    { destruct (negb (fi_exists dirInfo));
        [apply keeps_service_fs_call | apply keeps_service_ret]. }
    intros _.
    apply keeps_service_bind; [apply keeps_service_fs_call|]. intros fileInfo.
    destruct (fi_exists fileInfo); [apply keeps_service_ret|].
    apply keeps_service_bind.
    { unfold downloadAsyncResult.
      apply keeps_service_bind; [apply keeps_service_fs_call|].
      intros w. apply keeps_service_ret. }
    intros r. destruct (dr_status r =? 200); apply keeps_service_ret.
  - apply keeps_service_bind; [apply keeps_service_console|].
    intros _. apply keeps_service_ret.
Qed.

(** X15. Whatever the collaborators do, [loadImage] does not reject and
    ends with [isLoading = false]; it never changes the flag, the counter
    or the settings of the service: what it writes to the cache directory
    is not recorded in [cacheSize]. *)
Theorem loadImage_never_rejects_nor_records
    (uri : string) (v : ImageView) (st : State) :
  exists v' st',
    load uri v st = (Ok v', st')
    /\ isLoading v' = false
    /\ cacheSize st' = cacheSize st
    /\ isEnabled st' = isEnabled st
    /\ storage st' = storage st.
Proof.
  destruct (loadImage_keeps_service uri v st) as (I & C & S).
  destruct (load uri v st) as [r st'] eqn:E. cbn [snd] in *.
  unfold loadImage, bind at 1 in E.
  match type of E with
  | context [try_catch ?b ?h st] =>
      destruct (try_catch_never_throws _ b h
                  (console_then_ret_never_throws _ _ _) st) as (v1 & st1 & E1)
  end.
  rewrite E1 in E. unfold ret in E. injection E as <- <-.
  eexists; eexists. split; [reflexivity|]. now repeat split.
Qed.

(** X16. For an empty [uri] the component shows its error state and for
    a disabled cache it shows the remote [uri]; in both cases it calls no
    collaborator and leaves the whole state as it is. *)
Theorem loadImage_pass_through (uri : string) (v : ImageView) (st : State) :
  (uri = EmptyString ->
   load uri v st = (Ok (mkImageView (cachedUri v) false true), st))
  /\ (uri <> EmptyString -> isEnabled st = false ->
      load uri v st = (Ok (mkImageView (Some uri) false false), st)).
Proof.
  split.
  - intros ->. reflexivity.
  - intros N Off. unfold loadImage, bind at 1, try_catch.
    destruct (String.eqb_spec uri EmptyString) as [|_]; [contradiction|].
    unfold bind, get_state, isImageCacheEnabled. now rewrite Off.
Qed.

Hypothesis calm_env : no_faults env.

(** The first two calls of [loadImage]: the directory is there
    afterwards. *)
Lemma ensure_directory_run B (k : M B) (st : State) :
  (dirInfo <- getInfoAsync cacheDirectory env DIR false ;;
   (if negb (fi_exists dirInfo)
    then makeDirectoryAsync cacheDirectory env DIR
    else ret tt) ;;
   k) st
  = k (with_directory cacheDirectory st).
Proof.
  unfold bind at 1.
  rewrite (getInfoAsync_run cacheDirectory env calm_env).
  rewrite (stat_dir cacheDirectory). unfold with_directory.
  destruct (disk st) as [fs|] eqn:D; cbn [fi_exists absent negb].
  - reflexivity.
  - unfold bind at 1, makeDirectoryAsync.
    erewrite fs_call_ok;
      [| apply calm_env
       | cbn [disk log_call]; rewrite (locate_dir cacheDirectory), D;
         reflexivity].
    reflexivity.
Qed.

Lemma with_directory_facts (st : State) :
  let files := match disk st with Some files => files | None => [] end in
  let st1 := with_directory cacheDirectory st in
  disk st1 = Some files
  /\ isEnabled st1 = isEnabled st
  /\ cacheSize st1 = cacheSize st
  /\ exists calls,
       trace st1 = trace st ++ calls
       /\ filter is_download calls = [].
Proof.
  unfold with_directory. destruct (disk st) as [fs|] eqn:D.
  - cbn. rewrite D. repeat split. now eexists.
  - cbn. repeat split. eexists. rewrite <- app_assoc. now split.
Qed.

(** A hit of the component. *)
Lemma loadImage_hit_run (uri : string) (v : ImageView) (st : State) :
  let files := match disk st with Some files => files | None => [] end in
  let path := (DIR ++ filename_of_uri uri)%string in
  isEnabled st = true -> uri <> EmptyString ->
  fi_exists (stat cacheDirectory (Some files) path) = true ->
  exists st',
    load uri v st = (Ok (mkImageView (Some path) false false), st')
    /\ disk st' = Some files
    /\ cacheSize st' = cacheSize st
    /\ exists calls,
         trace st' = trace st ++ calls /\ filter is_download calls = [].
Proof.
  intros files path En N X.
  unfold loadImage, bind at 1, try_catch.
  destruct (String.eqb_spec uri EmptyString) as [|_]; [contradiction|].
  unfold bind at 1, get_state, isImageCacheEnabled. rewrite En. cbn [negb].
  rewrite ensure_directory_run.
  destruct (with_directory_facts st) as (D1 & _ & C1 & calls & T1 & F1).
  fold files in D1.
  unfold bind at 1. rewrite (getInfoAsync_run cacheDirectory env calm_env).
  fold path. rewrite D1, X.
  assert (U : fi_uri (stat cacheDirectory (Some files) path) = path).
  { unfold stat. destruct (locate _ _); try reflexivity.
    now destruct (lookup _ _). }
  unfold ret. rewrite U.
  eexists. split; [reflexivity|].
  cbn [disk cacheSize log_call]. repeat split; try assumption.
  eexists. split.
  - cbn [trace log_call]. rewrite T1, <- app_assoc. reflexivity.
  - rewrite filter_app, F1. reflexivity.
Qed.

(** A miss of the component. *)
Lemma loadImage_miss_run (uri : string) (v : ImageView) (st : State) :
  let files := match disk st with Some files => files | None => [] end in
  let name := filename_of_uri uri in
  let path := (DIR ++ name)%string in
  isEnabled st = true -> uri <> EmptyString ->
  fi_exists (stat cacheDirectory (Some files) path) = false ->
  exists st',
    load uri v st
    = (Ok (mkImageView (Some (if httpStatus uri =? 200 then path else uri))
                       false false), st')
    /\ disk st' = Some (files ++ [(name, remote env uri)])
    /\ cacheSize st' = cacheSize st
    /\ isEnabled st' = true
    /\ exists calls,
         trace st' = trace st ++ calls
         /\ filter is_download calls = [(Download uri path, true)].
Proof.
  intros files name path En N X.
  unfold loadImage, bind at 1, try_catch.
  destruct (String.eqb_spec uri EmptyString) as [|_]; [contradiction|].
  unfold bind at 1, get_state, isImageCacheEnabled. rewrite En. cbn [negb].
  rewrite ensure_directory_run.
  destruct (with_directory_facts st) as (D1 & E1 & C1 & calls & T1 & F1).
  fold files in D1.
  unfold bind at 1. rewrite (getInfoAsync_run cacheDirectory env calm_env).
  fold name. fold path. rewrite D1, X.
  destruct (miss_is_a_file cacheDirectory _ _ X) as [L Miss].
  fold path in L.
  unfold bind at 1, downloadAsyncResult, bind at 1, downloadAsync, fs_call.
  rewrite calm_env. cbn [disk log_call]. fold path. rewrite L, D1.
  unfold ret. cbn [dr_status dr_uri].
  rewrite (upsert_absent _ _ _ _ Miss).
  match goal with
  | |- context [(if httpStatus uri =? 200 then _ else _) ?s] => exists s
  end.
  split; [now destruct (httpStatus uri =? 200)|].
  cbn [disk cacheSize isEnabled log_call set_disk].
  rewrite E1, En. repeat split; try assumption.
  eexists. split.
  - cbn [trace log_call set_disk]. rewrite T1, <- !app_assoc. reflexivity.
  - rewrite !filter_app, F1. reflexivity.
Qed.

(** X17. The component stores blobs behind the back of the service.  When
    no call rejects, on a miss [loadImage] creates the directory if it is
    absent, downloads the body and adds it to the cache directory under
    the file name of the uri, and leaves [cacheSize] as it was.  So if the
    counter was equal to the total on disk and the body is not empty, the
    counter is afterwards below the total on disk. *)
Theorem loadImage_stores_uncounted (uri : string) (v : ImageView) (st : State) :
  let files := match disk st with Some files => files | None => [] end in
  let name := filename_of_uri uri in
  isEnabled st = true -> uri <> EmptyString ->
  fi_exists (stat cacheDirectory (Some files) (DIR ++ name)%string) = false ->
  let st' := snd (load uri v st) in
  disk st' = Some (files ++ [(name, remote env uri)])
  /\ cacheSize st' = cacheSize st
  /\ (cacheSize st = total files -> 0 < remote env uri ->
      cacheSize st' < total (files ++ [(name, remote env uri)])).
Proof.
  intros files name En N X st'.
  destruct (loadImage_miss_run uri v st En N X) as (s & R & D & C & _).
  subst st'. rewrite R. cbn [snd]. repeat split; try assumption.
  intros Exact Pos. rewrite C, total_app, total_cons, Exact. cbn. lia.
Qed.

(** X18. A failed download is cached.  When no call rejects and the uri
    is a miss, [loadImage] stores the body whatever the HTTP status and
    shows the local file for status 200 and the remote uri otherwise; the
    next [loadImage] of the same uri finds the file, downloads nothing and
    shows the local file, also when it holds the body of an error
    answer. *)
Theorem loadImage_caches_any_status (uri : string) (v : ImageView) (st : State) :
  let files := match disk st with Some files => files | None => [] end in
  let path := (DIR ++ filename_of_uri uri)%string in
  isEnabled st = true -> uri <> EmptyString ->
  fi_exists (stat cacheDirectory (Some files) path) = false ->
  let first := load uri v st in
  let second := load uri (fst_view first v) (snd first) in
  fst first
  = Ok (mkImageView (Some (if httpStatus uri =? 200 then path else uri))
                    false false)
  /\ fst second = Ok (mkImageView (Some path) false false)
  /\ filter is_download (new_calls st (snd first)) = [(Download uri path, true)]
  /\ filter is_download (new_calls (snd first) (snd second)) = [].
Proof.
  intros files path En N X first second.
  destruct (loadImage_miss_run uri v st En N X)
    as (s1 & R1 & D1 & C1 & E1 & calls1 & T1 & F1).
  fold files in D1. fold path in R1, F1. fold first in R1.
  assert (X2 : fi_exists
                 (stat cacheDirectory
                    (Some match disk s1 with Some fs => fs | None => [] end)
                    path) = true).
  { rewrite D1. destruct (miss_is_a_file cacheDirectory _ _ X) as [L Miss].
    fold path in L. unfold stat. rewrite L.
    rewrite <- (upsert_absent _ _ (remote env uri) _ Miss).
    now rewrite lookup_upsert. }
  destruct (loadImage_hit_run uri (fst_view first v) s1 E1 N X2)
    as (s2 & R2 & _ & _ & calls2 & T2 & F2).
  fold path in R2.
  subst second. rewrite R1 in *. cbn [fst snd] in *. rewrite R2.
  cbn [fst snd].
  rewrite (new_calls_app _ _ _ T1), (new_calls_app _ _ _ T2).
  now repeat split.
Qed.

End ComponentRuns.

(** ** The component and the service on one directory *)

Lemma replace_unsafe_empty (s : string) :
  replace_unsafe s = EmptyString -> s = EmptyString.
Proof. now destruct s. Qed.

Lemma lookup_app_other (files : list (string * Z)) (k name : string) (v : Z) :
  k <> name -> lookup k (files ++ [(name, v)]) = lookup k files.
Proof.
  intros N. induction files as [|[k' v'] files IH]; cbn.
  - destruct (String.eqb_spec k name); [contradiction | reflexivity].
  - now rewrite IH.
Qed.

Lemma lookup_app_added (files : list (string * Z)) (name : string) (v : Z) :
  lookup name files = None -> lookup name (files ++ [(name, v)]) = Some v.
Proof.
  intros H. rewrite <- (upsert_absent _ _ v _ H). apply lookup_upsert.
Qed.

Lemma filename_of_uri_after_slash (a b : string) :
  filename_of_uri (a ++ String "/" b)%string = filename_of_uri b.
Proof.
  rewrite !filename_of_uri_last_piece. apply last_split_slash_app.
Qed.

Section Shared.
Variable cacheDirectory : string.
Variable maxCacheSize : Z.
Variable env : Env.
Variable httpStatus : string -> Z.
Hypothesis calm_env : no_faults env.

Local Abbreviation DIR := (IMAGE_CACHE_DIR cacheDirectory).
Local Abbreviation load := (loadImage cacheDirectory env httpStatus).
Local Abbreviation resolve :=
  (getCachedImageUri cacheDirectory maxCacheSize env).

(** X19. When no call rejects and the file name of the uri has no unsafe
    character, a blob stored by the component is a hit for the service:
    after a miss of [loadImage], [getCachedImageUri] of the same uri
    returns the local path after one existence check, downloads nothing,
    and leaves the counter as it is, so the blob it serves stays
    uncounted. *)
Theorem service_hits_component_blob (uri : string) (v : ImageView) (st : State) :
  let files := match disk st with Some files => files | None => [] end in
  let name := filename_of_uri uri in
  let path := (DIR ++ name)%string in
  isEnabled st = true -> uri <> EmptyString ->
  fi_exists (stat cacheDirectory (Some files) path) = false ->
  string_forall is_safe_char name = true ->
  let st1 := snd (load uri v st) in
  resolve uri st1 = (Ok path, log_call (GetInfo path false) true st1)
  /\ cacheSize st1 = cacheSize st
  /\ disk st1 = Some (files ++ [(name, remote env uri)]).
Proof.
  intros files name path En N X Safe st1.
  destruct (loadImage_miss_run cacheDirectory env httpStatus calm_env uri v st
              En N X) as (s & R & D & C & E & _).
  fold files in D. fold name in D.
  subst st1. rewrite R. cbn [snd].
  pose proof (key_of_safe_filename uri Safe) as K. fold name in K.
  destruct (miss_is_a_file cacheDirectory _ _ X) as [L Miss].
  assert (X1 : fi_exists (stat cacheDirectory (disk s)
                               (DIR ++ getFilenameFromUrl uri)%string) = true).
  { rewrite K, D. unfold stat. rewrite L.
    now rewrite (lookup_app_added _ _ _ Miss). }
  pose proof (resolve_hit_run cacheDirectory maxCacheSize env calm_env uri s
                E N X1) as R2.
  cbv zeta in R2. rewrite K in R2. now repeat split.
Qed.

(** X20. When no call rejects and the file name of the uri has an unsafe
    character, the component and the service keep separate blobs for the
    uri: after a miss of [loadImage], [getCachedImageUri] of the same uri
    (its key not on disk either, its bytes within the ceiling) misses
    too, downloads the body a second time and stores it under the
    sanitised name, beside the blob of the component. *)
Theorem unsafe_name_is_stored_twice (uri : string) (v : ImageView) (st : State) :
  let files := match disk st with Some files => files | None => [] end in
  let name := filename_of_uri uri in
  let key := getFilenameFromUrl uri in
  isEnabled st = true -> uri <> EmptyString ->
  fi_exists (stat cacheDirectory (Some files) (DIR ++ name)%string) = false ->
  lookup key files = None ->
  key <> name ->
  cacheSize st + remote env uri <= maxCacheSize ->
  let st1 := snd (load uri v st) in
  let run := resolve uri st1 in
  fst run = Ok (DIR ++ key)%string
  /\ disk (snd run)
     = Some (files ++ [(name, remote env uri); (key, remote env uri)])
  /\ filter is_download (new_calls st (snd run))
     = [(Download uri (DIR ++ name)%string, true);
        (Download uri (DIR ++ key)%string, true)].
Proof.
  intros files name key En N X MissK Diff Fit st1 run.
  destruct (loadImage_miss_run cacheDirectory env httpStatus calm_env uri v st
              En N X) as (s & R & D & C & E & pre & Tp & Fp).
  fold files in D. fold name in D, Fp.
  subst run st1. rewrite R. cbn [snd]. set (run := resolve uri s).
  destruct (miss_is_a_file cacheDirectory _ _ X) as [L Miss].
  assert (Nk : key <> EmptyString).
  { intros Ek. pose proof (key_is_sanitised_filename uri) as Hk.
    fold key in Hk. fold name in Hk. rewrite Ek in Hk. symmetry in Hk.
    apply replace_unsafe_empty in Hk.
    rewrite Hk, (locate_under cacheDirectory) in L. discriminate. }
  assert (X1 : fi_exists (stat cacheDirectory (disk s) (DIR ++ key)%string)
               = false).
  { rewrite D. unfold stat. rewrite (locate_under cacheDirectory).
    destruct key as [|c k]; [contradiction|].
    now rewrite (lookup_app_other _ _ _ _ Diff), MissK. }
  assert (Fit1 : cacheSize s + remote env uri <= maxCacheSize) by now rewrite C.
  pose proof (resolve_miss_run cacheDirectory maxCacheSize env calm_env uri s
                _ E N D X1 Fit1) as R2.
  cbv zeta in R2. fold key in R2. fold run in R2.
  assert (MissK1 : lookup key (files ++ [(name, remote env uri)]) = None)
    by now rewrite (lookup_app_other _ _ _ _ Diff).
  rewrite (upsert_absent _ _ _ _ MissK1), <- app_assoc in R2. cbn [app] in R2.
  assert (T2 : exists mid,
             trace (snd run) = trace s ++ mid
             /\ filter is_download mid
                = [(Download uri (DIR ++ key)%string, true)]).
  { rewrite R2. cbn [snd].
    destruct (remote env uri =? 0);
      cbn [trace set_cacheSize log_call set_disk];
      rewrite <- !app_assoc; eexists; split; try reflexivity. }
  destruct T2 as (mid & T2 & F2).
  repeat split.
  - now rewrite R2.
  - rewrite R2. cbn [snd]. now destruct (remote env uri =? 0).
  - rewrite Tp, <- app_assoc in T2.
    rewrite (new_calls_app _ _ _ T2). now rewrite filter_app, Fp, F2.
Qed.

(** X21. Cards of different sizes share one blob.  When no call rejects,
    after the component has loaded the poster of a TMDB path for a card of
    one size (a miss), loading the poster of the same path for a card of
    any other size is a hit on that blob: nothing is downloaded and the
    local file shown holds the image of the first size. *)
Theorem card_sizes_share_a_blob
    (name : string) (size1 size2 : CardSize) (v1 v2 : ImageView) (st : State) :
  let files := match disk st with Some files => files | None => [] end in
  let uri1 := getPosterUrl size1 (String "/" name) in
  let uri2 := getPosterUrl size2 (String "/" name) in
  let path := (DIR ++ filename_of_uri uri1)%string in
  isEnabled st = true ->
  fi_exists (stat cacheDirectory (Some files) path) = false ->
  let first := load uri1 v1 st in
  let second := load uri2 v2 (snd first) in
  filename_of_uri uri2 = filename_of_uri uri1
  /\ fst second = Ok (mkImageView (Some path) false false)
  /\ filter is_download (new_calls (snd first) (snd second)) = []
  /\ disk (snd second)
     = Some (files ++ [(filename_of_uri uri1, remote env uri1)]).
Proof.
  intros files uri1 uri2 path En X first second.
  assert (U : forall size,
             getPosterUrl size (String "/" name)
             = ((IMAGE_BASE_URL ++ "/" ++ getPosterSize size)
                  ++ String "/" name)%string).
  { intros size. unfold getPosterUrl. cbn [String.eqb].
    now rewrite !string_app_assoc. }
  assert (K : filename_of_uri uri2 = filename_of_uri uri1).
  { subst uri1 uri2. now rewrite !U, !filename_of_uri_after_slash. }
  assert (N1 : uri1 <> EmptyString) by (subst uri1; rewrite U; discriminate).
  assert (N2 : uri2 <> EmptyString) by (subst uri2; rewrite U; discriminate).
  destruct (loadImage_miss_run cacheDirectory env httpStatus calm_env uri1 v1
              st En N1 X) as (s & R & D & C & E & _).
  fold files in D.
  destruct (miss_is_a_file cacheDirectory _ _ X) as [L Miss].
  assert (X2 : fi_exists
                 (stat cacheDirectory
                    (Some match disk s with Some fs => fs | None => [] end)
                    (DIR ++ filename_of_uri uri2)%string) = true).
  { rewrite K, D. unfold stat. rewrite L.
    now rewrite (lookup_app_added _ _ _ Miss). }
  destruct (loadImage_hit_run cacheDirectory env httpStatus calm_env uri2 v2 s
              E N2 X2) as (s2 & R2 & D2 & _ & calls & T2 & F2).
  rewrite K in R2. fold path in R2.
  subst second first. rewrite R. cbn [snd]. rewrite R2. cbn [fst snd].
  rewrite D in D2. rewrite (new_calls_app _ _ _ T2). now repeat split.
Qed.

End Shared.

(** ** The countdown label *)

(** X22. For an air date in the future the label is built from the whole
    days left, the whole hours left within the day (fewer than 24) and
    the whole minutes left within the hour (fewer than 60), which together
    are within a minute of the time left.  Days and hours are shown when
    at least a day is left, hours and minutes when less than a day but at
    least an hour is left, and minutes alone otherwise. *)
Theorem calculateTimeLeft_parts (now air : Z) :
  now < air ->
  exists days hours minutes,
    0 <= days /\ 0 <= hours < 24 /\ 0 <= minutes < 60
    /\ days * 86400000 + hours * 3600000 + minutes * 60000 <= air - now
    /\ air - now < days * 86400000 + hours * 3600000 + minutes * 60000 + 60000
    /\ calculateTimeLeft now (Some air)
       = if 0 <? days
         then (js_toString (Some days) ++ "d "
               ++ js_toString (Some hours) ++ "h")%string
         else if 0 <? hours
              then (js_toString (Some hours) ++ "h "
                    ++ js_toString (Some minutes) ++ "m")%string
              else (js_toString (Some minutes) ++ "m")%string.
Proof.
  intros Future. set (d := air - now).
  exists (d / 86400000), (Z.rem d 86400000 / 3600000),
         (Z.rem d 3600000 / 60000).
  assert (Dpos : 0 < d) by (subst d; lia).
  rewrite !Z.rem_mod_nonneg by lia.
  repeat split; try (Z.div_mod_to_equations; lia).
  unfold calculateTimeLeft, js_sub, js_le. fold d.
  destruct (Z.leb_spec d 0); [lia|].
  unfold js_floor_div, js_rem, option_map, js_gt.
  change (1000 * 60 * 60 * 24) with 86400000.
  change (1000 * 60 * 60) with 3600000.
  change (1000 * 60) with 60000.
  now rewrite !Z.rem_mod_nonneg by lia.
Qed.

(** X23. The edges of the label: an air date that is not in the future
    gives "Aired"; less than a minute left gives "0m"; an invalid air
    date, whose time value is [NaN], gives "NaNm". *)
Theorem calculateTimeLeft_edges (now : Z) :
  (forall air, air <= now -> calculateTimeLeft now (Some air) = "Aired")
  /\ (forall air, now < air < now + 60000 ->
                  calculateTimeLeft now (Some air) = "0m")
  /\ calculateTimeLeft now None = "NaNm".
Proof.
  split; [|split].
  - intros air H. unfold calculateTimeLeft, js_sub, js_le.
    now destruct (Z.leb_spec (air - now) 0); [|lia].
  - intros air H. unfold calculateTimeLeft, js_sub, js_le.
    set (d := air - now).
    assert (Dr : 0 < d < 60000) by (subst d; lia).
    destruct (Z.leb_spec d 0); [lia|].
    unfold js_floor_div, js_rem, option_map, js_gt.
    change (1000 * 60 * 60 * 24) with 86400000.
    change (1000 * 60 * 60) with 3600000.
    change (1000 * 60) with 60000.
    rewrite !Z.rem_mod_nonneg by lia.
    replace (d / 86400000) with 0 by (Z.div_mod_to_equations; lia).
    replace (d mod 86400000 / 3600000) with 0 by (Z.div_mod_to_equations; lia).
    replace (d mod 3600000 / 60000) with 0 by (Z.div_mod_to_equations; lia).
    reflexivity.
  - reflexivity.
Qed.

(** ** The watchlist *)

Lemma toy_parse_stringify (shows : list bool) :
  toy_parse (toy_stringify shows) = ParsedArray shows.
Proof.
  unfold toy_stringify, toy_parse. cbn. f_equal.
  induction shows as [|[] shows IH]; cbn; now rewrite ?IH.
Qed.

Lemma toy_stringify_not_empty (shows : list bool) :
  toy_stringify shows <> EmptyString.
Proof. discriminate. Qed.

Section WatchlistProperties.
Variable env : Env.
Variable TVShow : Type.
Variable show_id : TVShow -> Z.
Variable stringify : list TVShow -> string.
Variable parse : string -> Parsed TVShow.

(** What is taken of JSON: an array that was written is read back, and
    its text is not empty. *)
Hypothesis parse_stringify :
  forall shows, parse (stringify shows) = ParsedArray shows.
Hypothesis stringify_not_empty :
  forall shows, stringify shows <> EmptyString.

Local Abbreviation KEY := WATCHLIST_STORAGE_KEY.
Local Abbreviation get := (getWatchlist env parse).
Local Abbreviation add := (addToWatchlist env show_id stringify parse).
Local Abbreviation remove := (removeFromWatchlist env show_id stringify parse).
Local Abbreviation isIn := (isInWatchlist env show_id parse).
Local Abbreviation stored := (holds stringify).
Local Abbreviation read_goes_wrong := (read_goes_wrong env parse).
Local Abbreviation without showId :=
  (filter (fun show => negb (show_id show =? showId))).

Lemma getItem_ok (key : string) (st : State) :
  faults env (List.length (trace st)) = false ->
  getItem env key st
  = (Ok (lookup key (storage st)), log_call (GetItem key) true st).
Proof.
  intros H. unfold getItem, kv_call. rewrite H. now destruct st.
Qed.

Lemma setItem_ok (key value : string) (st : State) :
  faults env (List.length (trace st)) = false ->
  setItem env key value st
  = (Ok tt,
     set_storage (upsert key value (storage st))
                 (log_call (SetItem key value) true st)).
Proof. intros H. unfold setItem, kv_call. now rewrite H. Qed.

Lemma setItem_fault (key value : string) (st : State) :
  faults env (List.length (trace st)) = true ->
  setItem env key value st = (Throw, log_call (SetItem key value) false st).
Proof. intros H. unfold setItem, kv_call. now rewrite H. Qed.

Lemma getWatchlist_run (st : State) (shows : list TVShow) :
  faults env (List.length (trace st)) = false ->
  stored st shows ->
  get st = (Ok (AnArray shows), log_call (GetItem KEY) true st).
Proof.
  intros F H. unfold getWatchlist, try_catch, bind.
  rewrite (getItem_ok _ _ F). unfold holds in H.
  destruct (lookup KEY (storage st)) as [json|].
  - subst json.
    destruct (String.eqb_spec (stringify shows) EmptyString) as [E|_];
      [now apply stringify_not_empty in E|].
    now rewrite parse_stringify.
  - now subst shows.
Qed.

Lemma getWatchlist_swallows (st : State) :
  read_goes_wrong st ->
  exists ok,
    get st
    = (Ok (AnArray []),
       log_error "Error getting watchlist:" (log_call (GetItem KEY) ok st)).
Proof.
  intros [F | (F & json & L & N & P)]; unfold getWatchlist, try_catch, bind.
  - exists false. unfold getItem, kv_call. now rewrite F.
  - exists true. rewrite (getItem_ok _ _ F), L.
    destruct (String.eqb_spec json EmptyString); [contradiction|].
    rewrite P. now destruct st.
Qed.

Lemma has_id_app (showId : Z) (l1 l2 : list TVShow) :
  has_id show_id showId (l1 ++ l2)
  = has_id show_id showId l1 || has_id show_id showId l2.
Proof. apply existsb_app. Qed.

Lemma has_id_false_not_in (showId : Z) (shows : list TVShow) :
  has_id show_id showId shows = false -> ~ In showId (map show_id shows).
Proof.
  induction shows as [|s shows IH]; cbn; [tauto|].
  rewrite orb_false_iff, Z.eqb_neq. intros [N H] [E | I]; [lia | now apply IH].
Qed.

Lemma has_id_without (showId : Z) (shows : list TVShow) :
  has_id show_id showId (without showId shows) = false.
Proof.
  induction shows as [|s shows IH]; cbn; [reflexivity|].
  destruct (show_id s =? showId) eqn:E; cbn; [exact IH|].
  rewrite E. exact IH.
Qed.

Lemma without_absent (showId : Z) (shows : list TVShow) :
  has_id show_id showId shows = false -> without showId shows = shows.
Proof.
  induction shows as [|s shows IH]; cbn; [reflexivity|].
  rewrite orb_false_iff. intros [E H]. now rewrite E, IH.
Qed.

Lemma stored_after_write (st : State) (shows : list TVShow) :
  stored (set_storage (upsert KEY (stringify shows) (storage st)) st) shows.
Proof. unfold holds. cbn [storage set_storage]. now rewrite lookup_upsert. Qed.

Lemma isInWatchlist_run (showId : Z) (st : State) (shows : list TVShow) :
  faults env (List.length (trace st)) = false ->
  stored st shows ->
  isIn showId st
  = (Ok (has_id show_id showId shows), log_call (GetItem KEY) true st).
Proof.
  intros F H. unfold isInWatchlist, try_catch, bind.
  now rewrite (getWatchlist_run st shows F H).
Qed.

Lemma addToWatchlist_run (show : TVShow) (st : State) (shows : list TVShow) :
  no_faults env -> stored st shows ->
  add show st
  = if has_id show_id (show_id show) shows
    then (Ok false, log_call (GetItem KEY) true st)
    else (Ok true,
          set_storage (upsert KEY (stringify (shows ++ [show])) (storage st))
            (log_call (SetItem KEY (stringify (shows ++ [show]))) true
               (log_call (GetItem KEY) true st))).
Proof.
  intros NF H. unfold addToWatchlist, try_catch, bind at 1.
  rewrite (getWatchlist_run st shows (NF _) H).
  destruct (has_id show_id (show_id show) shows); [reflexivity|].
  unfold bind, ret. now rewrite (setItem_ok _ _ _ (NF _)).
Qed.

Lemma removeFromWatchlist_run (showId : Z) (st : State) (shows : list TVShow) :
  no_faults env -> stored st shows ->
  remove showId st
  = (Ok true,
     set_storage (upsert KEY (stringify (without showId shows)) (storage st))
       (log_call (SetItem KEY (stringify (without showId shows))) true
          (log_call (GetItem KEY) true st))).
Proof.
  intros NF H. unfold removeFromWatchlist, try_catch, bind at 1.
  rewrite (getWatchlist_run st shows (NF _) H).
  unfold bind, ret. now rewrite (setItem_ok _ _ _ (NF _)).
Qed.

(** X24. Adding a show.  When no call rejects and the store holds the
    list [shows], [addToWatchlist] answers [false] and writes nothing if a
    show with that id is listed, and otherwise answers [true] and stores
    the list with the show appended.  Either way [isInWatchlist] of the id
    answers [true] afterwards, and ids that were distinct stay
    distinct. *)
Theorem addToWatchlist_then_listed
    (show : TVShow) (st : State) (shows : list TVShow) :
  no_faults env -> stored st shows ->
  let listed := has_id show_id (show_id show) shows in
  let shows' := if listed then shows else shows ++ [show] in
  let run := add show st in
  fst run = Ok (negb listed)
  /\ stored (snd run) shows'
  /\ (listed = true -> storage (snd run) = storage st)
  /\ fst (isIn (show_id show) (snd run)) = Ok true
  /\ (NoDup (map show_id shows) -> NoDup (map show_id shows')).
Proof.
  intros NF H listed shows' run.
  assert (R := addToWatchlist_run show st shows NF H).
  fold run in R. fold listed in R. subst shows'.
  destruct listed eqn:L; rewrite R; cbn [fst snd negb].
  - assert (S : stored (log_call (GetItem KEY) true st) shows) by exact H.
    split; [reflexivity|]. split; [exact S|]. split; [reflexivity|].
    split; [|tauto].
    rewrite (isInWatchlist_run _ _ shows (NF _) S). cbn [fst].
    now f_equal.
  - match goal with
    | |- context [set_storage ?s ?st0] =>
        assert (S : stored (set_storage s st0) (shows ++ [show]))
          by (unfold holds; cbn [storage set_storage];
              now rewrite lookup_upsert)
    end.
    split; [reflexivity|]. split; [exact S|]. split; [discriminate|].
    split.
    + rewrite (isInWatchlist_run _ _ (shows ++ [show]) (NF _) S). cbn [fst].
      rewrite has_id_app. cbn. now rewrite Z.eqb_refl, orb_true_r.
    + intros ND. rewrite map_app. cbn [map].
      apply NoDup_app; [exact ND | repeat constructor; intros [] |].
      intros x I [<- | []]. now apply (has_id_false_not_in _ _ L).
Qed.

(** X25. Removing a show.  When no call rejects and the store holds the
    list [shows], [removeFromWatchlist] answers [true] and stores the list
    without the shows of that id, the others in their order; a list
    without that id is stored again unchanged.  [isInWatchlist] of the id
    answers [false] afterwards. *)
Theorem removeFromWatchlist_then_unlisted
    (showId : Z) (st : State) (shows : list TVShow) :
  no_faults env -> stored st shows ->
  let run := remove showId st in
  fst run = Ok true
  /\ stored (snd run) (without showId shows)
  /\ fst (isIn showId (snd run)) = Ok false
  /\ (has_id show_id showId shows = false -> stored (snd run) shows).
Proof.
  intros NF H run.
  assert (R := removeFromWatchlist_run showId st shows NF H). fold run in R.
  rewrite R. cbn [fst snd].
  match goal with
  | |- context [set_storage ?s ?st0] =>
      assert (S : stored (set_storage s st0) (without showId shows))
        by (unfold holds; cbn [storage set_storage];
            now rewrite lookup_upsert)
  end.
  split; [reflexivity|]. split; [exact S|]. split.
  - rewrite (isInWatchlist_run _ _ _ (NF _) S). cbn [fst].
    now rewrite has_id_without.
  - intros A. unfold holds. cbn [storage set_storage].
    now rewrite lookup_upsert, (without_absent _ _ A).
Qed.

(** X26. A read that goes wrong costs the list.  [getWatchlist] answers
    an error (a rejected read, or a stored text that does not parse) with
    the empty list; [addToWatchlist] and [removeFromWatchlist] build on
    that answer.  So when the read goes wrong and the write that follows
    succeeds, adding a show answers [true] and leaves that show alone in
    the store, and removing a show answers [true] and leaves the store
    with the empty list, whatever it held before. *)
Theorem failed_read_overwrites_watchlist
    (show : TVShow) (showId : Z) (st : State) :
  read_goes_wrong st ->
  faults env (S (List.length (trace st))) = false ->
  (fst (add show st) = Ok true /\ stored (snd (add show st)) [show])
  /\ (fst (remove showId st) = Ok true /\ stored (snd (remove showId st)) []).
Proof.
  intros Bad F1.
  destruct (getWatchlist_swallows st Bad) as (ok & G).
  assert (T : forall value,
             setItem env KEY value
               (log_error "Error getting watchlist:"
                  (log_call (GetItem KEY) ok st))
             = (Ok tt,
                set_storage (upsert KEY value (storage st))
                  (log_call (SetItem KEY value) true
                     (log_error "Error getting watchlist:"
                        (log_call (GetItem KEY) ok st))))).
  { intros value. rewrite setItem_ok; [reflexivity|].
    cbn [trace log_error log_call]. now rewrite length_app, Nat.add_1_r. }
  assert (W : forall value st0,
             stored (set_storage (upsert KEY (stringify value) (storage st)) st0)
                    value).
  { intros value st0. unfold holds. cbn [storage set_storage].
    now rewrite lookup_upsert. }
  split.
  - assert (R : add show st
                = (Ok true,
                   set_storage (upsert KEY (stringify [show]) (storage st))
                     (log_call (SetItem KEY (stringify [show])) true
                        (log_error "Error getting watchlist:"
                           (log_call (GetItem KEY) ok st))))).
    { unfold addToWatchlist, try_catch, bind at 1. rewrite G.
      cbn [has_id existsb app]. unfold bind, ret. now rewrite T. }
    rewrite R. cbn [fst snd]. split; [reflexivity | apply W].
  - assert (R : remove showId st
                = (Ok true,
                   set_storage (upsert KEY (stringify []) (storage st))
                     (log_call (SetItem KEY (stringify [])) true
                        (log_error "Error getting watchlist:"
                           (log_call (GetItem KEY) ok st))))).
    { unfold removeFromWatchlist, try_catch, bind at 1. rewrite G.
      cbn [filter]. unfold bind, ret. now rewrite T. }
    rewrite R. cbn [fst snd]. split; [reflexivity | apply W].
Qed.

(** X27. When the read succeeds and the write rejects, [addToWatchlist]
    (of a show not yet listed) and [removeFromWatchlist] do not reject:
    they answer [false], log the error and leave the store as it was. *)
Theorem failed_write_keeps_watchlist
    (show : TVShow) (showId : Z) (st : State) (shows : list TVShow) :
  faults env (List.length (trace st)) = false ->
  faults env (S (List.length (trace st))) = true ->
  stored st shows ->
  has_id show_id (show_id show) shows = false ->
  (fst (add show st) = Ok false
   /\ storage (snd (add show st)) = storage st
   /\ console (snd (add show st))
      = console st ++ ["Error adding to watchlist:"])
  /\ (fst (remove showId st) = Ok false
      /\ storage (snd (remove showId st)) = storage st
      /\ console (snd (remove showId st))
         = console st ++ ["Error removing from watchlist:"]).
Proof.
  intros F0 F1 H New.
  assert (T : forall value,
             setItem env KEY value (log_call (GetItem KEY) true st)
             = (Throw,
                log_call (SetItem KEY value) false
                         (log_call (GetItem KEY) true st))).
  { intros value. apply setItem_fault.
    cbn [trace log_call]. now rewrite length_app, Nat.add_1_r. }
  split.
  - assert (R : add show st
                = (Ok false,
                   log_error "Error adding to watchlist:"
                     (log_call (SetItem KEY (stringify (shows ++ [show]))) false
                        (log_call (GetItem KEY) true st)))).
    { unfold addToWatchlist, try_catch, bind at 1.
      rewrite (getWatchlist_run st shows F0 H), New.
      unfold bind at 1. now rewrite T. }
    rewrite R. now repeat split.
  - assert (R : remove showId st
                = (Ok false,
                   log_error "Error removing from watchlist:"
                     (log_call
                        (SetItem KEY (stringify (without showId shows))) false
                        (log_call (GetItem KEY) true st)))).
    { unfold removeFromWatchlist, try_catch, bind at 1.
      rewrite (getWatchlist_run st shows F0 H).
      unfold bind at 1. now rewrite T. }
    rewrite R. now repeat split.
Qed.

(** X28. No method of the watchlist rejects, whatever the storage does
    and whatever it holds: every body lies inside a [try] whose handler
    logs and answers with a default. *)
Theorem watchlist_never_rejects (show : TVShow) (showId : Z) :
  never_throws get
  /\ never_throws (add show)
  /\ never_throws (remove showId)
  /\ never_throws (isIn showId).
Proof.
  repeat split; apply try_catch_never_throws, console_then_ret_never_throws.
Qed.

(** X29. A stored text that parses to something other than an array
    (for instance [null]) blocks the watchlist: [getWatchlist] hands the
    value on as it is, and [addToWatchlist], [removeFromWatchlist] and
    [isInWatchlist] each answer [false], log their error and leave the
    store as it was, so that the same holds for the next call. *)
Theorem non_array_blocks_watchlist
    (show : TVShow) (showId : Z) (st : State) (json : string) :
  faults env (List.length (trace st)) = false ->
  lookup KEY (storage st) = Some json ->
  json <> EmptyString ->
  parse json = ParsedOther ->
  fst (get st) = Ok NotAnArray
  /\ (fst (add show st) = Ok false
      /\ storage (snd (add show st)) = storage st
      /\ console (snd (add show st))
         = console st ++ ["Error adding to watchlist:"])
  /\ (fst (remove showId st) = Ok false
      /\ storage (snd (remove showId st)) = storage st
      /\ console (snd (remove showId st))
         = console st ++ ["Error removing from watchlist:"])
  /\ (fst (isIn showId st) = Ok false
      /\ storage (snd (isIn showId st)) = storage st
      /\ console (snd (isIn showId st))
         = console st ++ ["Error checking watchlist:"]).
Proof.
  intros F L N P.
  assert (G : get st = (Ok NotAnArray, log_call (GetItem KEY) true st)).
  { unfold getWatchlist, try_catch, bind. rewrite (getItem_ok _ _ F), L.
    destruct (String.eqb_spec json EmptyString); [contradiction|].
    now rewrite P. }
  split; [now rewrite G|]. split; [|split].
  - assert (R : add show st
                = (Ok false,
                   log_error "Error adding to watchlist:"
                             (log_call (GetItem KEY) true st))).
    { unfold addToWatchlist, try_catch, bind at 1. now rewrite G. }
    rewrite R. now repeat split.
  - assert (R : remove showId st
                = (Ok false,
                   log_error "Error removing from watchlist:"
                             (log_call (GetItem KEY) true st))).
    { unfold removeFromWatchlist, try_catch, bind at 1. now rewrite G. }
    rewrite R. now repeat split.
  - assert (R : isIn showId st
                = (Ok false,
                   log_error "Error checking watchlist:"
                             (log_call (GetItem KEY) true st))).
    { unfold isInWatchlist, try_catch, bind at 1. now rewrite G. }
    rewrite R. now repeat split.
Qed.

End WatchlistProperties.


(** ** The properties above on concrete runs *)

(** X4 on the session of eight calls started on an empty cache, with
    bodies of one megabyte. *)
Lemma operations_keep_storage_bounded_witness :
  consistent MAX_CACHE_SIZE
    (run_operations platformCache MAX_CACHE_SIZE (calm no_randoms MiB)
                    session st_empty).
Proof.
  apply (operations_keep_storage_bounded platformCache MAX_CACHE_SIZE
           (calm no_randoms MiB) (calm_has_no_faults _ _)).
  - vm_compute. discriminate.
  - exists []. split; [reflexivity|]. split; [apply well_formed_nil|].
    split; [reflexivity | vm_compute; discriminate].
Defined.

(** The calls of a start-up without a directory when the pending calls
    settle in the order in which they were issued: the two methods
    alternate. *)
Lemma initialize_calls_alternate :
  new_calls st_no_directory
    (initialize platformCache (calm no_randoms 0) [true; false; true; false]
                st_no_directory)
  = [(GetInfo "file:///cache/images/" false, true);
     (GetItem IMAGE_CACHE_ENABLED_KEY, true);
     (MakeDirectory "file:///cache/images/", true);
     (GetInfo "file:///cache/images/" true, true)].
Proof. vm_compute. reflexivity. Qed.

(** X5 on a service whose directory was never created, [loadSettings]
    being resumed first. *)
Lemma initialize_makes_consistent_witness :
  consistent MAX_CACHE_SIZE
    (initialize platformCache (calm no_randoms 0) [false; true]
                st_no_directory).
Proof.
  refine (proj2 (proj2 (proj2 (proj2 (proj2
            (initialize_makes_consistent platformCache MAX_CACHE_SIZE
               (calm no_randoms 0) [false; true] st_no_directory
               (calm_has_no_faults _ _)))))) _ _).
  - apply well_formed_nil.
  - vm_compute. discriminate.
Defined.

(** X6: the cache is switched off, and a new object started on the same
    store comes up switched off. *)
Lemma enabled_flag_round_trip_witness :
  let env := calm no_randoms 0 in
  let after := snd (setEnabled platformCache env false st_three) in
  isImageCacheEnabled
    (snd (loadSettings platformCache env (set_isEnabled true after)))
  = false.
Proof.
  cbv zeta.
  apply (enabled_flag_round_trip platformCache (calm no_randoms 0) false
           st_three).
  - apply calm_has_no_faults.
  - reflexivity.
Defined.

(** X7 on a store of three blobs whose counter knows one of them: the
    counter stays at 60 MiB. *)
Lemma loadSettings_survives_read_failure_witness :
  let run := loadSettings platformCache (failing_at 0 no_randoms 0)
                          st_undercounted in
  fst run = Ok tt
  /\ observable (snd run) = observable st_undercounted
  /\ new_calls st_undercounted (snd run)
     = [(GetItem IMAGE_CACHE_ENABLED_KEY, false)]
  /\ console (snd run)
     = console st_undercounted ++ ["Error loading cache settings:"].
Proof.
  exact (loadSettings_survives_read_failure platformCache
           (failing_at 0 no_randoms 0) st_undercounted eq_refl).
Defined.

(** X8 on the same store: the counter goes from 60 MiB to the 170 MiB on
    disk. *)
Lemma calculateCacheSize_resyncs_witness :
  cacheSize (snd (calculateCacheSize platformCache (calm no_randoms 0)
                                     st_undercounted))
  = 170 * MiB.
Proof.
  exact (proj1 (proj2 (calculateCacheSize_resyncs platformCache
                         (calm no_randoms 0) st_undercounted eq_refl))).
Defined.

(** X9 on three blobs of 40 MiB, the third call rejecting: the directory
    is gone and the counter still says 120 MiB. *)
Lemma clearCache_failed_recreation_witness :
  let run := clearCache platformCache (failing_at 2 no_randoms 0) st_three in
  disk (snd run) = None /\ cacheSize (snd run) = 120 * MiB.
Proof.
  cbv zeta.
  destruct (clearCache_failed_recreation platformCache
              (failing_at 2 no_randoms 0) st_three _
              eq_refl eq_refl eq_refl eq_refl) as (_ & D & C & _).
  split; [exact D | exact C].
Defined.

(** X10 on three blobs of 40 MiB. *)
Lemma disabled_service_is_inert_witness :
  let env := calm no_randoms MiB in
  let off := snd (setEnabled platformCache env false st_three) in
  getCachedImageUri platformCache MAX_CACHE_SIZE env poster_url off
  = (Ok poster_url, off).
Proof.
  exact (proj2 (proj2 (disabled_service_is_inert platformCache MAX_CACHE_SIZE
                         (calm no_randoms MiB) st_three poster_url
                         (calm_has_no_faults _ _)))).
Defined.

(** X11: a counter of 5000 bytes is displayed as 0. *)
Lemma getCacheSizeInMB_zero_iff_small_witness :
  (getCacheSizeInMB st_small_counter == 0)%Q.
Proof.
  apply (getCacheSizeInMB_zero_iff_small st_small_counter).
  - cbn. lia.
  - cbn. lia.
Defined.

(** X12 on an empty cache. *)
Lemma trailing_slash_resolves_to_directory_witness :
  let url := (slash_url_prefix ++ "/")%string in
  fst (getCachedImageUri platformCache MAX_CACHE_SIZE (calm no_randoms MiB)
                         url st_empty)
  = Ok (IMAGE_CACHE_DIR platformCache).
Proof.
  exact (proj1 (proj2 (trailing_slash_resolves_to_directory platformCache
                         MAX_CACHE_SIZE (calm no_randoms MiB)
                         slash_url_prefix st_empty [] eq_refl eq_refl
                         eq_refl))).
Defined.

(** X13: the poster is resolved in width 185, then in width 500. *)
Lemma other_size_hits_first_blob_witness :
  let env := calm no_randoms MiB in
  let first :=
    getCachedImageUri platformCache MAX_CACHE_SIZE env
      (getImageUrl "/poster.jpg" "w185") st_empty in
  let second :=
    getCachedImageUri platformCache MAX_CACHE_SIZE env
      (getImageUrl "/poster.jpg" "w500") (snd first) in
  fst second = fst first
  /\ new_calls (snd first) (snd second)
     = [(GetInfo "file:///cache/images/poster.jpg" false, true)].
Proof.
  cbv zeta.
  destruct (other_size_hits_first_blob platformCache MAX_CACHE_SIZE
              (calm no_randoms MiB) "poster.jpg" "w185" "w500" st_empty []
              (calm_has_no_faults _ _) eq_refl eq_refl eq_refl)
    as (R1 & R2 & N & _).
  - vm_compute. discriminate.
  - split; [now rewrite R1, R2 | exact N].
Defined.

(** X14 on a poster url. *)
Lemma component_and_service_names_witness :
  getFilenameFromUrl poster_url = filename_of_uri poster_url.
Proof.
  apply (proj2 (proj2 (component_and_service_names poster_url))).
  reflexivity.
Defined.

(** X16 on a disabled service. *)
Lemma loadImage_pass_through_witness :
  loadImage platformCache (calm no_randoms MiB) always_200 poster_url
            fresh_view st_disabled
  = (Ok (mkImageView (Some poster_url) false false), st_disabled).
Proof.
  apply (proj2 (loadImage_pass_through platformCache (calm no_randoms MiB)
                  always_200 poster_url fresh_view st_disabled)).
  - discriminate.
  - reflexivity.
Defined.

(** X17 on a service without a directory: the blob of one megabyte is on
    disk and the counter says 0. *)
Lemma loadImage_stores_uncounted_witness :
  let st' := snd (loadImage platformCache (calm no_randoms MiB) always_200
                            poster_url fresh_view st_no_directory) in
  disk st' = Some [("poster.jpg", MiB)] /\ cacheSize st' = 0.
Proof.
  cbv zeta.
  destruct (loadImage_stores_uncounted platformCache (calm no_randoms MiB)
              always_200 (calm_has_no_faults _ _) poster_url fresh_view
              st_no_directory eq_refl) as (D & C & _).
  - discriminate.
  - reflexivity.
  - split; [exact D | exact C].
Defined.

(** X18 with a server that answers 404: the first load shows the remote
    url and the second one the local file. *)
Lemma loadImage_caches_any_status_witness :
  let env := calm no_randoms MiB in
  let first := loadImage platformCache env always_404 poster_url fresh_view
                         st_empty in
  let second := loadImage platformCache env always_404 poster_url
                          (fst_view first fresh_view) (snd first) in
  fst first = Ok (mkImageView (Some poster_url) false false)
  /\ fst second
     = Ok (mkImageView (Some "file:///cache/images/poster.jpg") false false).
Proof.
  cbv zeta.
  destruct (loadImage_caches_any_status platformCache (calm no_randoms MiB)
              always_404 (calm_has_no_faults _ _) poster_url fresh_view
              st_empty eq_refl) as (R1 & R2 & _).
  - discriminate.
  - reflexivity.
  - split; [exact R1 | exact R2].
Defined.

(** X19 on an empty cache: the service serves the blob of the component
    and its counter stays at 0. *)
Lemma service_hits_component_blob_witness :
  let env := calm no_randoms MiB in
  let st1 := snd (loadImage platformCache env always_200 poster_url
                            fresh_view st_empty) in
  fst (getCachedImageUri platformCache MAX_CACHE_SIZE env poster_url st1)
  = Ok "file:///cache/images/poster.jpg"
  /\ cacheSize st1 = 0
  /\ disk st1 = Some [("poster.jpg", MiB)].
Proof.
  cbv zeta.
  destruct (service_hits_component_blob platformCache MAX_CACHE_SIZE
              (calm no_randoms MiB) always_200 (calm_has_no_faults _ _)
              poster_url fresh_view st_empty eq_refl) as (R & C & D).
  - discriminate.
  - reflexivity.
  - reflexivity.
  - split; [now rewrite R | split; [exact C | exact D]].
Defined.

(** X20 on a file name with a dash: two blobs for one url. *)
Lemma unsafe_name_is_stored_twice_witness :
  let env := calm no_randoms MiB in
  let st1 := snd (loadImage platformCache env always_200 dashed_url
                            fresh_view st_empty) in
  disk (snd (getCachedImageUri platformCache MAX_CACHE_SIZE env dashed_url st1))
  = Some [("poster-1.jpg", MiB); ("poster_1.jpg", MiB)].
Proof.
  cbv zeta.
  refine (proj1 (proj2 (unsafe_name_is_stored_twice platformCache
                          MAX_CACHE_SIZE (calm no_randoms MiB) always_200
                          (calm_has_no_faults _ _) dashed_url fresh_view
                          st_empty eq_refl _ eq_refl eq_refl _ _))).
  - discriminate.
  - vm_compute. discriminate.
  - vm_compute. discriminate.
Defined.

(** X21: a small card, then a large card of the same show. *)
Lemma card_sizes_share_a_blob_witness :
  let env := calm no_randoms MiB in
  let first := loadImage platformCache env always_200
                         (getPosterUrl small "/poster.jpg") fresh_view
                         st_empty in
  let second := loadImage platformCache env always_200
                          (getPosterUrl large "/poster.jpg") fresh_view
                          (snd first) in
  fst second
  = Ok (mkImageView (Some "file:///cache/images/poster.jpg") false false)
  /\ filter is_download (new_calls (snd first) (snd second)) = [].
Proof.
  cbv zeta.
  destruct (card_sizes_share_a_blob platformCache (calm no_randoms MiB)
              always_200 (calm_has_no_faults _ _) "poster.jpg" small large
              fresh_view fresh_view st_empty eq_refl eq_refl)
    as (_ & R & N & _).
  split; [exact R | exact N].
Defined.

(** X22 with one day, one hour, one minute and one second left. *)
Lemma calculateTimeLeft_parts_witness :
  exists days hours minutes,
    0 <= days /\ 0 <= hours < 24 /\ 0 <= minutes < 60
    /\ days * 86400000 + hours * 3600000 + minutes * 60000 <= 90061000 - 0
    /\ 90061000 - 0
       < days * 86400000 + hours * 3600000 + minutes * 60000 + 60000
    /\ calculateTimeLeft 0 (Some 90061000)
       = if 0 <? days
         then (js_toString (Some days) ++ "d "
               ++ js_toString (Some hours) ++ "h")%string
         else if 0 <? hours
              then (js_toString (Some hours) ++ "h "
                    ++ js_toString (Some minutes) ++ "m")%string
              else (js_toString (Some minutes) ++ "m")%string.
Proof.
  exact (calculateTimeLeft_parts 0 90061000 eq_refl).
Defined.

(** X23 with half a minute left. *)
Lemma calculateTimeLeft_edges_witness :
  calculateTimeLeft 1000 (Some 31000) = "0m".
Proof.
  apply (proj1 (proj2 (calculateTimeLeft_edges 1000))). lia.
Defined.

(** X24: the second show is added to a list that holds the first. *)
Lemma addToWatchlist_then_listed_witness :
  let env := calm no_randoms 0 in
  let run := addToWatchlist env toy_id toy_stringify toy_parse false
                            st_watchlist in
  fst run = Ok true
  /\ holds toy_stringify (snd run) [true; false]
  /\ fst (isInWatchlist env toy_id toy_parse 2 (snd run)) = Ok true.
Proof.
  cbv zeta.
  destruct (addToWatchlist_then_listed (calm no_randoms 0) bool toy_id
              toy_stringify toy_parse toy_parse_stringify
              toy_stringify_not_empty false st_watchlist [true]
              (calm_has_no_faults _ _) eq_refl) as (R & H & _ & I & _).
  split; [exact R | split; [exact H | exact I]].
Defined.

(** X25: the only show of the list is removed. *)
Lemma removeFromWatchlist_then_unlisted_witness :
  let env := calm no_randoms 0 in
  let run := removeFromWatchlist env toy_id toy_stringify toy_parse 1
                                 st_watchlist in
  fst run = Ok true
  /\ holds toy_stringify (snd run) []
  /\ fst (isInWatchlist env toy_id toy_parse 1 (snd run)) = Ok false.
Proof.
  cbv zeta.
  destruct (removeFromWatchlist_then_unlisted (calm no_randoms 0) bool toy_id
              toy_stringify toy_parse toy_parse_stringify
              toy_stringify_not_empty 1 st_watchlist [true]
              (calm_has_no_faults _ _) eq_refl) as (R & H & I & _).
  split; [exact R | split; [exact H | exact I]].
Defined.

(** X26: the read rejects while the second show is added; the first show
    is gone from the store. *)
Lemma failed_read_overwrites_watchlist_witness :
  let run := addToWatchlist (failing_at 0 no_randoms 0) toy_id toy_stringify
                            toy_parse false st_watchlist in
  fst run = Ok true /\ holds toy_stringify (snd run) [false].
Proof.
  cbv zeta.
  refine (proj1 (failed_read_overwrites_watchlist (failing_at 0 no_randoms 0)
                   bool toy_id toy_stringify toy_parse false 1 st_watchlist
                   _ eq_refl)).
  left. reflexivity.
Defined.

(** X27: the write rejects while the second show is added. *)
Lemma failed_write_keeps_watchlist_witness :
  let run := addToWatchlist (failing_at 1 no_randoms 0) toy_id toy_stringify
                            toy_parse false st_watchlist in
  fst run = Ok false /\ storage (snd run) = storage st_watchlist.
Proof.
  cbv zeta.
  destruct (failed_write_keeps_watchlist (failing_at 1 no_randoms 0) bool
              toy_id toy_stringify toy_parse toy_parse_stringify
              toy_stringify_not_empty false 1 st_watchlist [true]
              eq_refl eq_refl eq_refl eq_refl) as ((R & S & _) & _).
  split; [exact R | exact S].
Defined.

(** X29 on a store that holds the text of [null]. *)
Lemma non_array_blocks_watchlist_witness :
  let env := calm no_randoms 0 in
  fst (getWatchlist env toy_parse st_watchlist_null) = Ok NotAnArray
  /\ fst (addToWatchlist env toy_id toy_stringify toy_parse true
                         st_watchlist_null) = Ok false.
Proof.
  cbv zeta.
  destruct (non_array_blocks_watchlist (calm no_randoms 0) bool toy_id
              toy_stringify toy_parse true 1 st_watchlist_null "null"
              eq_refl eq_refl) as (G & (A & _) & _).
  - discriminate.
  - reflexivity.
  - split; [exact G | exact A].
Defined.
